(** * AI-NeXuS: the RAG pipeline and the generation-request orchestrator

  A shallow embedding of [services/ragService.ts] and of the Gemini/OpenAI
  service module (chunking, indexing, retrieval, retry with backoff,
  history normalization and streaming), with the properties the design
  document states about them.

  Conventions of the embedding:
  - a JavaScript string is a [string] (its code units, below 256); indices and sizes are integers
    ([Z]), which is what the callers pass (JavaScript numbers that hold
    integers below 2^53 behave as integers);
  - an [async] function is a computation over an explicit world (the
    scripted behaviour of the network, the store, and a trace of what was
    called); [await] is sequencing;
  - a loop whose termination depends on its arguments takes fuel, and
    running out of fuel is the completion [Diverge]. *)

From Stdlib Require Import ZArith List String Ascii Bool Lia QArith.
From Stdlib Require Import Qround Lqa DecimalString Permutation.
Import ListNotations.

Local Open Scope string_scope.
Local Open Scope list_scope.
Local Open Scope Z_scope.

(* ================================================================== *)
(** ** JavaScript values and string primitives *)

Module Js.

(** What the code observes of a thrown value ([error: any]):
    its truthiness, [typeof error.message === 'string'] and the message,
    [instanceof Error], [instanceof Response], [error.status] and
    [String(error)]. *)
Record Value : Type := mkValue {
  truthy : bool;
  message : option string;
  isError : bool;
  isResponse : bool;
  status : option Z;
  toStr : string
}.

(** [new Error(msg)] *)
Definition newError (msg : string) : Value :=
  {| truthy := true; message := Some msg; isError := true;
     isResponse := false; status := None; toStr := String.append "Error: " msg |}.

(** How a statement or a call completes. *)
Inductive completion (A : Type) : Type :=
| Normal (a : A)
| Throw (e : Value)
| Diverge.
Arguments Normal {A} a.
Arguments Throw {A} e.
Arguments Diverge {A}.

(** Relative index resolution of [String.prototype.slice]. *)
Definition clampIndex (len k : Z) : Z :=
  if k <? 0 then Z.max (len + k) 0 else Z.min k len.

(** [s.slice(start, stop)] *)
Definition slice (s : string) (start stop : Z) : string :=
  let len := Z.of_nat (String.length s) in
  let from := clampIndex len start in
  let to := clampIndex len stop in
  substring (Z.to_nat from) (Z.to_nat (Z.max (to - from) 0)) s.

(** [s.includes(pat)] *)
Fixpoint includes (s pat : string) : bool :=
  prefix pat s ||
  match s with
  | EmptyString => false
  | String _ s' => includes s' pat
  end.

(** [s.startsWith(pat)] *)
Definition startsWith (s pat : string) : bool := prefix pat s.

(** White space as [trim] sees it, on the characters a [string] holds. *)
Definition isSpace (c : ascii) : bool :=
  let n := nat_of_ascii c in
  ((9 <=? n) && (n <=? 13))%nat || (n =? 32)%nat || (n =? 160)%nat.

Fixpoint trimStart (s : string) : string :=
  match s with
  | EmptyString => EmptyString
  | String c s' => if isSpace c then trimStart s' else s
  end.

Fixpoint trimEnd (s : string) : string :=
  match s with
  | EmptyString => EmptyString
  | String c s' =>
      match trimEnd s' with
      | EmptyString => if isSpace c then EmptyString else String c EmptyString
      | t => String c t
      end
  end.

(** [s.trim()] *)
Definition trim (s : string) : string := trimEnd (trimStart s).

(** [s.split(sep)] for a one-character separator; the result is never
    empty. *)
Fixpoint split (sep : ascii) (s : string) : list string :=
  match s with
  | EmptyString => [EmptyString]
  | String c s' =>
      if Ascii.eqb c sep then EmptyString :: split sep s'
      else match split sep s' with
           | [] => [String c EmptyString]
           | hd :: tl => String c hd :: tl
           end
  end.

(** Truthiness of a string. *)
Definition nonEmpty (s : string) : bool :=
  match s with EmptyString => false | _ => true end.

(** The double-quote character, as a string. *)
Definition dquote : string := String (ascii_of_nat 34) EmptyString.

(** Decimal rendering of a non-negative integer in a template string. *)
Definition showNat (n : nat) : string :=
  NilZero.string_of_uint (Nat.to_uint n).

End Js.

Import Js.

(* ================================================================== *)
(** ** The chunker ([chunkText] in ragService.ts) *)

Module Chunker.

(** The [while] loop of [chunkText]; [i] is the cursor, [chunks] the
    array built so far.  One unit of fuel per iteration. *)
Fixpoint chunkLoop (fuel : nat) (text : string) (chunkSize overlap i : Z)
         (chunks : list string) : completion (list string) :=
  let len := Z.of_nat (String.length text) in
  if i <? len then
    match fuel with
    | O => Diverge
    | S fuel' =>
        let end_ := Z.min (i + chunkSize) len in
        let chunks := chunks ++ [slice text i end_] in
        let i := i + (chunkSize - overlap) in
        let i := if i + overlap >=? len then len else i in
        chunkLoop fuel' text chunkSize overlap i chunks
    end
  else Normal chunks.

Definition chunkText (fuel : nat) (text : string) (chunkSize overlap : Z)
  : completion (list string) :=
  chunkLoop fuel text chunkSize overlap 0 [].

(** The default parameters of the source. *)
Definition defaultChunkSize : Z := 1000.
Definition defaultOverlap : Z := 200.

(** The same loop, recording the boundaries [(i, end)] of each chunk
    instead of its text. *)
Fixpoint spanLoop (fuel : nat) (len chunkSize overlap i : Z)
  : option (list (Z * Z)) :=
  if i <? len then
    match fuel with
    | O => None
    | S fuel' =>
        let end_ := Z.min (i + chunkSize) len in
        let i' := i + (chunkSize - overlap) in
        let i' := if i' + overlap >=? len then len else i' in
        option_map (cons (i, end_)) (spanLoop fuel' len chunkSize overlap i')
    end
  else Some [].

Definition chunkSpans (fuel : nat) (len chunkSize overlap : Z) :=
  spanLoop fuel len chunkSize overlap 0.

Definition sliceSpan (text : string) (se : Z * Z) : string :=
  slice text (fst se) (snd se).

(** Document order without gaps: the spans start at [from], each next
    span starts strictly later than the one before and no later than
    where that one ended, every span is a non-empty window of the text,
    and the last one ends at [len]. *)
Fixpoint tiles (len from reach : Z) (spans : list (Z * Z)) : Prop :=
  match spans with
  | [] => reach = len
  | (s, e) :: rest =>
      from <= s <= reach /\ 0 <= s < e /\ reach < e <= len /\
      tiles len (s + 1) e rest
  end.

(** A document of [n] characters. *)
Fixpoint document (n : nat) : string :=
  match n with
  | O => EmptyString
  | S n' => String "a" (document n')
  end.

(** Fixed-size windows from cursor [from]: a span starts at the cursor,
    is non-empty and at most [chunkSize] long, and exactly [chunkSize]
    long unless it ends the text; the next span starts [overlap] before
    the end of this one. *)
Fixpoint windows (len chunkSize overlap from : Z) (spans : list (Z * Z)) : Prop :=
  match spans with
  | [] => len <= from
  | (s, e) :: rest =>
      s = from /\ 0 <= s < e /\ e <= len /\ e - s <= chunkSize /\
      (e < len -> e - s = chunkSize) /\
      windows len chunkSize overlap (if e <? len then e - overlap else len) rest
  end.

(** The number of chunks of a text of [len] characters: one window, and
    one more for every further step of [chunkSize - overlap] the first
    window's end needs to reach the end of the text. *)
Definition chunkCount (len chunkSize overlap : Z) : Z :=
  if len <=? 0 then 0
  else if len <=? chunkSize then 1
  else 1 + (len - chunkSize + (chunkSize - overlap) - 1) / (chunkSize - overlap).

End Chunker.

(* ================================================================== *)
(** ** Asynchronous code as computations over a world *)

Module Eff.

(** A computation reads and updates the world [W] and completes. *)
Definition M (W A : Type) : Type := W -> completion A * W.

Definition ret {W A} (a : A) : M W A := fun w => (Normal a, w).

Definition bind {W A B} (m : M W A) (k : A -> M W B) : M W B :=
  fun w =>
    match m w with
    | (Normal a, w') => k a w'
    | (Throw e, w') => (Throw e, w')
    | (Diverge, w') => (Diverge, w')
    end.

(** [throw e] *)
Definition throw {W A} (e : Value) : M W A := fun w => (Throw e, w).

(** [try { body } catch (error) { handler(error) }] *)
Definition tryCatch {W A} (body : M W A) (handler : Value -> M W A) : M W A :=
  fun w =>
    match body w with
    | (Throw e, w') => handler e w'
    | r => r
    end.

(** A pure call that may throw or not return. *)
Definition lift {W A} (c : completion A) : M W A := fun w => (c, w).

Definition modify {W} (f : W -> W) : M W unit := fun w => (Normal tt, f w).

Definition gets {W A} (f : W -> A) : M W A := fun w => (Normal (f w), w).

End Eff.

Import Eff.

Declare Scope eff_scope.
Delimit Scope eff_scope with eff.
Notation "x <- m ;; k" := (bind m (fun x => k))
(at level 61, m at next level, right associativity) : eff_scope.
Notation "m ;; k" := (bind m (fun _ => k))
(at level 61, right associativity) : eff_scope.
Local Open Scope eff_scope.

(* ================================================================== *)
(** ** ragService.ts: indexing and retrieval *)

Module Rag.

Section WithNumbers.

(** JavaScript numbers as the embedding vectors hold them, with the
    floating-point operations [calculateCosineSimilarity] and the sort
    comparator use. *)
Variable number : Type.
Variable nzero : number.
Variables nadd nmul ndiv : number -> number -> number.
Variable nsqrt : number -> number.
Variable neqb : number -> number -> bool.
(** [gtb x y]: the comparator result [x - y] is positive. *)
Variable ngtb : number -> number -> bool.

Record EmbeddingConfig : Type := {
  service : string;
  apiKey : option string;
  apiEndpoint : option string;
  model : option string
}.

Record RagSource : Type := {
  id : string;
  fileName : string;
  fileType : string;
  createdAt : string
}.

Record VectorChunk : Type := {
  chunkId : string;
  sourceId : string;
  content : string;
  embedding : list number
}.

(** A browser [File]: [fileText] is what [readAsText] yields, or the
    reader's error. *)
Record File : Type := {
  name : string;
  type : string;
  fileText : string + Value
}.

(** The fields of a [Character] that retrieval reads. *)
Record Character : Type := {
  embeddingConfig : option EmbeddingConfig;
  knowledgeSourceIds : option (list string)
}.

Inductive Level : Type := LogInfo | LogWarn | LogError | LogDebug.

(** What the module did to its collaborators, in order. *)
Inductive Event : Type :=
| EvProgress (progress : string)
| EvLog (level : Level) (msg : string)
| EvEmbed (text : string) (cfg : EmbeddingConfig)
| EvSave (chunks : list VectorChunk)
| EvGet (sourceId : string)
| EvDelete (sourceId : string).

(** The world of ragService: the embedding provider answers the n-th
    call by [embedScript n]; the store may refuse an operation
    ([storeFault], by number of store operations so far). *)
Record World : Type := {
  uuids : nat -> string;
  uuidsDrawn : nat;
  isoNow : string;
  embedScript : nat -> string -> EmbeddingConfig -> list number + Value;
  embedCalls : nat;
  storeFault : nat -> option Value;
  storeOps : nat;
  store : list VectorChunk;
  trace : list Event
}.

(** The world after one more event. *)
Definition logged (ev : Event) (w : World) : World :=
  {| uuids := uuids w; uuidsDrawn := uuidsDrawn w; isoNow := isoNow w;
     embedScript := embedScript w; embedCalls := embedCalls w;
     storeFault := storeFault w; storeOps := storeOps w;
     store := store w; trace := trace w ++ [ev] |}.

Definition record (ev : Event) : M World unit := modify (logged ev).

(** [logger.log], [logger.warn], [logger.error], [logger.debug] *)
Definition logger (level : Level) (msg : string) : M World unit :=
  record (EvLog level msg).

(** [crypto.randomUUID()] *)
Definition randomUUID : M World string :=
  fun w =>
    (Normal (uuids w (uuidsDrawn w)),
     {| uuids := uuids w; uuidsDrawn := S (uuidsDrawn w); isoNow := isoNow w;
        embedScript := embedScript w; embedCalls := embedCalls w;
        storeFault := storeFault w; storeOps := storeOps w;
        store := store w; trace := trace w |}).

(** [new Date().toISOString()] *)
Definition nowISO : M World string := gets isoNow.

(** [embeddingService.generateEmbedding(text, config)] *)
Definition generateEmbedding (text : string) (cfg : EmbeddingConfig)
  : M World (list number) :=
  record (EvEmbed text cfg) ;;
  fun w =>
    ((match embedScript w (embedCalls w) text cfg with
      | inl v => Normal v
      | inr e => Throw e
      end),
     {| uuids := uuids w; uuidsDrawn := uuidsDrawn w; isoNow := isoNow w;
        embedScript := embedScript w; embedCalls := S (embedCalls w);
        storeFault := storeFault w; storeOps := storeOps w;
        store := store w; trace := trace w |}).

(** One operation of the store: it fails as [storeFault] says, else
    applies [upd] to the stored chunks and returns [out] of them. *)
Definition storeOp {A} (upd : list VectorChunk -> list VectorChunk)
           (out : list VectorChunk -> A) : M World A :=
  fun w =>
    let w1 := {| uuids := uuids w; uuidsDrawn := uuidsDrawn w; isoNow := isoNow w;
                 embedScript := embedScript w; embedCalls := embedCalls w;
                 storeFault := storeFault w; storeOps := S (storeOps w);
                 store := store w; trace := trace w |} in
    match storeFault w (storeOps w) with
    | Some e => (Throw e, w1)
    | None =>
        (Normal (out (store w)),
         {| uuids := uuids w; uuidsDrawn := uuidsDrawn w; isoNow := isoNow w;
            embedScript := embedScript w; embedCalls := embedCalls w;
            storeFault := storeFault w; storeOps := S (storeOps w);
            store := upd (store w); trace := trace w |})
    end.

(** Modelled from the spec: [db.saveVectorChunks] of secureStorage, the
    VectorStore operation that persists the chunks. *)
Definition saveVectorChunks (chunks : list VectorChunk) : M World unit :=
  record (EvSave chunks) ;;
  storeOp (fun st => st ++ chunks) (fun _ => tt).

(** Modelled from the spec: [db.getVectorChunksBySource] of
    secureStorage, the chunks stored for one source id. *)
Definition getVectorChunksBySource (sid : string) : M World (list VectorChunk) :=
  record (EvGet sid) ;;
  storeOp (fun st => st) (filter (fun c => String.eqb (sourceId c) sid)).

(** Modelled from the spec: [db.deleteVectorChunksBySource] of
    secureStorage, which removes every chunk of one source id. *)
Definition deleteVectorChunksBySource (sid : string) : M World unit :=
  record (EvDelete sid) ;;
  storeOp (filter (fun c => negb (String.eqb (sourceId c) sid))) (fun _ => tt).

(** [readFileAsText(file)] *)
Definition readFileAsText (file : File) : M World string :=
  match fileText file with
  | inl s => ret s
  | inr e => throw e
  end.

(** The body of [calculateCosineSimilarity]'s [for] loop. *)
Fixpoint dotNorms (vecA vecB : list number) (acc : number * number * number)
  : number * number * number :=
  match vecA, vecB with
  | a :: vecA', b :: vecB' =>
      let '(dotProduct, normA, normB) := acc in
      dotNorms vecA' vecB'
        (nadd dotProduct (nmul a b), nadd normA (nmul a a), nadd normB (nmul b b))
  | _, _ => acc
  end.

Definition calculateCosineSimilarity (vecA vecB : list number) : number :=
  if negb (Nat.eqb (List.length vecA) (List.length vecB))
     || Nat.eqb (List.length vecA) 0
  then nzero
  else
    let '(dotProduct, normA, normB) := dotNorms vecA vecB (nzero, nzero, nzero) in
    if neqb normA nzero || neqb normB nzero then nzero
    else ndiv dotProduct (nmul (nsqrt normA) (nsqrt normB)).

(** The loop of [processAndIndexFile] over [textChunks], from index [i]. *)
Fixpoint embedChunks (onProgress : string -> M World unit)
         (newSourceId : string) (cfg : EmbeddingConfig) (total : nat)
         (i : nat) (rest : list string) (vectorChunks : list VectorChunk)
  : M World (list VectorChunk) :=
  match rest with
  | [] => ret vectorChunks
  | chunk :: rest' =>
      onProgress ("Generating embedding for chunk " ++ showNat (i + 1) ++ " of "
                  ++ showNat total ++ "...")%string ;;
      vectorChunks' <-
        tryCatch
          (embedding <- generateEmbedding chunk cfg ;;
           uuid <- randomUUID ;;
           ret (vectorChunks ++
                [{| chunkId := ("chunk-" ++ uuid)%string; sourceId := newSourceId;
                    content := chunk; embedding := embedding |}]))
          (fun error =>
             logger LogError
               ("Failed to generate embedding for chunk " ++ showNat (i + 1))%string ;;
             throw (newError ("Failed to process chunk " ++ showNat (i + 1)
                              ++ ". Check embedding API settings.")%string)) ;;
      embedChunks onProgress newSourceId cfg total (S i) rest' vectorChunks'
  end.

Definition processAndIndexFile (file : File) (cfg : EmbeddingConfig)
           (onProgress : string -> M World unit) : M World RagSource :=
  uuid <- randomUUID ;;
  now <- nowISO ;;
  let newSource := {| id := ("source-" ++ uuid)%string; fileName := name file;
                      fileType := type file; createdAt := now |} in
  onProgress ("Reading file: " ++ name file ++ "...")%string ;;
  content <- readFileAsText file ;;
  onProgress "Chunking text..." ;;
  textChunks <- lift (Chunker.chunkText (String.length content) content
                        Chunker.defaultChunkSize Chunker.defaultOverlap) ;;
  logger LogInfo ("File chunked into " ++ showNat (List.length textChunks)
                  ++ " pieces.")%string ;;
  vectorChunks <- embedChunks onProgress (id newSource) cfg
                    (List.length textChunks) 0 textChunks [] ;;
  onProgress ("Saving " ++ showNat (List.length vectorChunks)
              ++ " vectors to the database...")%string ;;
  saveVectorChunks vectorChunks ;;
  logger LogInfo ("Successfully indexed file " ++ dquote ++ name file ++ dquote)%string ;;
  ret newSource.

(** [deleteSource(sourceId)] *)
Definition deleteSource (sid : string) : M World unit :=
  deleteVectorChunksBySource sid ;;
  logger LogInfo ("Deleted all vector chunks for source ID: " ++ sid)%string.

(** The [for ... of sourceIds] loop of [findRelevantContext]. *)
Fixpoint loadChunks (sourceIds : list string) (allChunks : list VectorChunk)
  : M World (list VectorChunk) :=
  match sourceIds with
  | [] => ret allChunks
  | sid :: rest =>
      chunks <- getVectorChunksBySource sid ;;
      loadChunks rest (allChunks ++ chunks)
  end.

(** A chunk with its score, as [scoredChunks] holds it. *)
Definition Scored : Type := (VectorChunk * number)%type.

(** [Array.prototype.sort] with the comparator
    [(a, b) => b.similarity - a.similarity]: a stable sort, here by
    insertion from the right. *)
Fixpoint insertScored (x : Scored) (l : list Scored) : list Scored :=
  match l with
  | [] => [x]
  | y :: l' => if ngtb (snd y) (snd x) then y :: insertScored x l' else x :: l
  end.

Definition sortScored (l : list Scored) : list Scored :=
  fold_right insertScored [] l.

(** [arr.slice(0, k)] *)
Definition takeSlice {A} (l : list A) (k : Z) : list A :=
  firstn (Z.to_nat (clampIndex (Z.of_nat (List.length l)) k)) l.

Definition separator : string :=
  String (ascii_of_nat 10) (String (ascii_of_nat 10)
    ("---" ++ String (ascii_of_nat 10) (String (ascii_of_nat 10) EmptyString)))%string.

Definition defaultTopK : Z := 3.

Definition findRelevantContext (query : string) (character : Character)
           (topK : Z) : M World (option string) :=
  match embeddingConfig character with
  | None =>
      logger LogWarn
        "Cannot find relevant context: character has no embedding config." ;;
      ret None
  | Some cfg =>
      let sourceIds :=
        match knowledgeSourceIds character with Some l => l | None => [] end in
      if Nat.eqb (List.length sourceIds) 0 then ret None
      else
        tryCatch
          (queryEmbedding <- generateEmbedding query cfg ;;
           allChunks <- loadChunks sourceIds [] ;;
           if Nat.eqb (List.length allChunks) 0 then
             logger LogInfo "No knowledge base chunks found for linked sources." ;;
             ret None
           else
             let scoredChunks :=
               map (fun chunk =>
                      (chunk, calculateCosineSimilarity queryEmbedding (embedding chunk)))
                   allChunks in
             let sorted := sortScored scoredChunks in
             let topChunks := takeSlice sorted topK in
             logger LogDebug ("Found " ++ showNat (List.length topChunks)
                              ++ " relevant chunks for query.")%string ;;
             ret (Some (String.concat separator
                          (map (fun sc => content (fst sc)) topChunks))))
          (fun error =>
             logger LogError "Error finding relevant context:" ;;
             throw error)
  end.

(** The progress callback the document library passes: it shows the
    string, recorded here as an event. *)
Definition showProgress (progress : string) : M World unit :=
  record (EvProgress progress).

(** A ranking: no entry is followed by one with a strictly higher score. *)
Fixpoint ranked (l : list Scored) : Prop :=
  match l with
  | x :: (y :: _) as tl => ngtb (snd y) (snd x) = false /\ ranked tl
  | _ => True
  end.

(** The chunks the store holds for a list of source ids, source by
    source. *)
Definition linkedChunks (st : list VectorChunk) (sourceIds : list string)
  : list VectorChunk :=
  flat_map (fun sid => filter (fun c => String.eqb (sourceId c) sid) st) sourceIds.

(** The records [processAndIndexFile] builds for the chunks of a file,
    given the embeddings of the chunks; the [k]-th uuid drawn names the
    first. *)
Fixpoint vectorChunksOf (newSourceId : string) (uuid : nat -> string) (k : nat)
         (chunks : list string) (embeddings : list (list number))
  : list VectorChunk :=
  match chunks, embeddings with
  | chunk :: chunks', emb :: embeddings' =>
      {| chunkId := ("chunk-" ++ uuid k)%string; sourceId := newSourceId;
         content := chunk; embedding := emb |}
      :: vectorChunksOf newSourceId uuid (S k) chunks' embeddings'
  | _, _ => []
  end.

(** What a retrieval for [query] with configuration [cfg] over
    [sourceIds] may do to its collaborators: log, embed the query, and
    read the chunks of a linked source. *)
Definition retrievalEvent (query : string) (cfg : option EmbeddingConfig)
           (sourceIds : list string) (ev : Event) : Prop :=
  match ev with
  | EvLog _ _ => True
  | EvEmbed text c => text = query /\ cfg = Some c
  | EvGet sid => In sid sourceIds
  | _ => False
  end.

End WithNumbers.

Arguments uuids {number} w.
Arguments uuidsDrawn {number} w.
Arguments isoNow {number} w.
Arguments embedScript {number} w.
Arguments embedCalls {number} w.
Arguments storeFault {number} w.
Arguments storeOps {number} w.
Arguments store {number} w.
Arguments trace {number} w.
Arguments EvProgress {number} progress.
Arguments EvLog {number} level msg.
Arguments EvEmbed {number} text cfg.
Arguments EvSave {number} chunks.
Arguments EvGet {number} sourceId.
Arguments EvDelete {number} sourceId.
Arguments logged {number} ev w.
Arguments showProgress {number} progress.
Arguments embedChunks {number} onProgress newSourceId cfg total i rest vectorChunks.
Arguments processAndIndexFile {number} file cfg onProgress.
Arguments linkedChunks {number} st sourceIds.
Arguments vectorChunksOf {number} newSourceId uuid k chunks embeddings.
Arguments retrievalEvent {number} query cfg sourceIds ev.
Arguments loadChunks {number} sourceIds allChunks.

(** A world for examples: numbers are integers, the store is empty and
    the embedding provider answers as [script] says. *)
Definition sampleWorld (script : nat -> string -> EmbeddingConfig -> list Z + Value)
  : World Z :=
  {| uuids := fun n => showNat n; uuidsDrawn := 0; isoNow := "2025-01-01T00:00:00.000Z";
     embedScript := script; embedCalls := 0;
     storeFault := fun _ => None; storeOps := 0;
     store := []; trace := [] |}.

Definition sampleConfig : EmbeddingConfig :=
  {| service := "gemini"; apiKey := None; apiEndpoint := None;
     model := Some "text-embedding-004" |}.

(** A provider that is down. *)
Definition providerDown : nat -> string -> EmbeddingConfig -> list Z + Value :=
  fun _ _ _ => inr (newError "503 Service Unavailable").

(** A provider that fails from its [n]-th call on. *)
Definition providerFailsFrom (n : nat)
  : nat -> string -> EmbeddingConfig -> list Z + Value :=
  fun k _ _ => if (k <? n)%nat then inl [1; 0] else inr (newError "quota exceeded").

Definition sampleFile (text : string) : File :=
  {| name := "notes.txt"; type := "text/plain"; fileText := inl text |}.

(** A store with two chunks of source [s1] and one of source [s2]. *)
Definition sampleStore : list (VectorChunk Z) :=
  [ {| chunkId := "chunk-a"; sourceId := "s1"; content := "alpha"; embedding := [1; 0] |};
    {| chunkId := "chunk-b"; sourceId := "s2"; content := "beta"; embedding := [0; 1] |};
    {| chunkId := "chunk-c"; sourceId := "s1"; content := "gamma"; embedding := [1; 1] |} ].

(** A world whose provider embeds every text as [[1; 0]] and whose store
    is [sampleStore]. *)
Definition sampleWorldWithStore : World Z :=
  {| uuids := fun n => showNat n; uuidsDrawn := 0; isoNow := "2025-01-01T00:00:00.000Z";
     embedScript := fun _ _ _ => inl [1; 0]; embedCalls := 0;
     storeFault := fun _ => None; storeOps := 0;
     store := sampleStore; trace := [] |}.

Definition sampleCharacter : Character :=
  {| embeddingConfig := Some sampleConfig; knowledgeSourceIds := Some ["s1"] |}.

(** A file that cannot be read. *)
Definition unreadableFile : File :=
  {| name := "notes.txt"; type := "text/plain";
     fileText := inr (newError "NotReadableError") |}.

End Rag.

(* ================================================================== *)
(** ** geminiService.ts: retry, history normalization and streaming *)

Module Gemini.

Inductive Level : Type := LogInfo | LogWarn | LogError | LogDebug.

(** A [Response] of [fetch]: [respText] is what [response.text()]
    resolves to; [respBody] is [null] or the successive results of
    [reader.read()] (decoded), the end of the list being [done]. *)
Record Response : Type := {
  respStatus : Z;
  respText : string;
  respBody : option (list (string + Value))
}.

(** [response.ok] *)
Definition respOk (r : Response) : bool :=
  (200 <=? respStatus r) && (respStatus r <=? 299).

(** The request [streamOpenAIChatResponse] posts. *)
Record FetchRequest : Type := {
  reqUrl : option string;
  reqAuthorization : string;
  reqModel : string;
  reqMessages : list (string * string);
  reqStream : bool
}.

(** A part of a Gemini turn: [{text}] or [{inlineData: {mimeType, data}}]. *)
Inductive Part : Type :=
| TextPart (text : string)
| InlineData (mimeType data : string).

Record Turn : Type := { turnRole : string; parts : list Part }.

(** The request of [ai.models.generateContentStream]. *)
Record StreamRequest : Type := {
  streamKey : option string;
  streamModel : string;
  streamContents : list Turn;
  streamSystemInstruction : string;
  streamThinkingBudget : option Z;
  streamGoogleSearch : bool
}.

(** The world of the service module: [Math.random] and timers, the
    logger, a counter for scripted operations, the network ([fetch] and
    the Gemini streaming endpoint answer their n-th call by script), and
    the chunks delivered to the caller's callback. *)
Record World : Type := {
  randoms : nat -> Q;
  randomsDrawn : nat;
  slept : list Q;
  logs : list (Level * string);
  opCalls : nat;
  fetchScript : nat -> Response + Value;
  fetched : list FetchRequest;
  hasDefaultAi : bool;
  streamScript : nat -> list (string + Value) + Value;
  streamed : list StreamRequest;
  delivered : list string
}.

Definition setRandomsDrawn (n : nat) (w : World) : World :=
  {| randoms := randoms w; randomsDrawn := n; slept := slept w; logs := logs w;
     opCalls := opCalls w; fetchScript := fetchScript w; fetched := fetched w;
     hasDefaultAi := hasDefaultAi w; streamScript := streamScript w;
     streamed := streamed w; delivered := delivered w |}.

Definition setSlept (l : list Q) (w : World) : World :=
  {| randoms := randoms w; randomsDrawn := randomsDrawn w; slept := l; logs := logs w;
     opCalls := opCalls w; fetchScript := fetchScript w; fetched := fetched w;
     hasDefaultAi := hasDefaultAi w; streamScript := streamScript w;
     streamed := streamed w; delivered := delivered w |}.

Definition setLogs (l : list (Level * string)) (w : World) : World :=
  {| randoms := randoms w; randomsDrawn := randomsDrawn w; slept := slept w; logs := l;
     opCalls := opCalls w; fetchScript := fetchScript w; fetched := fetched w;
     hasDefaultAi := hasDefaultAi w; streamScript := streamScript w;
     streamed := streamed w; delivered := delivered w |}.

Definition setOpCalls (n : nat) (w : World) : World :=
  {| randoms := randoms w; randomsDrawn := randomsDrawn w; slept := slept w;
     logs := logs w; opCalls := n; fetchScript := fetchScript w; fetched := fetched w;
     hasDefaultAi := hasDefaultAi w; streamScript := streamScript w;
     streamed := streamed w; delivered := delivered w |}.

Definition setFetched (l : list FetchRequest) (w : World) : World :=
  {| randoms := randoms w; randomsDrawn := randomsDrawn w; slept := slept w;
     logs := logs w; opCalls := opCalls w; fetchScript := fetchScript w; fetched := l;
     hasDefaultAi := hasDefaultAi w; streamScript := streamScript w;
     streamed := streamed w; delivered := delivered w |}.

Definition setStreamed (l : list StreamRequest) (w : World) : World :=
  {| randoms := randoms w; randomsDrawn := randomsDrawn w; slept := slept w;
     logs := logs w; opCalls := opCalls w; fetchScript := fetchScript w;
     fetched := fetched w; hasDefaultAi := hasDefaultAi w;
     streamScript := streamScript w; streamed := l; delivered := delivered w |}.

Definition setDelivered (l : list string) (w : World) : World :=
  {| randoms := randoms w; randomsDrawn := randomsDrawn w; slept := slept w;
     logs := logs w; opCalls := opCalls w; fetchScript := fetchScript w;
     fetched := fetched w; hasDefaultAi := hasDefaultAi w;
     streamScript := streamScript w; streamed := streamed w; delivered := l |}.

(** [logger.log], [logger.warn], [logger.error], [logger.debug] *)
Definition logger (level : Level) (msg : string) : M World unit :=
  modify (fun w => setLogs (logs w ++ [(level, msg)]) w).

(** [Math.random()] *)
Definition random : M World Q :=
  fun w => (Normal (randoms w (randomsDrawn w)), setRandomsDrawn (S (randomsDrawn w)) w).

(** [await new Promise(resolve => setTimeout(resolve, delay))] *)
Definition sleep (delay : Q) : M World unit :=
  modify (fun w => setSlept (slept w ++ [delay]) w).

(** Decimal rendering of an integer in a template string. *)
Definition showZ (z : Z) : string := NilZero.string_of_int (Z.to_int z).

(** [Math.round(x)] *)
Definition round (x : Q) : Z := Qfloor (x + (1 # 2)).

(** The classification in the [catch] block of [withRetry]. *)
Definition isRateLimitError (error : Value) : bool :=
  match truthy error, message error with
  | true, Some errorMessage =>
      includes errorMessage "429" || includes errorMessage "RESOURCE_EXHAUSTED"
  | _, _ =>
      isResponse error &&
      match status error with
      | Some st => (st =? 429) || (st =? 503)
      | None => false
      end
  end.

(** [initialDelay * Math.pow(2, attempt) + Math.random() * 1000], over
    the rationals. *)
Definition backoffDelay (initialDelay attempt : Z) (rnd : Q) : Q :=
  (inject_Z (initialDelay * 2 ^ attempt) + rnd * inject_Z 1000)%Q.

(** The [while (attempt < maxRetries)] loop of [withRetry]; one unit of
    fuel per iteration. *)
Fixpoint retryLoop {T} (fuel : nat) (apiCall : M World T)
         (maxRetries initialDelay attempt : Z) : M World T :=
  if attempt <? maxRetries then
    match fuel with
    | O => lift Diverge
    | S fuel' =>
        tryCatch apiCall
          (fun error =>
             if isRateLimitError error then
               if attempt + 1 >=? maxRetries then
                 logger LogWarn
                   ("API rate limit exceeded. All " ++ showZ maxRetries
                    ++ " retries failed. Rethrowing final error.")%string ;;
                 throw error
               else
                 rnd <- random ;;
                 let delay := backoffDelay initialDelay attempt rnd in
                 logger LogWarn
                   ("API rate limit exceeded. Retrying in "
                    ++ showZ (round (delay / inject_Z 1000))
                    ++ "s... (Attempt " ++ showZ (attempt + 1) ++ "/"
                    ++ showZ maxRetries ++ ")")%string ;;
                 sleep delay ;;
                 retryLoop fuel' apiCall maxRetries initialDelay (attempt + 1)
             else
               logger LogError "API call failed with non-retriable error:" ;;
               throw error)
    end
  else throw (newError "API request failed to complete after all retries.").

(** [withRetry(apiCall, maxRetries, initialDelay)]: the loop runs at most
    [maxRetries] times, so that much fuel is enough. *)
Definition withRetry {T} (apiCall : M World T) (maxRetries initialDelay : Z)
  : M World T :=
  retryLoop (Z.to_nat maxRetries) apiCall maxRetries initialDelay 0.

(** The delays slept when every attempt from [attempt] on fails with a
    transient error and [n] retries remain. *)
Definition backoffs (initialDelay attempt : Z) (w : World) (n : nat) : list Q :=
  map (fun k => backoffDelay initialDelay (attempt + Z.of_nat k)
                  (randoms w (randomsDrawn w + k)))
      (seq 0 n).

Definition defaultMaxRetries : Z := 3.
Definition defaultInitialDelay : Z := 2000.

(** An operation whose n-th call (counted in the world) completes as
    [script n] says. *)
Definition scripted {T} (script : nat -> T + Value) : M World T :=
  fun w =>
    ((match script (opCalls w) with
      | inl v => Normal v
      | inr e => Throw e
      end),
     setOpCalls (S (opCalls w)) w).

(** [fetch(url, options)] *)
Definition fetch (req : FetchRequest) : M World Response :=
  fun w =>
    ((match fetchScript w (List.length (fetched w)) with
      | inl r => Normal r
      | inr e => Throw e
      end),
     setFetched (fetched w ++ [req]) w).

Definition fetchWithRetry (req : FetchRequest) (maxRetries initialDelay : Z)
  : M World Response :=
  withRetry
    (response <- fetch req ;;
     if respStatus response =? 429 then throw (newError "429 Too Many Requests")
     else ret response)
    maxRetries initialDelay.

(** Spec-side classification, following the words of the design
    document: an error is transient iff it carries an HTTP 429 status,
    contains the substrings "429" / "RESOURCE_EXHAUSTED", or is an HTTP
    503 (response). *)
Definition specTransient (error : Value) : bool :=
  match status error with Some st => st =? 429 | None => false end
  || match message error with
     | Some m => includes m "429" || includes m "RESOURCE_EXHAUSTED"
     | None => false
     end
  || (isResponse error &&
      match status error with Some st => st =? 503 | None => false end).

(* ---------------------------------------------------------------- *)
(** *** History normalization *)

Record Attachment : Type := {
  url : option string;
  attStatus : string;
  attMimeType : option string
}.

Record Message : Type := {
  role : string;
  content : string;
  attachment : option Attachment
}.

(** [o || d] for an optional string. *)
Definition orDefault (o : option string) (d : string) : string :=
  match o with
  | Some s => if nonEmpty s then s else d
  | None => d
  end.

(** The [filter] predicate of [normalizeGeminiHistory]. *)
Definition isRelevant (msg : Message) : bool :=
  String.eqb (role msg) "user" || String.eqb (role msg) "model"
  || String.eqb (role msg) "narrator".

(** The role a message resolves to. *)
Definition normalizedRole (msg : Message) : string :=
  if String.eqb (role msg) "model" then "model" else "user".

(** The inline-data part of an attachment, when it has one. *)
Definition attachmentParts (msg : Message) : list Part :=
  match attachment msg with
  | Some att =>
      match url att with
      | Some u =>
          if nonEmpty u && String.eqb (attStatus att) "done" then
            match nth_error (split "," u) 1 with
            | Some base64Data =>
                if nonEmpty base64Data
                then [InlineData (orDefault (attMimeType att) "image/png") base64Data]
                else []
            | None => []
            end
          else []
      | None => []
      end
  | None => []
  end.

(** The callback of [relevantMessages.map]. *)
Definition toTurn (msg : Message) : Turn :=
  let textContent :=
    if String.eqb (role msg) "narrator"
    then ("[NARRATOR]: " ++ content msg)%string else content msg in
  let textParts :=
    if nonEmpty (trim textContent) then [TextPart textContent] else [] in
  {| turnRole := normalizedRole msg; parts := textParts ++ attachmentParts msg |}.

(** The merge loop; the array [merged] of the source is [done ++ [prev]],
    [prev] being its last element, which the loop updates in place. *)
Fixpoint mergeLoop (done : list Turn) (prev : Turn) (rest : list Turn)
  : list Turn :=
  match rest with
  | [] => done ++ [prev]
  | curr :: rest' =>
      if String.eqb (turnRole prev) (turnRole curr)
      then mergeLoop done
             {| turnRole := turnRole prev; parts := parts prev ++ parts curr |} rest'
      else mergeLoop (done ++ [prev]) curr rest'
  end.

Definition normalizeGeminiHistory (history : list Message) : list Turn :=
  let relevantMessages := filter isRelevant history in
  if Nat.eqb (List.length relevantMessages) 0 then []
  else
    match map toTurn relevantMessages with
    | [] => []
    | first :: rest => mergeLoop [] first rest
    end.

(** Spec-side: the turn a run of messages is merged into. *)
Definition mergedTurn (run : list Message) : Turn :=
  {| turnRole := match run with m :: _ => normalizedRole m | [] => "user" end;
     parts := List.concat (map (fun m => parts (toTurn m)) run) |}.

(** Spec-side: [runs] cuts a message sequence into maximal runs of one
    normalized role: no run is empty, a run has one role throughout, and
    two neighbouring runs differ in role. *)
Fixpoint maximalRuns (runs : list (list Message)) : Prop :=
  match runs with
  | [] => True
  | run :: rest =>
      (exists m tl, run = m :: tl /\
         Forall (fun m' => normalizedRole m' = normalizedRole m) tl /\
         match rest with
         | (m2 :: _) :: _ => normalizedRole m2 <> normalizedRole m
         | _ => True
         end) /\
      maximalRuns rest
  end.

(* ---------------------------------------------------------------- *)
(** *** Streaming *)

Record ApiConfig : Type := {
  service : string;
  apiKey : option string;
  apiEndpoint : option string;
  model : option string;
  rateLimit : option Z
}.

Record Character : Type := {
  charId : string;
  charName : string;
  apiConfig : option ApiConfig;
  thinkingEnabled : bool;
  searchEnabled : bool
}.

(** [error.message] in a template string. *)
Definition errorMessage (error : Value) : string :=
  match message error with Some m => m | None => "undefined" end.

(** The callback the chat view passes as [onChunk]: it appends the
    chunk to the visible turn. *)
Definition deliver (chunk : string) : M World unit :=
  modify (fun w => setDelivered (delivered w ++ [chunk]) w).

Section Streaming.

(** [JSON.parse(data)] followed by
    [json.choices?.[0]?.delta?.content || json.choices?.[0]?.text]:
    the content (empty when absent), or the error [JSON.parse] throws. *)
Variable deltaOf : string -> string + Value.

Definition newline : ascii := ascii_of_nat 10.

(** The [for (const line of lines)] loop; [true] when [[DONE]] was
    seen, on which the function returns. *)
Fixpoint processLines (onChunk : string -> M World unit) (lines : list string)
  : M World bool :=
  match lines with
  | [] => ret false
  | line :: rest =>
      let trimmed := trim line in
      if startsWith trimmed "data: " then
        let data := slice trimmed 6 (Z.of_nat (String.length trimmed)) in
        if String.eqb data "[DONE]" then ret true
        else
          tryCatch
            (content <- lift (match deltaOf data with
                              | inl c => Normal c
                              | inr e => Throw e
                              end) ;;
             if nonEmpty content then onChunk content else ret tt)
            (fun _ => ret tt) ;;
          processLines onChunk rest
      else processLines onChunk rest
  end.

(** The [while (true)] loop over [reader.read()]. *)
Fixpoint readLoop (onChunk : string -> M World unit)
         (reads : list (string + Value)) (buffer : string) : M World unit :=
  match reads with
  | [] => ret tt
  | inr e :: _ => throw e
  | inl value :: reads' =>
      let buffer := (buffer ++ value)%string in
      let lines := split newline buffer in
      let buffer := List.last lines "" in
      let lines := removelast lines in
      finished <- processLines onChunk lines ;;
      if (finished : bool) then ret tt else readLoop onChunk reads' buffer
  end.

Definition openAIMessages (systemInstruction : string) (history : list Message)
  : list (string * string) :=
  ("system", systemInstruction)
    :: map (fun m => (if String.eqb (role m) "model" then "assistant" else role m,
                      content m)) history.

(** The [try] block of [streamOpenAIChatResponse]. *)
Definition openAIBody (config : ApiConfig)
           (systemInstruction : string) (history : list Message)
           (onChunk : string -> M World unit) : M World unit :=
  let messages := openAIMessages systemInstruction history in
  response <- fetchWithRetry
                {| reqUrl := apiEndpoint config;
                   reqAuthorization :=
                     ("Bearer " ++ orDefault (apiKey config) "ollama")%string;
                   reqModel := orDefault (model config) "llama3";
                   reqMessages := messages;
                   reqStream := true |}
                defaultMaxRetries defaultInitialDelay ;;
  if negb (respOk response) then
    throw (newError ("OpenAI API Error: " ++ showZ (respStatus response)
                     ++ " - " ++ respText response)%string)
  else
    match respBody response with
    | None => throw (newError "Response body is null")
    | Some reads => readLoop onChunk reads ""
    end.

(** The text the [catch] block of [streamOpenAIChatResponse] delivers. *)
Definition openAIErrorChunk (error : Value) : string :=
  ("[Error: " ++ (if isError error then errorMessage error else toStr error)
   ++ "]")%string.

Definition streamOpenAIChatResponse (config : ApiConfig)
           (systemInstruction : string) (history : list Message)
           (onChunk : string -> M World unit) : M World unit :=
  tryCatch
    (openAIBody config systemInstruction history onChunk)
    (fun error =>
       logger LogError "Error streaming OpenAI response:" ;;
       onChunk (openAIErrorChunk error)).

(** [getAiClient(apiKey)]: the key of the client to use ([None] for the
    default client). *)
Definition getAiClient (key : option string) : M World (option string) :=
  match key with
  | Some k =>
      if nonEmpty k then
        logger LogDebug "Creating a new Gemini client with a custom API key." ;;
        ret (Some k)
      else
        (hasDefault <- gets hasDefaultAi ;;
         if (hasDefault : bool) then ret None
         else throw (newError "Default Gemini API key not configured. Please set a custom API key for the character or plugin."))
  | None =>
      hasDefault <- gets hasDefaultAi ;;
      if (hasDefault : bool) then ret None
      else throw (newError "Default Gemini API key not configured. Please set a custom API key for the character or plugin.")
  end.

(** [ai.models.generateContentStream(request)]: the stream is the list
    of the texts of its chunks, or the error the iteration throws. *)
Definition generateContentStream (req : StreamRequest)
  : M World (list (string + Value)) :=
  fun w =>
    ((match streamScript w (List.length (streamed w)) with
      | inl items => Normal items
      | inr e => Throw e
      end),
     setStreamed (streamed w ++ [req]) w).

(** [for await (const chunk of responseStream)] *)
Fixpoint consumeStream (onChunk : string -> M World unit)
         (items : list (string + Value)) : M World unit :=
  match items with
  | [] => ret tt
  | inr e :: _ => throw e
  | inl text :: rest =>
      (if nonEmpty text then onChunk text else ret tt) ;;
      consumeStream onChunk rest
  end.

(** The [try] block of [streamGeminiChatResponse]. *)
Definition geminiBody (character : Character)
           (systemInstruction : string) (history : list Message)
           (onChunk : string -> M World unit) : M World unit :=
  let customApiKey :=
    match apiConfig character with
    | Some c => if String.eqb (service c) "gemini" then apiKey c else None
    | None => None
    end in
  ai <- getAiClient customApiKey ;;
  let contents := normalizeGeminiHistory history in
  if Nat.eqb (List.length contents) 0 then
    logger LogWarn "streamGeminiChatResponse was called with an empty effective history. Aborting."
  else
    let request :=
      if thinkingEnabled character then
        {| streamKey := ai; streamModel := "gemini-3-pro-preview";
           streamContents := contents;
           streamSystemInstruction := systemInstruction;
           streamThinkingBudget := Some 32768; streamGoogleSearch := false |}
      else
        {| streamKey := ai; streamModel := "gemini-2.5-flash";
           streamContents := contents;
           streamSystemInstruction := systemInstruction;
           streamThinkingBudget := None;
           streamGoogleSearch := searchEnabled character |} in
    logger LogInfo ("Calling Gemini with model: " ++ streamModel request)%string ;;
    responseStream <- withRetry (generateContentStream request)
                        defaultMaxRetries defaultInitialDelay ;;
    consumeStream onChunk responseStream.

(** The text the [catch] block of [streamGeminiChatResponse] delivers. *)
Definition geminiErrorChunk (error : Value) : string :=
  let msg :=
    if isError error then errorMessage error
    else "An unknown error occurred." in
  ("Sorry, an error occurred with the Gemini API: " ++ msg)%string.

Definition streamGeminiChatResponse (character : Character)
           (systemInstruction : string) (history : list Message)
           (onChunk : string -> M World unit) : M World unit :=
  tryCatch
    (geminiBody character systemInstruction history onChunk)
    (fun error =>
       logger LogError "Error generating Gemini content stream:" ;;
       onChunk (geminiErrorChunk error)).

(** Spec-side: a bracketed [[Error: ...]]-style marker. *)
Definition isErrorMarker (chunk : string) : bool :=
  startsWith chunk "[Error: "
  && String.eqb (slice chunk (-1) (Z.of_nat (String.length chunk))) "]".

End Streaming.

(** No two neighbouring turns have the same role. *)
Fixpoint alternating (turns : list Turn) : Prop :=
  match turns with
  | a :: (b :: _) as tl => turnRole a <> turnRole b /\ alternating tl
  | _ => True
  end.

(** The key [streamGeminiChatResponse] hands to [getAiClient]: the
    character's own key, when its service is [gemini]. *)
Definition customApiKey (character : Character) : option string :=
  match apiConfig character with
  | Some c => if String.eqb (service c) "gemini" then apiKey c else None
  | None => None
  end.

(** The request [streamGeminiChatResponse] sends with client key [ai]. *)
Definition geminiRequest (character : Character) (systemInstruction : string)
           (history : list Message) (ai : option string) : StreamRequest :=
  if thinkingEnabled character then
    {| streamKey := ai; streamModel := "gemini-3-pro-preview";
       streamContents := normalizeGeminiHistory history;
       streamSystemInstruction := systemInstruction;
       streamThinkingBudget := Some 32768; streamGoogleSearch := false |}
  else
    {| streamKey := ai; streamModel := "gemini-2.5-flash";
       streamContents := normalizeGeminiHistory history;
       streamSystemInstruction := systemInstruction;
       streamThinkingBudget := None;
       streamGoogleSearch := searchEnabled character |}.

(** The client [getAiClient] returns when there is one: the custom key if
    it is not empty, else the default client. *)
Definition clientFor (key : option string) : option string :=
  match key with
  | Some k => if nonEmpty k then Some k else None
  | None => None
  end.

(** The [try] block of [streamGenericResponse]. *)
Definition genericBody (systemInstruction prompt : string)
           (onChunk : string -> M World unit) (key : option string) : M World unit :=
  ai <- getAiClient key ;;
  responseStream <-
    withRetry
      (generateContentStream
         {| streamKey := ai; streamModel := "gemini-2.5-flash";
            streamContents := [{| turnRole := "user"; parts := [TextPart prompt] |}];
            streamSystemInstruction := systemInstruction;
            streamThinkingBudget := None; streamGoogleSearch := false |})
      defaultMaxRetries defaultInitialDelay ;;
  consumeStream onChunk responseStream.

Definition streamGenericResponse (systemInstruction prompt : string)
           (onChunk : string -> M World unit) (key : option string) : M World unit :=
  tryCatch
    (genericBody systemInstruction prompt onChunk key)
    (fun error =>
       logger LogError "Error generating generic content stream:" ;;
       onChunk "Sorry, an error occurred while responding.").

(** The settings [buildImagePrompt] reads. *)
Record ImageSettings : Type := {
  style : option string;
  customStylePrompt : option string;
  negativePrompt : option string
}.

(** Truthiness of an optional string. *)
Definition present (o : option string) : bool :=
  match o with Some s => nonEmpty s | None => false end.

Definition buildImagePrompt (prompt : string) (settings : ImageSettings) : string :=
  let stylePrompt :=
    if present (style settings)
       && negb (String.eqb (orDefault (style settings) "") "Default (None)")
    then
      if String.eqb (orDefault (style settings) "") "Custom"
         && present (customStylePrompt settings)
      then (orDefault (customStylePrompt settings) "" ++ ", ")%string
      else if negb (String.eqb (orDefault (style settings) "") "Custom")
      then (orDefault (style settings) "" ++ " style, ")%string
      else ""
    else "" in
  let negative :=
    if present (negativePrompt settings)
    then (". Negative prompt: " ++ orDefault (negativePrompt settings) "")%string
    else "" in
  (stylePrompt ++ prompt ++ negative)%string.

(** A world for examples: no default key, a network that is down, and
    [Math.random] always returning one half. *)
Definition sampleWorld : World :=
  {| randoms := fun _ => (1 # 2)%Q; randomsDrawn := 0; slept := []; logs := [];
     opCalls := 0;
     fetchScript := fun _ => inr (newError "Failed to fetch"); fetched := [];
     hasDefaultAi := false;
     streamScript := fun _ => inr (newError "503 UNAVAILABLE"); streamed := [];
     delivered := [] |}.

(** The same with a default Gemini client configured; the Gemini
    endpoint answers every call with an error. *)
Definition sampleWorldWithKey : World :=
  {| randoms := fun _ => (1 # 2)%Q; randomsDrawn := 0; slept := []; logs := [];
     opCalls := 0;
     fetchScript := fun _ => inr (newError "Failed to fetch"); fetched := [];
     hasDefaultAi := true;
     streamScript := fun _ => inr (newError "503 UNAVAILABLE"); streamed := [];
     delivered := [] |}.

Definition sampleApiConfig : ApiConfig :=
  {| service := "openai"; apiKey := None;
     apiEndpoint := Some "http://localhost:11434/v1/chat/completions";
     model := None; rateLimit := None |}.



Definition sampleCharacter : Character :=
  {| charId := "c1"; charName := "Ada"; apiConfig := None;
     thinkingEnabled := false; searchEnabled := false |}.

Definition userMessage (text : string) : Message :=
  {| role := "user"; content := text; attachment := None |}.

Definition narratorMessage (text : string) : Message :=
  {| role := "narrator"; content := text; attachment := None |}.

(** The operation [fetchWithRetry] hands to [withRetry]: one [fetch], a
    429 response becoming an error. *)
Definition fetchOnce (req : FetchRequest) : M World Response :=
  response <- fetch req ;;
  if respStatus response =? 429 then throw (newError "429 Too Many Requests")
  else ret response.

(** An operation that fails [k] times with [e] and then returns [v]. *)
Definition failsThenSucceeds {T} (k : nat) (e : Value) (v : T) : nat -> T + Value :=
  fun n => if (n <? k)%nat then inr e else inl v.

(** A response with a status, a text and a body read in one piece. *)
Definition response (st : Z) (text : string) : Response :=
  {| respStatus := st; respText := text; respBody := Some [inl text] |}.

(** The sample world with a network that answers [fetch] by [script]. *)
Definition worldWithFetch (script : nat -> Response + Value) : World :=
  {| randoms := fun _ => (1 # 2)%Q; randomsDrawn := 0; slept := []; logs := [];
     opCalls := 0;
     fetchScript := script; fetched := [];
     hasDefaultAi := false;
     streamScript := fun _ => inr (newError "503 UNAVAILABLE"); streamed := [];
     delivered := [] |}.

(** The sample world with a default client and a Gemini endpoint that
    answers by [script]. *)
Definition worldWithStream (script : nat -> list (string + Value) + Value) : World :=
  {| randoms := fun _ => (1 # 2)%Q; randomsDrawn := 0; slept := []; logs := [];
     opCalls := 0;
     fetchScript := fun _ => inr (newError "Failed to fetch"); fetched := [];
     hasDefaultAi := true;
     streamScript := script; streamed := [];
     delivered := [] |}.

Definition sampleRequest : FetchRequest :=
  {| reqUrl := Some "http://localhost:11434/v1/chat/completions";
     reqAuthorization := "Bearer ollama"; reqModel := "llama3";
     reqMessages := [("system", "You are Ada."); ("user", "hi")];
     reqStream := true |}.

End Gemini.

(* ================================================================== *)
(** ** geminiService.ts: the orchestrator [streamChatResponse] *)

Module Orchestrator.
Import Gemini.

(** The fields of a [Character] that [buildSystemInstruction] reads,
    besides its id, its name and [searchEnabled]. *)
Record Persona : Type := {
  description : option string;
  physicalAppearance : option string;
  personalityTraits : option string;
  personality : option string;
  memory : option string;
  lore : option (list string)
}.

(** A line feed, as a string. *)
Definition nl : string := String (ascii_of_nat 10) EmptyString.

(** [instruction += text] when [field] is truthy. *)
Definition addIf (field : option string) (text : string -> string)
           (instruction : string) : string :=
  if present field then (instruction ++ text (orDefault field ""))%string
  else instruction.

(** [l.trim() !== ''] *)
Definition notBlank (l : string) : bool := nonEmpty (trim l).

Definition buildSystemInstruction (character : Character) (persona : Persona)
           (allParticipants : list Character) : string :=
  let instruction :=
    ("You are an AI character named " ++ charName character ++ "." ++ nl ++ nl)%string in
  let instruction :=
    if (1 <? List.length allParticipants)%nat then
      let otherParticipantNames :=
        String.concat ", "
          (map charName
               (filter (fun p => negb (String.eqb (charId p) (charId character)))
                       allParticipants)) in
      (instruction ++ "You are in a group conversation with: " ++ otherParticipantNames
       ++ ". Interact with them naturally based on your persona." ++ nl ++ nl)%string
    else instruction in
  let instruction := (instruction ++ "== CORE IDENTITY ==" ++ nl)%string in
  let instruction :=
    addIf (description persona)
          (fun d => ("Description: " ++ d ++ nl)%string) instruction in
  let instruction :=
    addIf (physicalAppearance persona)
          (fun d => ("Physical Appearance: " ++ d ++ nl)%string) instruction in
  let instruction :=
    addIf (personalityTraits persona)
          (fun d => ("Personality Traits: " ++ d ++ nl)%string) instruction in
  let instruction := (instruction ++ nl)%string in
  let instruction :=
    addIf (personality persona)
          (fun d => ("== ROLE INSTRUCTION ==" ++ nl ++ d ++ nl ++ nl)%string)
          instruction in
  let instruction :=
    addIf (memory persona)
          (fun d => ("== MEMORY (Recent Events) ==" ++ nl ++ d ++ nl ++ nl)%string)
          instruction in
  let instruction :=
    match lore persona with
    | Some facts =>
        if (0 <? List.length facts)%nat && existsb notBlank facts then
          (instruction ++ "== LORE (Key Facts) ==" ++ nl
           ++ String.concat nl (map (fun fact => ("- " ++ fact)%string)
                                    (filter notBlank facts))
           ++ nl ++ nl)%string
        else instruction
    | None => instruction
    end in
  let instruction := (instruction ++ "== TOOLS ==" ++ nl)%string in
  let instruction :=
    if searchEnabled character then
      (instruction ++ "You have access to Google Search to find real-time information. Use it when the user asks about current events or factual topics." ++ nl)%string
    else instruction in
  let instruction :=
    (instruction ++ "You can see images and hear audio if provided. Analyze them as your character would." ++ nl)%string in
  let instruction :=
    (instruction ++ "You have the ability to generate images. To do so, include a special command in your response: [generate_image: A detailed description of the image you want to create]." ++ nl ++ nl)%string in
  (instruction ++ "Engage in conversation based on this complete persona. Do not break character. Respond to the user's last message.")%string.

(** The world of the orchestrator: the world of the service module, the
    clock ([Date.now()] answers its n-th reading by [clock n]) and the
    module-level map [lastRequestTimestamps]. *)
Record World : Type := {
  net : Gemini.World;
  clock : nat -> Z;
  clockReads : nat;
  lastRequestTimestamps : string -> option Z
}.

(** A computation of the service module, run by the orchestrator. *)
Definition liftNet {A} (m : M Gemini.World A) : M World A :=
  fun ow =>
    let (r, n) := m (net ow) in
    (r, {| net := n; clock := clock ow; clockReads := clockReads ow;
           lastRequestTimestamps := lastRequestTimestamps ow |}).

(** [Date.now()] *)
Definition dateNow : M World Z :=
  fun ow =>
    (Normal (clock ow (clockReads ow)),
     {| net := net ow; clock := clock ow; clockReads := S (clockReads ow);
        lastRequestTimestamps := lastRequestTimestamps ow |}).

(** [lastRequestTimestamps.get(key) || 0] *)
Definition lastRequestTime (key : string) : M World Z :=
  gets (fun ow => match lastRequestTimestamps ow key with
                  | Some t => t
                  | None => 0
                  end).

(** [lastRequestTimestamps.set(key, t)] *)
Definition setLastRequestTime (key : string) (t : Z) : M World unit :=
  modify (fun ow =>
    {| net := net ow; clock := clock ow; clockReads := clockReads ow;
       lastRequestTimestamps :=
         fun k => if String.eqb k key then Some t else lastRequestTimestamps ow k |}).

(** [character.apiConfig || { service: 'default' }] *)
Definition configOf (character : Character) : ApiConfig :=
  match apiConfig character with
  | Some c => c
  | None => {| service := "default"; apiKey := None; apiEndpoint := None;
               model := None; rateLimit := None |}
  end.

(** The rate-limiting block of [streamChatResponse]. *)
Definition rateLimitBlock (character : Character) (config : ApiConfig)
  : M World unit :=
  match rateLimit config with
  | Some limit =>
      if 0 <? limit then
        let characterId := charId character in
        lastRequest <- lastRequestTime characterId ;;
        now <- dateNow ;;
        let elapsed := now - lastRequest in
        (if elapsed <? limit then
           let delay := limit - elapsed in
           liftNet (logger LogInfo
                      ("Rate limiting character " ++ dquote ++ charName character
                       ++ dquote ++ ". Delaying for " ++ showZ delay ++ "ms.")%string) ;;
           liftNet (sleep (inject_Z delay))
         else ret tt) ;;
        now' <- dateNow ;;
        setLastRequestTime characterId now'
      else ret tt
  | None => ret tt
  end.

(** The system instruction with the override for this response, when
    there is one. *)
Definition withOverride (systemInstruction : string)
           (systemInstructionOverride : option string) : M World string :=
  if present systemInstructionOverride then
    liftNet (logger LogInfo "Applying system instruction override for next response.") ;;
    ret (systemInstruction ++ nl ++ nl
         ++ "[ADDITIONAL INSTRUCTIONS FOR THIS RESPONSE ONLY]:" ++ nl
         ++ orDefault systemInstructionOverride "")%string
  else ret systemInstruction.

(** What a computation of the service module leaves alone: it only adds
    to the sleeps. *)
Definition keepsSleeps {A} (m : M Gemini.World A) : Prop :=
  forall w, exists later, slept (snd (m w)) = slept w ++ later.

Section Dispatch.

Variable deltaOf : string -> string + Value.

(** The choice of the backend at the end of [streamChatResponse]. *)
Definition dispatchChat (character : Character) (config : ApiConfig)
           (systemInstruction : string) (history : list Message)
           (onChunk : string -> M Gemini.World unit) : M World unit :=
  if String.eqb (service config) "openai" then
    liftNet (logger LogInfo
               ("Using OpenAI-compatible API for character: " ++ charName character)%string) ;;
    if negb (present (apiEndpoint config)) then
      liftNet (onChunk "Error: OpenAI-compatible API endpoint is not configured for this character.")
    else
      liftNet (streamOpenAIChatResponse deltaOf config systemInstruction history onChunk)
  else
    liftNet (streamGeminiChatResponse character systemInstruction history onChunk).

Definition streamChatResponse (character : Character) (persona : Persona)
           (allParticipants : list Character) (history : list Message)
           (onChunk : string -> M Gemini.World unit)
           (systemInstructionOverride : option string) : M World unit :=
  let config := configOf character in
  rateLimitBlock character config ;;
  systemInstruction <-
    withOverride (buildSystemInstruction character persona allParticipants)
                 systemInstructionOverride ;;
  dispatchChat character config systemInstruction history onChunk.

End Dispatch.

(** A clock that starts at [t0] and advances [step] ms per reading. *)
Definition steadyClock (t0 step : Z) : nat -> Z := fun n => t0 + step * Z.of_nat n.

(** A world for examples: the sample network, a steady clock and an
    empty timestamp map. *)
Definition sampleWorld : World :=
  {| net := Gemini.sampleWorld; clock := steadyClock 1000000 1000; clockReads := 0;
     lastRequestTimestamps := fun _ => None |}.

Definition emptyPersona : Persona :=
  {| description := None; physicalAppearance := None; personalityTraits := None;
     personality := None; memory := None; lore := None |}.

(** A character with a rate limit of [limit] ms on the OpenAI-compatible
    service, with or without an endpoint. *)
Definition limitedCharacter (limit : Z) (endpoint : option string) : Character :=
  {| charId := "c1"; charName := "Ada";
     apiConfig := Some {| service := "openai"; apiKey := None;
                          apiEndpoint := endpoint; model := None;
                          rateLimit := Some limit |};
     thinkingEnabled := false; searchEnabled := false |}.

End Orchestrator.

(* ================================================================== *)
(** ** The speech queue ([speak] in ttsService.ts) *)

Module Tts.

(** An entry of [audioQueue]. *)
Record QueueItem : Type := {
  text : string;
  voiceId : string
}.

(** The line terminators a [string] can hold; [.] matches any other
    character. *)
Definition isLineTerminator (c : ascii) : bool :=
  (nat_of_ascii c =? 10)%nat || (nat_of_ascii c =? 13)%nat.

Definition isOpen (c : ascii) : bool := (nat_of_ascii c =? 91)%nat.
Definition isClose (c : ascii) : bool := (nat_of_ascii c =? 93)%nat.
Definition isStar (c : ascii) : bool := (nat_of_ascii c =? 42)%nat.

(** The lazy [.*?\]] after an opening bracket: what follows the nearest
    closing bracket, when no line terminator comes before it. *)
Fixpoint closeTag (s : string) : option string :=
  match s with
  | EmptyString => None
  | String c s' =>
      if isClose c then Some s'
      else if isLineTerminator c then None
      else closeTag s'
  end.

(** [s.replace(/\[.*?\]/g, '')]: the scan from left to right; a match is
    dropped and the scan goes on after it, any other character is kept.
    One unit of fuel per step. *)
Fixpoint replaceTags (fuel : nat) (s : string) : string :=
  match fuel with
  | O => s
  | S fuel' =>
      match s with
      | EmptyString => EmptyString
      | String c s' =>
          if isOpen c then
            match closeTag s' with
            | Some rest => replaceTags fuel' rest
            | None => String c (replaceTags fuel' s')
            end
          else String c (replaceTags fuel' s')
      end
  end.

(** The scan takes at most one step per character. *)
Definition stripTags (s : string) : string := replaceTags (String.length s) s.

(** [s.replace(/\*/g, '')] *)
Fixpoint removeStars (s : string) : string :=
  match s with
  | EmptyString => EmptyString
  | String c s' => if isStar c then removeStars s' else String c (removeStars s')
  end.

(** [cleanText] in [speak]. *)
Definition cleanText (t : string) : string := trim (removeStars (stripTags t)).

(** [speak(text, voiceURI)] up to its [audioQueue.push]: the item it
    pushes, or [None] when it returns before.  The playback that
    [processQueue] then starts is outside the embedding. *)
Definition speak (input : option string) (voiceURI : option string)
  : option QueueItem :=
  match input with
  | None => None
  | Some t =>
      if negb (nonEmpty (trim t)) then None
      else
        let clean := cleanText t in
        if negb (nonEmpty clean) then None
        else Some {| text := clean; voiceId := Gemini.orDefault voiceURI "Puck" |}
  end.

(** Every character of [s] satisfies [p]. *)
Fixpoint allChars (p : ascii -> bool) (s : string) : bool :=
  match s with
  | EmptyString => true
  | String c s' => p c && allChars p s'
  end.

(** No opening bracket of [s] is closed on its line: the pattern
    [\[.*?\]] matches nowhere in [s]. *)
Fixpoint tagFree (s : string) : bool :=
  match s with
  | EmptyString => true
  | String c s' =>
      (if isOpen c then match closeTag s' with Some _ => false | None => true end
       else true) && tagFree s'
  end.

(** A string that is empty or starts with a character that is no white
    space. *)
Definition headed (s : string) : bool :=
  match s with EmptyString => true | String c _ => negb (isSpace c) end.

End Tts.

(* ================================================================== *)
(** * Properties *)

(** ** The chunker *)

Module ChunkerFacts.
Import Chunker.

Lemma chunkLoop_unfold fuel text chunkSize overlap i chunks :
  chunkLoop fuel text chunkSize overlap i chunks =
  let len := Z.of_nat (String.length text) in
  if i <? len then
    match fuel with
    | O => Diverge
    | S fuel' =>
        chunkLoop fuel' text chunkSize overlap
          (if i + (chunkSize - overlap) + overlap >=? len then len
           else i + (chunkSize - overlap))
          (chunks ++ [slice text i (Z.min (i + chunkSize) len)])
    end
  else Normal chunks.
Proof. destruct fuel; reflexivity. Qed.

Lemma spanLoop_unfold fuel len chunkSize overlap i :
  spanLoop fuel len chunkSize overlap i =
  if i <? len then
    match fuel with
    | O => None
    | S fuel' =>
        option_map (cons (i, Z.min (i + chunkSize) len))
          (spanLoop fuel' len chunkSize overlap
             (if i + (chunkSize - overlap) + overlap >=? len then len
              else i + (chunkSize - overlap)))
    end
  else Some [].
Proof. destruct fuel; reflexivity. Qed.

(** The chunks are the slices of the text at the recorded boundaries. *)
Lemma chunkLoop_spans fuel : forall text chunkSize overlap i chunks,
  chunkLoop fuel text chunkSize overlap i chunks =
  match spanLoop fuel (Z.of_nat (String.length text)) chunkSize overlap i with
  | Some spans => Normal (chunks ++ map (sliceSpan text) spans)
  | None => Diverge
  end.
Proof.
  induction fuel as [|fuel IH]; intros text chunkSize overlap i chunks;
    rewrite chunkLoop_unfold, spanLoop_unfold; cbv zeta;
    destruct (i <? Z.of_nat (String.length text)) eqn:Hi;
    try reflexivity; try (now rewrite app_nil_r).
  rewrite IH.
  destruct (spanLoop fuel _ chunkSize overlap _) as [spans|]; simpl; trivial.
  now rewrite <- app_assoc.
Qed.

Lemma chunkText_spans fuel text chunkSize overlap :
  chunkText fuel text chunkSize overlap =
  match chunkSpans fuel (Z.of_nat (String.length text)) chunkSize overlap with
  | Some spans => Normal (map (sliceSpan text) spans)
  | None => Diverge
  end.
Proof. unfold chunkText, chunkSpans. now rewrite chunkLoop_spans. Qed.

(** With [0 <= overlap < chunkSize] the boundaries tile the text. *)
Lemma spanLoop_tiles len chunkSize overlap :
  0 <= overlap < chunkSize ->
  forall fuel i from reach,
    (len <= i /\ reach = len) \/
    (0 <= i < len /\ from <= i <= reach /\ reach < len /\ reach < i + chunkSize) ->
    (Z.to_nat (len - i) <= fuel)%nat ->
    exists spans,
      spanLoop fuel len chunkSize overlap i = Some spans /\
      tiles len from reach spans.
Proof.
  intros Hov; induction fuel as [|fuel IH]; intros i from reach Hinv Hfuel;
    rewrite spanLoop_unfold.
  - destruct Hinv as [[Hi Hr]|[Hi _]]; [|lia].
    destruct (Z.ltb_spec i len); [lia|]. exists []; simpl; auto.
  - destruct Hinv as [[Hi Hr]|(Hi & Hfrom & Hr & Hr')].
    + destruct (Z.ltb_spec i len); [lia|]. exists []; simpl; auto.
    + destruct (Z.ltb_spec i len); [|lia].
      destruct (Z.geb_spec (i + (chunkSize - overlap) + overlap) len) as [Hge|Hlt].
      * destruct (IH len (i + 1) len) as (spans & Hs & Ht); [left; lia | lia |].
        rewrite Hs. exists ((i, Z.min (i + chunkSize) len) :: spans).
        split; [reflexivity|]. simpl.
        replace (Z.min (i + chunkSize) len) with len by lia.
        repeat split; try lia; assumption.
      * destruct (IH (i + (chunkSize - overlap)) (i + 1) (i + chunkSize))
          as (spans & Hs & Ht); [right; lia | lia |].
        rewrite Hs. exists ((i, Z.min (i + chunkSize) len) :: spans).
        split; [reflexivity|]. simpl.
        replace (Z.min (i + chunkSize) len) with (i + chunkSize) by lia.
        repeat split; try lia; assumption.
Qed.

(** Tiling boundaries cover every position from [reach] on. *)
Lemma tiles_cover len : forall spans from reach,
  tiles len from reach spans ->
  forall p, reach <= p < len ->
    exists k s e, nth_error spans k = Some (s, e) /\ 0 <= s <= p /\ p < e <= len.
Proof.
  induction spans as [|[s e] rest IH]; simpl; intros from reach Ht p Hp.
  - lia.
  - destruct Ht as (Hs & Hse & He & Hrest).
    destruct (Z_lt_dec p e) as [Hlt|Hge].
    + exists 0%nat, s, e. simpl. repeat split; lia.
    + destruct (IH _ _ Hrest p) as (k & s' & e' & Hk & Hs' & He'); [lia|].
      exists (S k), s', e'. simpl. auto.
Qed.

(** A character of a slice is the character of the text at that place. *)
Lemma slice_get text s e p :
  0 <= s <= Z.of_nat p -> Z.of_nat p < e <= Z.of_nat (String.length text) ->
  String.get (p - Z.to_nat s) (slice text s e) = String.get p text.
Proof.
  intros Hs He. unfold slice, clampIndex.
  destruct (Z.ltb_spec s 0); [lia|]. destruct (Z.ltb_spec e 0); [lia|].
  rewrite substring_correct1 by lia.
  f_equal. lia.
Qed.

(** C1: for every text and integer parameters with
    [0 < overlap < chunkSize], [chunkText] returns (fuel equal to the
    length of the text is enough), its chunks are the slices of the text
    at boundaries that start at 0, are in document order (strictly
    increasing starts and ends), leave no gap (each chunk starts no later
    than where the one before ended) and end at the end of the text; and
    every character position of the text lies in a chunk, which holds
    the text's character at that place. *)
Theorem chunkText_covers_text (text : string) (chunkSize overlap : Z) (fuel : nat) :
  0 < overlap < chunkSize ->
  (String.length text <= fuel)%nat ->
  exists spans chunks,
    chunkText fuel text chunkSize overlap = Normal chunks /\
    chunks = map (sliceSpan text) spans /\
    tiles (Z.of_nat (String.length text)) 0 0 spans /\
    forall p, (p < String.length text)%nat ->
      exists k s e chunk,
        nth_error spans k = Some (s, e) /\
        nth_error chunks k = Some chunk /\
        s <= Z.of_nat p < e /\
        String.get (p - Z.to_nat s) chunk = String.get p text.
Proof.
  intros Hov Hfuel.
  set (len := Z.of_nat (String.length text)).
  destruct (spanLoop_tiles len chunkSize overlap ltac:(lia) fuel 0 0 0)
    as (spans & Hspans & Htiles).
  { destruct (Z_le_gt_dec len 0); [left | right]; lia. }
  { lia. }
  exists spans, (map (sliceSpan text) spans).
  split; [|split; [reflexivity|split; [exact Htiles|]]].
  - rewrite chunkText_spans. unfold chunkSpans. fold len. now rewrite Hspans.
  - intros p Hp.
    destruct (tiles_cover len spans 0 0 Htiles (Z.of_nat p)) as (k & s & e & Hk & Hs & He);
      [lia|].
    exists k, s, e, (slice text s e).
    split; [exact Hk|]. split.
    + rewrite nth_error_map, Hk. reflexivity.
    + split; [lia|]. apply slice_get; assumption.
Qed.

Lemma chunkText_covers_text_witness :
  exists spans chunks,
    chunkText 10 "abcdefghij" 4 1 = Normal chunks /\
    chunks = map (sliceSpan "abcdefghij") spans /\
    tiles 10 0 0 spans /\
    forall p, (p < 10)%nat ->
      exists k s e chunk,
        nth_error spans k = Some (s, e) /\
        nth_error chunks k = Some chunk /\
        s <= Z.of_nat p < e /\
        String.get (p - Z.to_nat s) chunk = String.get p "abcdefghij".
Proof.
  apply (chunkText_covers_text "abcdefghij" 4 1 10); [lia | simpl; lia].
Defined.

Example chunkText_small :
  chunkText 10 "abcdefghij" 4 1 = Normal ["abcd"; "defg"; "ghij"].
Proof. reflexivity. Qed.

Lemma spanLoop_exit fuel len chunkSize overlap i :
  len <= i -> spanLoop fuel len chunkSize overlap i = Some [].
Proof.
  intros H. rewrite spanLoop_unfold. destruct (Z.ltb_spec i len); [lia|reflexivity].
Qed.

Lemma chunkSpans_2500 (fuel : nat) :
  chunkSpans fuel 2500 1000 200 =
  if (3 <=? fuel)%nat then Some [(0, 1000); (800, 1800); (1600, 2500)] else None.
Proof.
  unfold chunkSpans.
  destruct fuel as [|[|[|fuel]]]; try reflexivity.
  rewrite spanLoop_unfold; simpl.
  rewrite spanLoop_exit by lia. reflexivity.
Qed.

(** C2, as the code has it: a 2500-character document chunked with
    [chunkSize = 1000] and [overlap = 200] yields exactly three chunks,
    [text[0:1000]], [text[800:1800]] and [text[1600:2500]]: after the third
    chunk the cursor is at 2400, and 2400 + 200 >= 2500 ends the loop. *)
Theorem chunkText_2500_three_chunks (text : string) (fuel : nat) :
  String.length text = 2500%nat ->
  (3 <= fuel)%nat ->
  chunkText fuel text 1000 200 =
    Normal [slice text 0 1000; slice text 800 1800; slice text 1600 2500].
Proof.
  intros Hlen Hfuel.
  rewrite chunkText_spans, Hlen.
  change (Z.of_nat 2500) with 2500. rewrite chunkSpans_2500.
  destruct (Nat.leb_spec 3 fuel); [reflexivity | lia].
Qed.

Lemma chunkText_2500_three_chunks_witness :
  chunkText 3 (document 2500) 1000 200 =
    Normal [slice (document 2500) 0 1000; slice (document 2500) 800 1800;
            slice (document 2500) 1600 2500].
Proof.
  apply (chunkText_2500_three_chunks (document 2500) 3); [vm_compute; reflexivity | lia].
Defined.

(** C2 as stated fails: chunking the 2500-character document with
    [chunkSize = 1000] and [overlap = 200] never yields four chunks. *)
Lemma chunkText_2500_not_four :
  String.length (document 2500) = 2500%nat /\
  (exists chunks, chunkText 2500 (document 2500) 1000 200 = Normal chunks) /\
  forall fuel chunks,
    chunkText fuel (document 2500) 1000 200 = Normal chunks ->
    List.length chunks <> 4%nat.
Proof.
  assert (Hlen : String.length (document 2500) = 2500%nat) by (vm_compute; reflexivity).
  split; [exact Hlen|]. split.
  - eexists. rewrite chunkText_spans, Hlen.
    change (Z.of_nat 2500) with 2500. rewrite chunkSpans_2500. reflexivity.
  - intros fuel chunks. rewrite chunkText_spans, Hlen.
    change (Z.of_nat 2500) with 2500. rewrite chunkSpans_2500.
    destruct (3 <=? fuel)%nat; [|discriminate].
    intros [= <-]. simpl. lia.
Qed.

Lemma chunkLoop_exit fuel text chunkSize overlap i chunks :
  Z.of_nat (String.length text) <= i ->
  chunkLoop fuel text chunkSize overlap i chunks = Normal chunks.
Proof.
  intros H. rewrite chunkLoop_unfold. cbv zeta.
  destruct (Z.ltb_spec i (Z.of_nat (String.length text))); [lia|reflexivity].
Qed.

(** The loop has no [throw]. *)
Lemma chunkLoop_never_throws fuel : forall text chunkSize overlap i chunks e,
  chunkLoop fuel text chunkSize overlap i chunks <> Throw e.
Proof.
  induction fuel as [|fuel IH]; intros text chunkSize overlap i chunks e;
    rewrite chunkLoop_unfold; cbv zeta;
    destruct (i <? Z.of_nat (String.length text)); try discriminate.
  apply IH.
Qed.

(** When the cursor advances ([overlap < chunkSize]) the loop ends. *)
Lemma chunkLoop_advancing text chunkSize overlap :
  overlap < chunkSize ->
  forall fuel i chunks,
    (Z.to_nat (Z.of_nat (String.length text) - i) <= fuel)%nat ->
    exists out, chunkLoop fuel text chunkSize overlap i chunks = Normal out.
Proof.
  intros Hov; induction fuel as [|fuel IH]; intros i chunks Hfuel;
    rewrite chunkLoop_unfold; cbv zeta;
    destruct (Z.ltb_spec i (Z.of_nat (String.length text))); eauto; try lia.
  apply IH.
  destruct (Z.geb_spec (i + (chunkSize - overlap) + overlap)
              (Z.of_nat (String.length text))); lia.
Qed.

(** When the cursor cannot advance and the first window does not reach
    the end of the text, the loop never ends. *)
Lemma chunkLoop_stuck text chunkSize overlap :
  chunkSize <= overlap ->
  chunkSize < Z.of_nat (String.length text) ->
  0 < Z.of_nat (String.length text) ->
  forall fuel i chunks,
    i <= 0 -> chunkLoop fuel text chunkSize overlap i chunks = Diverge.
Proof.
  intros Hov Hcs Hlen; induction fuel as [|fuel IH]; intros i chunks Hi;
    rewrite chunkLoop_unfold; cbv zeta;
    destruct (Z.ltb_spec i (Z.of_nat (String.length text))); try lia; trivial.
  destruct (Z.geb_spec (i + (chunkSize - overlap) + overlap)
              (Z.of_nat (String.length text))); [lia|].
  apply IH. lia.
Qed.

(** C3, as the code has it: [chunkText] does not validate its
    parameters.  For integer parameters that violate
    [chunkSize > overlap >= 0] it never throws; it returns chunks when
    the text is empty, or fits in one window, or [overlap < chunkSize]
    (so [overlap] is negative); and when [chunkSize <= overlap] and the
    text is longer than [chunkSize] the cursor does not advance and the
    loop does not terminate. *)
Theorem chunkText_no_validation (text : string) (chunkSize overlap : Z) :
  ~ (chunkSize > overlap /\ overlap >= 0) ->
  let len := Z.of_nat (String.length text) in
  (forall fuel e, chunkText fuel text chunkSize overlap <> Throw e) /\
  (len = 0 \/ len <= chunkSize \/ overlap < chunkSize ->
   forall fuel, (String.length text <= fuel)%nat ->
     exists chunks, chunkText fuel text chunkSize overlap = Normal chunks) /\
  (0 < len -> chunkSize < len -> chunkSize <= overlap ->
   forall fuel, chunkText fuel text chunkSize overlap = Diverge).
Proof.
  intros _ len. unfold chunkText. split; [|split].
  - intros fuel e. apply chunkLoop_never_throws.
  - intros Hcase fuel Hfuel.
    destruct (Z_lt_dec overlap chunkSize) as [Hlt|Hge].
    + apply chunkLoop_advancing; [exact Hlt | lia].
    + destruct (Z.eq_dec len 0) as [H0|Hn0].
      * exists []. apply chunkLoop_exit. fold len. lia.
      * assert (Hfit : len <= chunkSize) by lia.
        destruct fuel as [|fuel]; [unfold len in *; lia|].
        rewrite chunkLoop_unfold. cbv zeta. fold len.
        destruct (Z.ltb_spec 0 len); [|unfold len in *; lia].
        destruct (Z.geb_spec (0 + (chunkSize - overlap) + overlap) len); [|lia].
        eexists. apply chunkLoop_exit. fold len. lia.
  - intros Hlen Hcs Hov fuel. apply chunkLoop_stuck; auto. lia.
Qed.

Lemma chunkText_no_validation_witness :
  (forall fuel, chunkText fuel "abcdef" 2 2 = Diverge) /\
  (exists chunks, chunkText 3 "abc" 5 5 = Normal chunks) /\
  (exists chunks, chunkText 6 "abcdef" 2 (-1) = Normal chunks).
Proof.
  split; [|split].
  - destruct (chunkText_no_validation "abcdef" 2 2 ltac:(lia)) as (_ & _ & H).
    apply H; simpl; lia.
  - destruct (chunkText_no_validation "abc" 5 5 ltac:(lia)) as (_ & H & _).
    apply H; simpl; lia.
  - destruct (chunkText_no_validation "abcdef" 2 (-1) ltac:(lia)) as (_ & H & _).
    apply H; simpl; lia.
Defined.

Example chunkText_negative_overlap :
  chunkText 6 "abcdef" 2 (-1) = Normal ["ab"; "de"].
Proof. reflexivity. Qed.

(** With the default parameters the chunker returns for every text. *)
Lemma chunkText_default_returns (content : string) :
  exists chunks,
    chunkText (String.length content) content defaultChunkSize defaultOverlap
    = Normal chunks.
Proof.
  unfold chunkText. apply chunkLoop_advancing.
  - unfold defaultChunkSize, defaultOverlap. lia.
  - lia.
Qed.

(** C3 as stated fails: with [chunkSize = overlap = 5], which violates
    [chunkSize > overlap], the chunker returns a chunk for a short text,
    and with [chunkSize = overlap = 2] it loops on a longer one; in
    neither case does it fail with an error. *)
Lemma chunkText_invalid_params_no_error :
  ~ (5 > 5 /\ 5 >= 0) /\
  chunkText 1 "abc" 5 5 = Normal ["abc"] /\
  ~ (2 > 2 /\ 2 >= 0) /\
  forall fuel, chunkText fuel "abcdef" 2 2 = Diverge.
Proof.
  split; [lia|]. split; [reflexivity|]. split; [lia|].
  intros fuel. apply chunkLoop_stuck; simpl; lia.
Qed.

End ChunkerFacts.

(* ================================================================== *)
(** ** Indexing and retrieval *)

Module RagFacts.
Import Rag.

Section OverNumbers.

Variable number : Type.
Variable nzero : number.
Variables nadd nmul ndiv : number -> number -> number.
Variable nsqrt : number -> number.
Variable neqb : number -> number -> bool.
Variable ngtb : number -> number -> bool.

(** C10: a character without [embeddingConfig] gets [null], whatever its
    [knowledgeSourceIds]: the call only logs a warning; the embedding
    provider is not called and the store is neither read nor written. *)
Theorem findRelevantContext_no_config
        (query : string) (ids : option (list string)) (topK : Z) (w : World number) :
  let character := {| embeddingConfig := None; knowledgeSourceIds := ids |} in
  let w' := logged (EvLog LogWarn
              "Cannot find relevant context: character has no embedding config.") w in
  findRelevantContext number nzero nadd nmul ndiv nsqrt neqb ngtb
      query character topK w = (Normal None, w') /\
  embedCalls w' = embedCalls w /\
  storeOps w' = storeOps w /\
  store w' = store w.
Proof. repeat split. Qed.

(** C6: a character whose [knowledgeSourceIds] is absent or empty gets
    [null] and the embedding provider is not called: no embedding call
    is counted and the trace gains no embedding event, with or without
    an [embeddingConfig]. *)
Theorem findRelevantContext_no_sources
        (query : string) (character : Character) (topK : Z) (w : World number) :
  knowledgeSourceIds character = None \/ knowledgeSourceIds character = Some [] ->
  exists w',
    findRelevantContext number nzero nadd nmul ndiv nsqrt neqb ngtb
      query character topK w = (Normal None, w') /\
    embedCalls w' = embedCalls w /\
    exists extra,
      trace w' = trace w ++ extra /\
      forall text c, ~ In (EvEmbed text c) extra.
Proof.
  intros Hids. destruct character as [cfg ids]; simpl in Hids.
  destruct cfg as [c|].
  - exists w. split.
    + destruct Hids as [-> | ->]; reflexivity.
    + split; [reflexivity|]. exists []. rewrite app_nil_r. split; [reflexivity|].
      intros text c' [].
  - eexists. split; [reflexivity|]. split; [reflexivity|].
    eexists. split; [reflexivity|].
    intros text c' [H|[]]. discriminate.
Qed.

Ltac run :=
  unfold bind, tryCatch, ret, throw, lift, modify, gets, logger, record,
    generateEmbedding, randomUUID, nowISO, readFileAsText,
    saveVectorChunks, storeOp; simpl.

(** The embedding loop stops at the first chunk the provider refuses,
    with the error that names it, and leaves the store alone. *)
Lemma embedChunks_first_failure (sid : string) (cfg : EmbeddingConfig) (total : nat) :
  forall (rest : list string) (i : nat) (acc : list (VectorChunk number))
         (w : World number) (k : nat) (err : Value),
    (k < List.length rest)%nat ->
    (forall j, (j < k)%nat ->
       exists v, embedScript w (embedCalls w + j) (nth j rest "") cfg = inl v) ->
    embedScript w (embedCalls w + k) (nth k rest "") cfg = inr err ->
    exists w',
      embedChunks showProgress sid cfg total i rest acc w =
        (Throw (newError ("Failed to process chunk " ++ showNat (i + k + 1)
                          ++ ". Check embedding API settings.")%string), w') /\
      store w' = store w /\
      storeOps w' = storeOps w /\
      exists extra,
        trace w' = trace w ++ extra /\
        forall cs, ~ In (EvSave cs) extra.
Proof.
  induction rest as [|chunk rest IH]; intros i acc w k err Hk Hok Hfail.
  - simpl in Hk. lia.
  - destruct k as [|k].
    + rewrite Nat.add_0_r in *. simpl in Hfail.
      simpl. run. rewrite Hfail.
      eexists. split; [reflexivity|]. simpl.
      split; [reflexivity|]. split; [reflexivity|].
      eexists. rewrite <- !app_assoc. split; [reflexivity|].
      intros cs Hin. simpl in Hin.
      destruct Hin as [H|[H|[H|[]]]]; discriminate.
    + destruct (Hok 0%nat ltac:(lia)) as [v Hv].
      rewrite Nat.add_0_r in Hv. simpl in Hv.
      simpl. run. rewrite Hv.
      match goal with
      | |- context [embedChunks _ _ _ _ ?i' _ ?acc' ?w1] =>
          destruct (IH i' acc' w1 k err) as (w' & Hrun & Hst & Hops & extra & Htr & Hns)
      end.
      * simpl in Hk. lia.
      * intros j Hj. simpl.
        destruct (Hok (S j) ltac:(lia)) as [v' Hv']. exists v'.
        simpl in Hv'. rewrite <- Hv'. f_equal. lia.
      * simpl. simpl in Hfail. rewrite <- Hfail. f_equal. lia.
      * exists w'. split.
        { rewrite Hrun. replace (i + S k + 1)%nat with (S i + k + 1)%nat by lia.
          reflexivity. }
        simpl in Hst, Hops, Htr.
        split; [exact Hst|]. split; [exact Hops|].
        eexists. rewrite Htr, <- !app_assoc. split; [reflexivity|].
        intros cs Hin. simpl in Hin.
        destruct Hin as [H|[H|Hin]]; try discriminate.
        exact (Hns cs Hin).
Qed.

(** C7: when the embedding of a chunk fails (chunk [k], counting from 0,
    is the first the provider refuses), [processAndIndexFile] fails with
    the error that names that chunk (by its 1-based index [k + 1], as the
    progress messages count), and nothing of the file reaches the vector
    store: the store is unchanged and [saveVectorChunks] is not called. *)
Theorem processAndIndexFile_atomic
        (file : File) (cfg : EmbeddingConfig) (w : World number)
        (content : string) (chunks : list string) (k : nat) (err : Value) :
  fileText file = inl content ->
  Chunker.chunkText (String.length content) content
    Chunker.defaultChunkSize Chunker.defaultOverlap = Normal chunks ->
  (k < List.length chunks)%nat ->
  (forall j, (j < k)%nat ->
     exists v, embedScript w (embedCalls w + j) (nth j chunks "") cfg = inl v) ->
  embedScript w (embedCalls w + k) (nth k chunks "") cfg = inr err ->
  exists w',
    processAndIndexFile file cfg showProgress w =
      (Throw (newError ("Failed to process chunk " ++ showNat (k + 1)
                        ++ ". Check embedding API settings.")%string), w') /\
    store w' = store w /\
    storeOps w' = storeOps w /\
    exists extra,
      trace w' = trace w ++ extra /\
      forall cs, ~ In (EvSave cs) extra.
Proof.
  intros Hfile Hchunks Hk Hok Hfail.
  unfold Rag.processAndIndexFile. run. rewrite Hfile. run. rewrite Hchunks.
  match goal with
  | |- context [embedChunks _ ?sid _ ?total ?i _ ?acc ?w1] =>
      destruct (embedChunks_first_failure sid cfg total chunks i acc w1 k err)
        as (w' & Hrun & Hst & Hops & extra & Htr & Hns)
  end; try assumption.
  exists w'. split.
  - rewrite Hrun. reflexivity.
  - simpl in Hst, Hops, Htr.
    split; [exact Hst|]. split; [exact Hops|].
    eexists. rewrite Htr, <- !app_assoc. split; [reflexivity|].
    intros cs Hin. simpl in Hin.
    destruct Hin as [H|[H|[H|Hin]]]; try discriminate.
    exact (Hns cs Hin).
Qed.

End OverNumbers.

Lemma findRelevantContext_no_sources_witness :
  exists w',
    findRelevantContext Z 0 Z.add Z.mul Z.div Z.sqrt Z.eqb Z.gtb "what is this?"
      {| embeddingConfig := Some sampleConfig; knowledgeSourceIds := Some [] |}
      defaultTopK (sampleWorld providerDown) = (Normal None, w') /\
    embedCalls w' = embedCalls (sampleWorld providerDown) /\
    exists extra,
      trace w' = trace (sampleWorld providerDown) ++ extra /\
      forall text c, ~ In (EvEmbed text c) extra.
Proof.
  apply (findRelevantContext_no_sources Z 0 Z.add Z.mul Z.div Z.sqrt Z.eqb Z.gtb).
  right. reflexivity.
Defined.

Lemma processAndIndexFile_atomic_witness :
  exists w',
    processAndIndexFile (sampleFile (Chunker.document 1500)) sampleConfig
      showProgress (sampleWorld (providerFailsFrom 1)) =
      (Throw (newError "Failed to process chunk 2. Check embedding API settings."), w') /\
    store w' = [] /\
    storeOps w' = 0%nat /\
    exists extra,
      trace w' = [] ++ extra /\
      forall cs, ~ In (EvSave cs) extra.
Proof.
  eapply (processAndIndexFile_atomic Z (sampleFile (Chunker.document 1500))
            sampleConfig (sampleWorld (providerFailsFrom 1))
            (Chunker.document 1500) _ 1 (newError "quota exceeded")).
  - reflexivity.
  - vm_compute. reflexivity.
  - simpl. lia.
  - intros j Hj. exists [1; 0]. destruct j; [reflexivity | lia].
  - reflexivity.
Defined.

End RagFacts.

(* ================================================================== *)
(** ** Retry with backoff *)

Module RetryFacts.
Import Gemini.

Ltac run :=
  unfold bind, tryCatch, ret, throw, lift, modify, gets, logger, random, sleep,
    scripted; simpl.

Lemma retryLoop_unfold {T} fuel (apiCall : M World T) maxRetries initialDelay attempt :
  retryLoop fuel apiCall maxRetries initialDelay attempt =
  if attempt <? maxRetries then
    match fuel with
    | O => lift Diverge
    | S fuel' =>
        tryCatch apiCall
          (fun error =>
             if isRateLimitError error then
               if attempt + 1 >=? maxRetries then
                 logger LogWarn
                   ("API rate limit exceeded. All " ++ showZ maxRetries
                    ++ " retries failed. Rethrowing final error.")%string ;;
                 throw error
               else
                 rnd <- random ;;
                 let delay := backoffDelay initialDelay attempt rnd in
                 logger LogWarn
                   ("API rate limit exceeded. Retrying in "
                    ++ showZ (round (delay / inject_Z 1000))
                    ++ "s... (Attempt " ++ showZ (attempt + 1) ++ "/"
                    ++ showZ maxRetries ++ ")")%string ;;
                 sleep delay ;;
                 retryLoop fuel' apiCall maxRetries initialDelay (attempt + 1)
             else
               logger LogError "API call failed with non-retriable error:" ;;
               throw error)
    end
  else throw (newError "API request failed to complete after all retries.").
Proof. destruct fuel; reflexivity. Qed.

(** The fuel [withRetry] gives the loop is enough: any larger amount
    gives the same run. *)
Lemma retryLoop_fuel {T} (apiCall : M World T) maxRetries initialDelay :
  forall fuel1 fuel2 attempt w,
    (Z.to_nat (maxRetries - attempt) <= fuel1)%nat ->
    (Z.to_nat (maxRetries - attempt) <= fuel2)%nat ->
    retryLoop fuel1 apiCall maxRetries initialDelay attempt w =
    retryLoop fuel2 apiCall maxRetries initialDelay attempt w.
Proof.
  induction fuel1 as [|fuel1 IH]; intros [|fuel2] attempt w H1 H2;
    rewrite !(retryLoop_unfold _ apiCall maxRetries initialDelay attempt);
    destruct (Z.ltb_spec attempt maxRetries); try lia; try reflexivity.
  unfold tryCatch. destruct (apiCall w) as [[v|e|] w1]; try reflexivity.
  destruct (isRateLimitError e); [|reflexivity].
  destruct (attempt + 1 >=? maxRetries); [reflexivity|].
  cbv beta iota delta [bind random logger sleep modify]. apply IH; lia.
Qed.

(** Without an allowed attempt the operation is not called and the
    generic error is thrown. *)
Lemma withRetry_no_attempt {T} (apiCall : M World T) maxRetries initialDelay w :
  maxRetries <= 0 ->
  withRetry apiCall maxRetries initialDelay w =
    (Throw (newError "API request failed to complete after all retries."), w).
Proof.
  intros Hmax. unfold withRetry. rewrite retryLoop_unfold.
  destruct (Z.ltb_spec 0 maxRetries); [lia | reflexivity].
Qed.


Lemma backoffs_succ initialDelay attempt w n w1 :
  randoms w1 = randoms w -> randomsDrawn w1 = S (randomsDrawn w) ->
  backoffs initialDelay attempt w (S n) =
  backoffDelay initialDelay attempt (randoms w (randomsDrawn w))
    :: backoffs initialDelay (attempt + 1) w1 n.
Proof.
  intros Hr Hd. unfold backoffs. simpl.
  rewrite Z.add_0_r, Nat.add_0_r. f_equal.
  rewrite <- seq_shift, map_map. apply map_ext. intros k.
  rewrite Hr, Hd. f_equal; [lia | f_equal; lia].
Qed.


(** The loop only ever adds calls and sleeps, and makes at least one
    call when an attempt is allowed. *)
Lemma retryLoop_calls {T} (script : nat -> T + Value) maxRetries initialDelay :
  forall fuel attempt w,
    let w' := snd (retryLoop fuel (scripted script) maxRetries initialDelay attempt w) in
    (opCalls w <= opCalls w')%nat /\
    (attempt < maxRetries -> (0 < fuel)%nat -> (S (opCalls w) <= opCalls w')%nat) /\
    exists rest, slept w' = slept w ++ rest.
Proof.
  induction fuel as [|fuel IH]; intros attempt w; cbv zeta;
    rewrite retryLoop_unfold;
    destruct (Z.ltb_spec attempt maxRetries) as [Hlt|Hge];
    try (simpl; split; [lia|split; [lia|exists []; now rewrite app_nil_r]]).
  run. destruct (script (opCalls w)) as [v|e]; simpl.
  - split; [lia|split; [lia|exists []; now rewrite app_nil_r]].
  - destruct (isRateLimitError e); simpl.
    + destruct (attempt + 1 >=? maxRetries); simpl.
      * split; [lia|split; [lia|exists []; now rewrite app_nil_r]].
      * match goal with
        | |- context [retryLoop fuel _ _ _ _ ?w1] =>
            set (w2 := w1);
            destruct (IH (attempt + 1) w2) as (Hmono & _ & rest & Hrest)
        end.
        change (opCalls w2) with (S (opCalls w)) in Hmono.
        change (slept w2) with (slept w ++ [backoffDelay initialDelay attempt
                                             (randoms w (randomsDrawn w))]) in Hrest.
        fold (scripted script).
        split; [lia|split; [lia|]].
        eexists. rewrite Hrest, <- app_assoc. reflexivity.
    + split; [lia|split; [lia|exists []; now rewrite app_nil_r]].
Qed.




(** On thrown values where a string message and an HTTP status exclude
    each other (an [Error] has a message and no status; a status is that
    of a [Response]), the code classifies as the design document says. *)
Lemma isRateLimitError_specTransient (e : Value) :
  (forall m, message e = Some m -> truthy e = true /\ status e = None) ->
  (forall st, status e = Some st -> isResponse e = true) ->
  isRateLimitError e = specTransient e.
Proof.
  unfold isRateLimitError, specTransient.
  destruct e as [tr msg isE isR st str]; simpl. intros Hmsg Hst.
  destruct msg as [m|].
  - destruct (Hmsg m eq_refl) as [-> ->]. simpl.
    now rewrite andb_false_r, orb_false_r.
  - destruct st as [st0|].
    + rewrite (Hst st0 eq_refl). simpl.
      destruct tr; now rewrite orb_false_r.
    + destruct tr; now rewrite andb_false_r.
Qed.




End RetryFacts.

(* ================================================================== *)
(** ** History normalization *)

Module HistoryFacts.
Import Gemini.

(** What is already merged is a prefix of the result. *)
Lemma mergeLoop_done : forall rest done prev,
  mergeLoop done prev rest = done ++ mergeLoop [] prev rest.
Proof.
  induction rest as [|curr rest IH]; intros done prev; simpl.
  - reflexivity.
  - destruct (String.eqb (turnRole prev) (turnRole curr)).
    + apply IH.
    + rewrite IH, (IH [prev]). now rewrite app_assoc.
Qed.

Lemma toTurn_mergedTurn (m : Message) : toTurn m = mergedTurn [m].
Proof. unfold mergedTurn. simpl. now rewrite app_nil_r. Qed.

Lemma mergedTurn_snoc (m : Message) (tl : list Message) (c : Message) :
  {| turnRole := turnRole (mergedTurn (m :: tl));
     parts := parts (mergedTurn (m :: tl)) ++ parts (toTurn c) |}
  = mergedTurn (m :: tl ++ [c]).
Proof.
  unfold mergedTurn. cbn [turnRole parts]. f_equal.
  change (m :: tl ++ [c]) with ((m :: tl) ++ [c]).
  rewrite map_app, concat_app. simpl. now rewrite app_nil_r.
Qed.

(** The merge loop, started on a run in progress, cuts the rest of the
    messages into maximal runs and merges each. *)
Lemma mergeLoop_runs : forall (rest : list Message) (m : Message) (tl : list Message),
  Forall (fun m' => normalizedRole m' = normalizedRole m) tl ->
  exists tl' runs,
    mergeLoop [] (mergedTurn (m :: tl)) (map toTurn rest)
      = map mergedTurn ((m :: tl') :: runs) /\
    List.concat ((m :: tl') :: runs) = (m :: tl) ++ rest /\
    maximalRuns ((m :: tl') :: runs).
Proof.
  induction rest as [|c rest IH]; intros m tl Htl.
  - exists tl, []. simpl. rewrite !app_nil_r. repeat split.
    exists m, tl. auto.
  - simpl map. cbn [mergeLoop].
    change (turnRole (mergedTurn (m :: tl))) with (normalizedRole m).
    change (turnRole (toTurn c)) with (normalizedRole c).
    destruct (String.eqb_spec (normalizedRole m) (normalizedRole c)) as [Heq|Hneq].
    + change (normalizedRole m) with (turnRole (mergedTurn (m :: tl))).
      rewrite mergedTurn_snoc.
      destruct (IH m (tl ++ [c])) as (tl' & runs & Hrun & Hcat & Hmax).
      { apply Forall_app. split; [exact Htl|]. constructor; auto. }
      exists tl', runs. split; [exact Hrun|]. split; [|exact Hmax].
      rewrite Hcat. simpl. now rewrite <- app_assoc.
    + rewrite mergeLoop_done, toTurn_mergedTurn.
      destruct (IH c [] (Forall_nil _)) as (tl' & runs & Hrun & Hcat & Hmax).
      exists tl, ((c :: tl') :: runs). split; [|split].
      * rewrite Hrun. reflexivity.
      * change (List.concat ((m :: tl) :: (c :: tl') :: runs))
          with ((m :: tl) ++ List.concat ((c :: tl') :: runs)).
        rewrite Hcat. reflexivity.
      * split; [|exact Hmax].
        exists m, tl. split; [reflexivity|]. split; [exact Htl|]. congruence.
Qed.


Example normalizeGeminiHistory_three_user_turns :
  normalizeGeminiHistory
    [userMessage "hi"; userMessage "there"; narratorMessage "It rains.";
     {| role := "model"; content := "Hello!"; attachment := None |};
     {| role := "system"; content := "ignored"; attachment := None |};
     userMessage "bye"]
  = [ {| turnRole := "user";
         parts := [TextPart "hi"; TextPart "there"; TextPart "[NARRATOR]: It rains."] |};
      {| turnRole := "model"; parts := [TextPart "Hello!"] |};
      {| turnRole := "user"; parts := [TextPart "bye"] |} ].
Proof. reflexivity. Qed.

End HistoryFacts.

(* ================================================================== *)
(** ** Streaming *)

Module StreamFacts.
Import Gemini.

Ltac run :=
  unfold bind, tryCatch, ret, throw, lift, modify, gets, logger, random, sleep,
    deliver; simpl.

(** The retry loop returns or throws whenever the operation does. *)
Lemma retryLoop_returns {T} (apiCall : M World T) maxRetries initialDelay :
  (forall w, fst (apiCall w) <> Diverge) ->
  forall fuel attempt w,
    (Z.to_nat (maxRetries - attempt) <= fuel)%nat ->
    fst (retryLoop fuel apiCall maxRetries initialDelay attempt w) <> Diverge.
Proof.
  intros Hcall. induction fuel as [|fuel IH]; intros attempt w Hfuel;
    rewrite RetryFacts.retryLoop_unfold;
    destruct (Z.ltb_spec attempt maxRetries); try lia; try discriminate.
  unfold tryCatch. specialize (Hcall w).
  destruct (apiCall w) as [[v|e|] w1]; simpl in *; try discriminate; try congruence.
  destruct (isRateLimitError e); [|run; discriminate].
  destruct (attempt + 1 >=? maxRetries); run; [discriminate|].
  apply IH. lia.
Qed.

Lemma withRetry_returns {T} (apiCall : M World T) maxRetries initialDelay w :
  (forall w, fst (apiCall w) <> Diverge) ->
  fst (withRetry apiCall maxRetries initialDelay w) <> Diverge.
Proof.
  intros Hcall. unfold withRetry. apply retryLoop_returns; [exact Hcall | lia].
Qed.

Lemma bind_returns {A B} (m : M World A) (k : A -> M World B) w :
  fst (m w) <> Diverge ->
  (forall a w1, fst (k a w1) <> Diverge) ->
  fst (bind m k w) <> Diverge.
Proof.
  intros Hm Hk. unfold bind.
  destruct (m w) as [[a|e|] w1]; simpl in *; auto; discriminate.
Qed.

Section WithParser.

Variable deltaOf : string -> string + Value.

(** Handling the lines of one read delivers chunks and nothing else:
    parse errors are swallowed. *)
Lemma processLines_normal : forall lines w,
  exists finished w', processLines deltaOf deliver lines w = (Normal finished, w').
Proof.
  induction lines as [|line lines IH]; intros w; simpl.
  - eexists _, _. reflexivity.
  - destruct (startsWith (trim line) "data: "); [|apply IH].
    destruct (String.eqb _ "[DONE]"); [eexists _, _; reflexivity|].
    run. destruct (deltaOf _) as [c|e]; simpl.
    + destruct (nonEmpty c); simpl; apply IH.
    + apply IH.
Qed.

Lemma readLoop_returns : forall reads buffer w,
  fst (readLoop deltaOf deliver reads buffer w) <> Diverge.
Proof.
  induction reads as [|[value|e] reads IH]; intros buffer w; simpl;
    try discriminate.
  unfold bind.
  destruct (processLines_normal
              (removelast (split newline (buffer ++ value)%string)) w)
    as (finished & w' & ->).
  destruct finished; [discriminate | apply IH].
Qed.

Lemma openAIBody_returns config systemInstruction history w :
  fst (openAIBody deltaOf config systemInstruction history deliver w) <> Diverge.
Proof.
  unfold openAIBody. apply bind_returns.
  - unfold fetchWithRetry. apply withRetry_returns.
    intros w0. unfold bind, fetch.
    destruct (fetchScript w0 _) as [r|e]; simpl; [|discriminate].
    destruct (respStatus r =? 429); discriminate.
  - intros response w1.
    destruct (negb (respOk response)); [discriminate|].
    destruct (respBody response); [apply readLoop_returns | discriminate].
Qed.

End WithParser.

Lemma consumeStream_returns : forall items w,
  fst (consumeStream deliver items w) <> Diverge.
Proof.
  induction items as [|[text|e] items IH]; intros w; simpl; try discriminate.
  unfold bind. destruct (nonEmpty text); simpl; apply IH.
Qed.

Lemma getAiClient_returns key w : fst (getAiClient key w) <> Diverge.
Proof.
  unfold getAiClient.
  destruct key as [k|]; [destruct (nonEmpty k)|]; run;
    try discriminate; destruct (hasDefaultAi w); discriminate.
Qed.

Lemma geminiBody_returns character systemInstruction history w :
  fst (geminiBody character systemInstruction history deliver w) <> Diverge.
Proof.
  unfold geminiBody. apply bind_returns; [apply getAiClient_returns|].
  intros ai w1.
  destruct (Nat.eqb _ 0); [discriminate|].
  apply bind_returns; [discriminate|]. intros _ w2.
  apply bind_returns.
  - apply withRetry_returns. intros w0. unfold generateContentStream.
    destruct (streamScript w0 _); discriminate.
  - intros items w3. apply consumeStream_returns.
Qed.

(** The last character of the OpenAI error chunk is the closing bracket. *)
Lemma substring_last (p : string) :
  substring (String.length p) 1 (p ++ "]") = "]".
Proof. induction p as [|c p IH]; simpl; [reflexivity | exact IH]. Qed.

Lemma length_append (p q : string) :
  String.length (p ++ q) = (String.length p + String.length q)%nat.
Proof. induction p as [|c p IH]; simpl; [reflexivity | now rewrite IH]. Qed.

Lemma append_assoc (p q r : string) : ((p ++ q) ++ r = p ++ (q ++ r))%string.
Proof. induction p as [|c p IH]; simpl; [reflexivity | now rewrite IH]. Qed.

Lemma slice_last (p : string) :
  slice (p ++ "]") (-1) (Z.of_nat (String.length (p ++ "]"))) = "]".
Proof.
  unfold slice, clampIndex. rewrite length_append.
  change (String.length "]") with 1%nat.
  set (n := String.length p).
  destruct (Z.ltb_spec (-1) 0); [|lia].
  destruct (Z.ltb_spec (Z.of_nat (n + 1)) 0); [lia|].
  replace (Z.to_nat (Z.max (Z.of_nat (n + 1) + -1) 0)) with n by lia.
  replace (Z.to_nat (Z.max (Z.min (Z.of_nat (n + 1)) (Z.of_nat (n + 1))
                            - Z.max (Z.of_nat (n + 1) + -1) 0) 0))
    with 1%nat by lia.
  apply substring_last.
Qed.

Lemma openAIErrorChunk_marker (e : Value) :
  isErrorMarker (openAIErrorChunk e) = true.
Proof.
  unfold isErrorMarker, openAIErrorChunk.
  set (msg := if isError e then errorMessage e else toStr e).
  apply andb_true_intro. split.
  { unfold startsWith. simpl. destruct (msg ++ "]")%string; reflexivity. }
  apply String.eqb_eq.
  rewrite <- append_assoc. apply slice_last.
Qed.

Lemma geminiErrorChunk_not_marker (e : Value) :
  isErrorMarker (geminiErrorChunk e) = false.
Proof. reflexivity. Qed.

(** C9, as the code has it: a streaming call never throws and always
    completes.  When its [try] block fails with an error, exactly one
    more chunk is delivered, after the chunks already streamed, and the
    call completes normally: on the OpenAI-compatible path the bracketed
    marker ["[Error: <message>]"], on the Gemini path the sentence
    ["Sorry, an error occurred with the Gemini API: <message>"], which is
    not bracketed.  When the block does not fail nothing is added. *)
Theorem streaming_failure_becomes_chunk
        (deltaOf : string -> string + Value)
        (config : ApiConfig) (character : Character)
        (systemInstruction : string) (history : list Message) (w : World) :
  (let out := openAIBody deltaOf config systemInstruction history deliver w in
   let call := streamOpenAIChatResponse deltaOf config systemInstruction history deliver in
   (exists w', call w = (Normal tt, w')) /\
   (forall e, fst out = Throw e ->
      exists w',
        call w = (Normal tt, w') /\
        delivered w' = delivered (snd out) ++ [openAIErrorChunk e] /\
        openAIErrorChunk e =
          ("[Error: " ++ (if isError e then errorMessage e else toStr e) ++ "]")%string /\
        isErrorMarker (openAIErrorChunk e) = true) /\
   ((forall e, fst out <> Throw e) -> call w = out))
  /\
  (let out := geminiBody character systemInstruction history deliver w in
   let call := streamGeminiChatResponse character systemInstruction history deliver in
   (exists w', call w = (Normal tt, w')) /\
   (forall e, fst out = Throw e ->
      exists w',
        call w = (Normal tt, w') /\
        delivered w' = delivered (snd out) ++ [geminiErrorChunk e] /\
        geminiErrorChunk e =
          ("Sorry, an error occurred with the Gemini API: "
           ++ (if isError e then errorMessage e
               else "An unknown error occurred."))%string /\
        isErrorMarker (geminiErrorChunk e) = false) /\
   ((forall e, fst out <> Throw e) -> call w = out)).
Proof.
  split; cbv zeta.
  - pose proof (openAIBody_returns deltaOf config systemInstruction history w) as Hret.
    unfold streamOpenAIChatResponse, tryCatch.
    destruct (openAIBody deltaOf config systemInstruction history deliver w)
      as [[[]|e|] w1]; simpl in *.
    + split; [eexists; reflexivity|]. split; [intros e [=]|reflexivity].
    + split; [eexists; reflexivity|]. split.
      * intros e' [= <-]. eexists. split; [reflexivity|].
        split; [reflexivity|]. split; [reflexivity|].
        apply openAIErrorChunk_marker.
      * intros H. exfalso. exact (H e eq_refl).
    + congruence.
  - pose proof (geminiBody_returns character systemInstruction history w) as Hret.
    unfold streamGeminiChatResponse, tryCatch.
    destruct (geminiBody character systemInstruction history deliver w)
      as [[[]|e|] w1]; simpl in *.
    + split; [eexists; reflexivity|]. split; [intros e [=]|reflexivity].
    + split; [eexists; reflexivity|]. split.
      * intros e' [= <-]. eexists. split; [reflexivity|].
        split; [reflexivity|]. split; reflexivity.
      * intros H. exfalso. exact (H e eq_refl).
    + congruence.
Qed.

Lemma streaming_failure_becomes_chunk_witness :
  exists w',
    streamOpenAIChatResponse (fun _ => inl "") sampleApiConfig "You are Ada."
      [userMessage "hi"] deliver sampleWorld = (Normal tt, w') /\
    delivered w' =
      delivered (snd (openAIBody (fun _ => inl "") sampleApiConfig "You are Ada."
                        [userMessage "hi"] deliver sampleWorld))
      ++ [openAIErrorChunk (newError "Failed to fetch")] /\
    openAIErrorChunk (newError "Failed to fetch") = "[Error: Failed to fetch]" /\
    isErrorMarker (openAIErrorChunk (newError "Failed to fetch")) = true.
Proof.
  destruct (streaming_failure_becomes_chunk (fun _ => inl "") sampleApiConfig
              sampleCharacter "You are Ada." [userMessage "hi"] sampleWorld)
    as [(_ & H & _) _].
  apply (H (newError "Failed to fetch")). reflexivity.
Defined.

(** C9 as stated fails on the Gemini path: when the Gemini call fails,
    the one chunk delivered is not a bracketed [[Error: ...]] marker. *)
Lemma gemini_failure_not_bracketed :
  fst (geminiBody sampleCharacter "You are Ada." [userMessage "hi"] deliver
         sampleWorldWithKey) = Throw (newError "503 UNAVAILABLE") /\
  exists w',
    streamGeminiChatResponse sampleCharacter "You are Ada." [userMessage "hi"]
      deliver sampleWorldWithKey = (Normal tt, w') /\
    delivered w' = ["Sorry, an error occurred with the Gemini API: 503 UNAVAILABLE"] /\
    Forall (fun chunk => isErrorMarker chunk = false) (delivered w').
Proof.
  split; [reflexivity|].
  eexists. split; [reflexivity|]. split; [reflexivity|].
  repeat constructor.
Qed.

Example openAI_failure_bracketed :
  exists w',
    streamOpenAIChatResponse (fun _ => inl "") sampleApiConfig "You are Ada."
      [userMessage "hi"] deliver sampleWorld = (Normal tt, w') /\
    delivered w' = ["[Error: Failed to fetch]"].
Proof. eexists. split; reflexivity. Qed.

End StreamFacts.

(* ================================================================== *)
(** ** More on the chunker: window sizes, overlap and chunk count *)

Module ChunkerWindows.
Import Chunker.

Lemma spanLoop_step fuel len chunkSize overlap i :
  spanLoop fuel len chunkSize overlap i =
  if i <? len then
    match fuel with
    | O => None
    | S fuel' =>
        option_map (cons (i, Z.min (i + chunkSize) len))
          (spanLoop fuel' len chunkSize overlap
             (if i + (chunkSize - overlap) + overlap >=? len then len
              else i + (chunkSize - overlap)))
    end
  else Some [].
Proof. destruct fuel; reflexivity. Qed.

(** What the loop records from a cursor inside the text. *)
Lemma spanLoop_windows len chunkSize overlap :
  0 <= overlap < chunkSize ->
  forall fuel i,
    0 <= i ->
    (Z.to_nat (len - i) <= fuel)%nat ->
    exists spans,
      spanLoop fuel len chunkSize overlap i = Some spans /\
      windows len chunkSize overlap i spans /\
      Z.of_nat (List.length spans) =
        (if i <? len
         then 1 + (Z.max (len - chunkSize - i) 0 + (chunkSize - overlap) - 1)
                  / (chunkSize - overlap)
         else 0).
Proof.
  intros Hov. induction fuel as [|fuel IH]; intros i Hi Hfuel;
    rewrite spanLoop_step; destruct (Z.ltb_spec i len) as [Hlt|Hge]; try lia;
    try (exists []; simpl; repeat split; lia).
  destruct (Z.geb_spec (i + (chunkSize - overlap) + overlap) len) as [Hend|Hmore].
  - rewrite spanLoop_step. destruct (Z.ltb_spec len len); [lia|].
    exists [(i, Z.min (i + chunkSize) len)]. split; [reflexivity|].
    replace (Z.min (i + chunkSize) len) with len by lia.
    split.
    + simpl. destruct (Z.ltb_spec len len); [lia|]. repeat split; lia.
    + replace (Z.max (len - chunkSize - i) 0) with 0 by lia.
      rewrite Z.div_small by lia. reflexivity.
  - destruct (IH (i + (chunkSize - overlap)) ltac:(lia) ltac:(lia))
      as (spans & Hs & Hw & Hn).
    rewrite Hs. exists ((i, Z.min (i + chunkSize) len) :: spans).
    split; [reflexivity|].
    replace (Z.min (i + chunkSize) len) with (i + chunkSize) by lia.
    split.
    + simpl. destruct (Z.ltb_spec (i + chunkSize) len); [|lia].
      replace (i + chunkSize - overlap) with (i + (chunkSize - overlap)) by lia.
      repeat split; try lia. exact Hw.
    + simpl List.length. rewrite Nat2Z.inj_succ, Hn.
      destruct (Z.ltb_spec (i + (chunkSize - overlap)) len); [|lia].
      set (d := chunkSize - overlap) in *.
      replace (Z.max (len - chunkSize - i) 0) with (len - chunkSize - i) by lia.
      destruct (Z_le_gt_dec (len - chunkSize - i) d) as [Hsmall|Hbig].
      * replace (Z.max (len - chunkSize - (i + d)) 0) with 0 by lia.
        rewrite (Z.div_small (0 + d - 1)) by lia.
        replace (len - chunkSize - i + d - 1) with ((len - chunkSize - i - 1) + 1 * d) by lia.
        rewrite Z.div_add by lia. rewrite Z.div_small by lia. lia.
      * replace (Z.max (len - chunkSize - (i + d)) 0) with (len - chunkSize - (i + d)) by lia.
        replace (len - chunkSize - i + d - 1)
          with ((len - chunkSize - (i + d) + d - 1) + 1 * d) by lia.
        rewrite Z.div_add by lia. lia.
Qed.

Lemma substring_zero : forall (s : string) (n : nat), substring n 0 s = "".
Proof.
  induction s as [|c s IH]; intros [|n]; simpl; auto.
Qed.

Lemma substring_length : forall (s : string) (n m : nat),
  (n + m <= String.length s)%nat -> String.length (substring n m s) = m.
Proof.
  induction s as [|c s IH]; intros n m H; simpl in H.
  - assert (n = 0%nat /\ m = 0%nat) as [-> ->] by lia. reflexivity.
  - destruct n as [|n]; simpl.
    + destruct m as [|m]; simpl; [reflexivity|]. rewrite IH by lia. reflexivity.
    + apply IH. lia.
Qed.

Lemma substring_substring : forall (s : string) (n m a b : nat),
  (a + b <= m)%nat ->
  substring a b (substring n m s) = substring (n + a) b s.
Proof.
  induction s as [|c s IH]; intros n m a b H.
  - destruct n, m, a, b; reflexivity.
  - destruct n as [|n]; simpl.
    + destruct m as [|m].
      * assert (a = 0%nat /\ b = 0%nat) as [-> ->] by lia. reflexivity.
      * destruct a as [|a]; simpl.
        -- destruct b as [|b]; [reflexivity|]. f_equal.
           apply (IH 0%nat m 0%nat b). lia.
        -- apply (IH 0%nat m a b). lia.
    + apply IH. exact H.
Qed.

Lemma substring_append : forall (s : string) (n a b : nat),
  (substring n a s ++ substring (n + a) b s)%string = substring n (a + b) s.
Proof.
  induction s as [|c s IH]; intros n a b.
  - destruct n, a, b; reflexivity.
  - destruct n as [|n]; simpl.
    + destruct a as [|a]; simpl.
      * reflexivity.
      * f_equal. apply (IH 0%nat a b).
    + apply IH.
Qed.

Lemma substring_all : forall s : string, substring 0 (String.length s) s = s.
Proof. induction s as [|c s IH]; simpl; [reflexivity | now rewrite IH]. Qed.

Lemma append_empty_r : forall s : string, (s ++ "")%string = s.
Proof. induction s as [|c s IH]; simpl; [reflexivity | now rewrite IH]. Qed.

Lemma concat_empty_cons (x : string) (l : list string) :
  String.concat "" (x :: l) = (x ++ String.concat "" l)%string.
Proof. destruct l; simpl; [now rewrite append_empty_r | reflexivity]. Qed.

(** A slice between two positions of the text. *)
Lemma slice_inside (text : string) (s e : Z) :
  0 <= s <= e -> e <= Z.of_nat (String.length text) ->
  slice text s e = substring (Z.to_nat s) (Z.to_nat (e - s)) text.
Proof.
  intros Hs He. unfold slice, clampIndex.
  destruct (Z.ltb_spec s 0); [lia|]. destruct (Z.ltb_spec e 0); [lia|].
  f_equal; lia.
Qed.

Lemma slice_length (text : string) (s e : Z) :
  0 <= s <= e -> e <= Z.of_nat (String.length text) ->
  Z.of_nat (String.length (slice text s e)) = e - s.
Proof.
  intros Hs He. rewrite slice_inside by assumption.
  rewrite substring_length by lia. lia.
Qed.

(** Sizes of the chunks of fixed-size windows, and what two neighbours
    share. *)
Lemma windows_chunks (text : string) (chunkSize overlap : Z) :
  0 <= overlap < chunkSize ->
  forall spans from,
    windows (Z.of_nat (String.length text)) chunkSize overlap from spans ->
    Forall (fun c => 0 < Z.of_nat (String.length c) <= chunkSize)
           (map (sliceSpan text) spans) /\
    forall k c c',
      nth_error (map (sliceSpan text) spans) k = Some c ->
      nth_error (map (sliceSpan text) spans) (S k) = Some c' ->
      Z.of_nat (String.length c) = chunkSize /\
      substring (Z.to_nat (chunkSize - overlap)) (Z.to_nat overlap) c
      = substring 0 (Z.to_nat overlap) c'.
Proof.
  intros Hov. set (len := Z.of_nat (String.length text)).
  induction spans as [|[s e] rest IH]; intros from Hw.
  - split; [constructor|]. intros [|k] c c' H; discriminate.
  - simpl in Hw. destruct Hw as (Hs & Hse & He & Hsz & Hfull & Hrest).
    destruct (IH _ Hrest) as [Hall Hnext].
    split.
    + constructor; [|exact Hall]. unfold sliceSpan. simpl.
      rewrite slice_length by (fold len; lia). lia.
    + intros [|k] c c' Hc Hc'; [|exact (Hnext k c c' Hc Hc')].
      simpl in Hc. injection Hc as <-.
      destruct rest as [|[s' e'] rest']; [discriminate|].
      simpl in Hc'. injection Hc' as <-.
      simpl in Hrest. destruct Hrest as (Hs' & Hse' & He' & Hsz' & Hfull' & _).
      destruct (Z.ltb_spec e len) as [Hlt|Hge]; [|lia].
      specialize (Hfull Hlt).
      unfold sliceSpan. simpl fst. simpl snd.
      split; [rewrite slice_length by (fold len; lia); lia|].
      rewrite !slice_inside by (fold len; lia).
      assert (He'lo : overlap <= e' - s').
      { destruct (Z_lt_dec e' len) as [H1|H1]; [specialize (Hfull' H1)|]; lia. }
      rewrite !substring_substring by lia.
      f_equal; lia.
Qed.

(** X1: with [0 <= overlap < chunkSize] every chunk is non-empty and at
    most [chunkSize] characters long; a chunk that has a successor is
    exactly [chunkSize] long, and its last [overlap] characters are the
    first [overlap] characters of its successor. *)
Theorem chunkText_window_sizes (text : string) (chunkSize overlap : Z) (fuel : nat) :
  0 <= overlap < chunkSize ->
  (String.length text <= fuel)%nat ->
  exists chunks,
    chunkText fuel text chunkSize overlap = Normal chunks /\
    Forall (fun c => 0 < Z.of_nat (String.length c) <= chunkSize) chunks /\
    forall k c c',
      nth_error chunks k = Some c ->
      nth_error chunks (S k) = Some c' ->
      Z.of_nat (String.length c) = chunkSize /\
      substring (Z.to_nat (chunkSize - overlap)) (Z.to_nat overlap) c
      = substring 0 (Z.to_nat overlap) c'.
Proof.
  intros Hov Hfuel.
  destruct (spanLoop_windows (Z.of_nat (String.length text)) chunkSize overlap Hov
              fuel 0 ltac:(lia) ltac:(lia)) as (spans & Hs & Hw & _).
  exists (map (sliceSpan text) spans). split.
  - rewrite ChunkerFacts.chunkText_spans. unfold chunkSpans. now rewrite Hs.
  - exact (windows_chunks text chunkSize overlap Hov spans 0 Hw).
Qed.

Lemma chunkText_window_sizes_witness :
  exists chunks,
    chunkText 10 "abcdefghij" 4 1 = Normal chunks /\
    Forall (fun c => 0 < Z.of_nat (String.length c) <= 4) chunks /\
    forall k c c',
      nth_error chunks k = Some c ->
      nth_error chunks (S k) = Some c' ->
      Z.of_nat (String.length c) = 4 /\
      substring (Z.to_nat (4 - 1)) (Z.to_nat 1) c = substring 0 (Z.to_nat 1) c'.
Proof.
  apply (chunkText_window_sizes "abcdefghij" 4 1 10); [lia | simpl; lia].
Defined.

(** Without overlap the windows cut the text into consecutive pieces. *)
Lemma windows_concat (text : string) (chunkSize : Z) :
  forall spans from,
    0 <= from <= Z.of_nat (String.length text) ->
    windows (Z.of_nat (String.length text)) chunkSize 0 from spans ->
    String.concat "" (map (sliceSpan text) spans)
    = substring (Z.to_nat from) (String.length text - Z.to_nat from) text.
Proof.
  set (len := Z.of_nat (String.length text)).
  induction spans as [|[s e] rest IH]; intros from Hfrom Hw.
  - simpl in Hw. simpl.
    replace (String.length text - Z.to_nat from)%nat with 0%nat by lia.
    now rewrite substring_zero.
  - simpl in Hw. destruct Hw as (Hs & Hse & He & _ & _ & Hrest).
    simpl map. rewrite concat_empty_cons. subst from.
    unfold sliceSpan at 1. simpl fst. simpl snd.
    rewrite slice_inside by (fold len; lia).
    destruct (Z.ltb_spec e len) as [Hlt|Hge].
    + rewrite (IH (e - 0)) by (try exact Hrest; lia).
      replace (Z.to_nat (e - 0)) with (Z.to_nat s + Z.to_nat (e - s))%nat by lia.
      rewrite substring_append. f_equal. lia.
    + rewrite (IH len) by (try exact Hrest; lia).
      replace (String.length text - Z.to_nat len)%nat with 0%nat by lia.
      rewrite substring_zero, append_empty_r. f_equal. lia.
Qed.

(** X2: with [overlap = 0] the chunks partition the text: concatenated in
    order they give the text back. *)
Theorem chunkText_no_overlap_concat (text : string) (chunkSize : Z) (fuel : nat) :
  0 < chunkSize ->
  (String.length text <= fuel)%nat ->
  exists chunks,
    chunkText fuel text chunkSize 0 = Normal chunks /\
    String.concat "" chunks = text.
Proof.
  intros Hcs Hfuel.
  destruct (spanLoop_windows (Z.of_nat (String.length text)) chunkSize 0 ltac:(lia)
              fuel 0 ltac:(lia) ltac:(lia)) as (spans & Hs & Hw & _).
  exists (map (sliceSpan text) spans). split.
  - rewrite ChunkerFacts.chunkText_spans. unfold chunkSpans. now rewrite Hs.
  - rewrite (windows_concat text chunkSize spans 0) by (try exact Hw; lia).
    simpl. rewrite Nat.sub_0_r. apply substring_all.
Qed.

Lemma chunkText_no_overlap_concat_witness :
  exists chunks,
    chunkText 10 "abcdefghij" 4 0 = Normal chunks /\
    String.concat "" chunks = "abcdefghij".
Proof.
  apply (chunkText_no_overlap_concat "abcdefghij" 4 10); [lia | simpl; lia].
Defined.

(** X3: with [0 <= overlap < chunkSize] the number of chunks is
    [chunkCount]: none for the empty text, one when the text fits in a
    window, and otherwise one more for every step of
    [chunkSize - overlap] needed to bring the window's end to the end of
    the text. *)
Theorem chunkText_count (text : string) (chunkSize overlap : Z) (fuel : nat) :
  0 <= overlap < chunkSize ->
  (String.length text <= fuel)%nat ->
  exists chunks,
    chunkText fuel text chunkSize overlap = Normal chunks /\
    Z.of_nat (List.length chunks)
    = chunkCount (Z.of_nat (String.length text)) chunkSize overlap.
Proof.
  intros Hov Hfuel.
  set (len := Z.of_nat (String.length text)).
  destruct (spanLoop_windows len chunkSize overlap Hov fuel 0 ltac:(lia) ltac:(lia))
    as (spans & Hs & _ & Hn).
  exists (map (sliceSpan text) spans). split.
  - rewrite ChunkerFacts.chunkText_spans. unfold chunkSpans. fold len. now rewrite Hs.
  - rewrite length_map, Hn. unfold chunkCount.
    destruct (Z.ltb_spec 0 len); destruct (Z.leb_spec len 0); try lia.
    destruct (Z.leb_spec len chunkSize).
    + replace (Z.max (len - chunkSize - 0) 0) with 0 by lia.
      rewrite Z.div_small by lia. reflexivity.
    + replace (Z.max (len - chunkSize - 0) 0) with (len - chunkSize) by lia.
      reflexivity.
Qed.

Lemma chunkText_count_witness :
  exists chunks,
    chunkText 2500 (document 2500) 1000 200 = Normal chunks /\
    Z.of_nat (List.length chunks) = chunkCount (Z.of_nat (String.length (document 2500))) 1000 200.
Proof.
  apply (chunkText_count (document 2500) 1000 200 2500); [lia|].
  replace (String.length (document 2500)) with 2500%nat by (vm_compute; reflexivity).
  lia.
Defined.

End ChunkerWindows.

(* ================================================================== *)
(** ** More on indexing and retrieval *)

Module RagRanking.
Import Rag.

Section OverNumbers.

Variable number : Type.
Variable nzero : number.
Variables nadd nmul ndiv : number -> number -> number.
Variable nsqrt : number -> number.
Variable neqb : number -> number -> bool.
Variable ngtb : number -> number -> bool.

Lemma dotNorms_swap :
  (forall x y, nmul x y = nmul y x) ->
  forall vecA vecB dotProduct normA normB,
    dotNorms number nadd nmul vecB vecA (dotProduct, normB, normA) =
    (let '(d, a, b) := dotNorms number nadd nmul vecA vecB (dotProduct, normA, normB)
     in (d, b, a)).
Proof.
  intros Hcomm. induction vecA as [|x vecA IH]; intros [|y vecB] d a b;
    try reflexivity.
  simpl. rewrite (Hcomm y x). apply IH.
Qed.

(** X4: the cosine similarity is symmetric in its two vectors, given that
    the multiplication of numbers is commutative. *)
Theorem calculateCosineSimilarity_symmetric (vecA vecB : list number) :
  (forall x y, nmul x y = nmul y x) ->
  calculateCosineSimilarity number nzero nadd nmul ndiv nsqrt neqb vecA vecB =
  calculateCosineSimilarity number nzero nadd nmul ndiv nsqrt neqb vecB vecA.
Proof.
  intros Hcomm. unfold calculateCosineSimilarity.
  destruct (Nat.eqb_spec (List.length vecA) (List.length vecB)) as [Heq|Hneq].
  - rewrite <- Heq, Nat.eqb_refl. simpl.
    destruct (Nat.eqb (List.length vecA) 0); [reflexivity|].
    rewrite (dotNorms_swap Hcomm vecA vecB).
    destruct (dotNorms number nadd nmul vecA vecB (nzero, nzero, nzero))
      as [[d a] b].
    rewrite (orb_comm (neqb b nzero)).
    destruct (neqb a nzero || neqb b nzero); [reflexivity|].
    now rewrite (Hcomm (nsqrt b)).
  - destruct (Nat.eqb_spec (List.length vecB) (List.length vecA)); [congruence|].
    reflexivity.
Qed.

Lemma insertScored_perm (x : Scored number) (l : list (Scored number)) :
  Permutation (insertScored number ngtb x l) (x :: l).
Proof.
  induction l as [|y l IH]; simpl; [apply Permutation_refl|].
  destruct (ngtb (snd y) (snd x)); [|apply Permutation_refl].
  eapply perm_trans; [apply perm_skip, IH | apply perm_swap].
Qed.

Lemma sortScored_perm (l : list (Scored number)) :
  Permutation (sortScored number ngtb l) l.
Proof.
  induction l as [|x l IH]; simpl; [constructor|].
  eapply perm_trans; [apply insertScored_perm | apply perm_skip, IH].
Qed.

Lemma insertScored_ranked (x : Scored number) (l : list (Scored number)) :
  (forall a b, ngtb a b = true -> ngtb b a = false) ->
  ranked number ngtb l -> ranked number ngtb (insertScored number ngtb x l).
Proof.
  intros Hasym. induction l as [|y l IH]; intros Hl; simpl; [exact I|].
  destruct (ngtb (snd y) (snd x)) eqn:Hyx.
  - assert (Htl : ranked number ngtb l) by (destruct l; [exact I | apply Hl]).
    specialize (IH Htl).
    destruct l as [|z l]; simpl in *.
    + split; [apply Hasym; exact Hyx | exact I].
    + destruct (ngtb (snd z) (snd x)) eqn:Hzx.
      * split; [apply Hl | exact IH].
      * split; [apply Hasym; exact Hyx | exact IH].
  - split; [exact Hyx | exact Hl].
Qed.

Lemma sortScored_ranked (l : list (Scored number)) :
  (forall a b, ngtb a b = true -> ngtb b a = false) ->
  ranked number ngtb (sortScored number ngtb l).
Proof.
  intros Hasym. induction l as [|x l IH]; simpl; [exact I|].
  apply insertScored_ranked; assumption.
Qed.

(** X5: the sort of the scored chunks keeps a list that is already
    ranked as it is; in particular chunks with equal scores stay in their
    input order. *)
Theorem sortScored_keeps_ranked (l : list (Scored number)) :
  ranked number ngtb l -> sortScored number ngtb l = l.
Proof.
  induction l as [|x l IH]; intros Hl; [reflexivity|].
  simpl. rewrite IH by (destruct l; [exact I | apply Hl]).
  destruct l as [|y l]; [reflexivity|].
  simpl. destruct Hl as [Hyx _]. now rewrite Hyx.
Qed.

Ltac run :=
  unfold generateEmbedding, getVectorChunksBySource, saveVectorChunks,
    randomUUID, nowISO, readFileAsText, logger;
  unfold record, storeOp;
  unfold bind, tryCatch, ret, throw, lift, modify, gets, logged; simpl.

(** Reading the linked sources, when the store answers every read. *)
Lemma loadChunks_reads : forall (ids : list string) (acc : list (VectorChunk number))
                                (w : World number),
  (forall j, (j < List.length ids)%nat -> storeFault w (storeOps w + j) = None) ->
  exists w',
    loadChunks ids acc w = (Normal (acc ++ linkedChunks (store w) ids), w') /\
    store w' = store w /\
    embedCalls w' = embedCalls w /\
    storeOps w' = (storeOps w + List.length ids)%nat /\
    trace w' = trace w ++ map EvGet ids.
Proof.
  induction ids as [|sid ids IH]; intros acc w Hok.
  - exists w. simpl. unfold ret. rewrite !app_nil_r, Nat.add_0_r. repeat split.
  - simpl. run.
    pose proof (Hok 0%nat ltac:(simpl; lia)) as H0. rewrite Nat.add_0_r in H0.
    rewrite H0.
    match goal with
    | |- context [loadChunks ids ?acc' ?w1] =>
        destruct (IH acc' w1) as (w' & Hrun & Hst & Hemb & Hops & Htr)
    end.
    { intros j Hj. simpl. rewrite <- (Hok (S j)) by (simpl; lia). f_equal. lia. }
    simpl in Hrun, Hst, Hemb, Hops, Htr.
    exists w'. rewrite Hrun, Hst, Hemb, Hops, Htr.
    unfold linkedChunks. simpl. rewrite <- !app_assoc. repeat split. lia.
Qed.

Lemma firstn_clamped {A} (l : list A) (k : Z) :
  0 <= k -> takeSlice l k = firstn (Z.to_nat k) l.
Proof.
  intros Hk. unfold takeSlice, clampIndex.
  destruct (Z.ltb_spec k 0); [lia|].
  destruct (Z_le_gt_dec k (Z.of_nat (List.length l))).
  - f_equal. lia.
  - rewrite !firstn_all2 by lia. reflexivity.
Qed.

(** X6: when the query is embedded and the store answers, the result of
    [findRelevantContext] is [null] if the linked sources hold no chunk,
    and otherwise the contents, joined by the separator, of the first
    [topK] entries of a ranking of all chunks of the linked sources: a
    permutation of the chunks with their similarity to the query in which
    no entry is followed by a strictly better one.  One embedding call is
    made and the store is unchanged. *)
Theorem findRelevantContext_ranked
        (query : string) (character : Character) (topK : Z) (w : World number)
        (cfg : EmbeddingConfig) (ids : list string) (queryEmbedding : list number) :
  (forall a b, ngtb a b = true -> ngtb b a = false) ->
  embeddingConfig character = Some cfg ->
  knowledgeSourceIds character = Some ids ->
  ids <> [] ->
  embedScript w (embedCalls w) query cfg = inl queryEmbedding ->
  (forall j, (j < List.length ids)%nat -> storeFault w (storeOps w + j) = None) ->
  0 <= topK ->
  let allChunks := linkedChunks (store w) ids in
  let score chunk :=
    (chunk, calculateCosineSimilarity number nzero nadd nmul ndiv nsqrt neqb
              queryEmbedding (embedding number chunk)) in
  exists result w',
    findRelevantContext number nzero nadd nmul ndiv nsqrt neqb ngtb
      query character topK w = (Normal result, w') /\
    store w' = store w /\
    embedCalls w' = S (embedCalls w) /\
    (allChunks = [] -> result = None) /\
    (allChunks <> [] ->
       exists sorted,
         Permutation sorted (map score allChunks) /\
         ranked number ngtb sorted /\
         result = Some (String.concat separator
                          (map (fun sc => content number (fst sc))
                               (firstn (Z.to_nat topK) sorted)))).
Proof.
  intros Hasym Hcfg Hids Hne Hemb Hstore HtopK allChunks score.
  unfold findRelevantContext. rewrite Hcfg, Hids.
  destruct (Nat.eqb_spec (List.length ids) 0) as [Hlen|_].
  { destruct ids; [congruence | discriminate]. }
  run. rewrite Hemb.
  match goal with
  | |- context [loadChunks ids [] ?w1] =>
      destruct (loadChunks_reads ids [] w1) as (w2 & Hrun & Hst & He & _ & _);
        [exact Hstore|]
  end.
  simpl in Hrun, Hst, He. rewrite Hrun. fold allChunks.
  destruct (Nat.eqb_spec (List.length allChunks) 0) as [Hnone|Hsome].
  - eexists _, _. split; [reflexivity|]. simpl.
    split; [exact Hst|]. split; [exact He|].
    split; [reflexivity|].
    intros H. destruct allChunks; [congruence | discriminate].
  - eexists _, _. split; [reflexivity|]. simpl.
    split; [exact Hst|]. split; [exact He|].
    split; [intros H; rewrite H in Hsome; simpl in Hsome; congruence|].
    intros _. eexists. split; [apply sortScored_perm|].
    split; [apply sortScored_ranked; exact Hasym|].
    rewrite firstn_clamped by exact HtopK. reflexivity.
Qed.

Lemma loadChunks_events (query : string) (cfg : option EmbeddingConfig)
      (ids0 : list string) :
  forall (ids : list string) (acc : list (VectorChunk number)) (w : World number),
    incl ids ids0 ->
    exists extra,
      trace (snd (loadChunks ids acc w)) = trace w ++ extra /\
      Forall (retrievalEvent query cfg ids0) extra.
Proof.
  induction ids as [|sid ids IH]; intros acc w Hincl.
  - exists []. simpl. rewrite app_nil_r. split; [reflexivity | constructor].
  - simpl. run.
    assert (Hsid : retrievalEvent query cfg ids0 (EvGet sid : Event number)).
    { simpl. apply Hincl. left. reflexivity. }
    destruct (storeFault w (storeOps w)).
    + exists [EvGet sid]. simpl. split; [reflexivity | constructor; [exact Hsid | constructor]].
    + match goal with
      | |- context [loadChunks ids ?acc' ?w1] =>
          destruct (IH acc' w1) as (extra & Htr & Hall)
      end.
      { intros x Hx. apply Hincl. right. exact Hx. }
      simpl in Htr. exists (EvGet sid :: extra). split.
      * rewrite Htr, <- app_assoc. reflexivity.
      * constructor; assumption.
Qed.

(** X7: whatever happens, a retrieval only logs, embeds the query with
    the character's configuration and reads the chunks of the character's
    linked sources: it never saves or deletes chunks and never reads a
    source the character is not linked to. *)
Theorem findRelevantContext_only_reads
        (query : string) (character : Character) (topK : Z) (w : World number) :
  let ids := match knowledgeSourceIds character with Some l => l | None => [] end in
  exists extra,
    trace (snd (findRelevantContext number nzero nadd nmul ndiv nsqrt neqb ngtb
                  query character topK w)) = trace w ++ extra /\
    Forall (retrievalEvent query (embeddingConfig character) ids) extra.
Proof.
  intros ids. unfold findRelevantContext. fold ids.
  destruct (embeddingConfig character) as [cfg|].
  - destruct (Nat.eqb (List.length ids) 0).
    + exists []. simpl. rewrite app_nil_r. split; [reflexivity | constructor].
    + run.
      assert (Hemb : retrievalEvent query (Some cfg) ids (EvEmbed query cfg : Event number)).
      { simpl. auto. }
      destruct (embedScript w (embedCalls w) query cfg) as [qe|e].
      * match goal with
        | |- context [loadChunks ids [] ?w1] =>
            destruct (loadChunks_events query (Some cfg) ids ids [] w1
                        (incl_refl ids)) as (extra & Htr & Hall);
            destruct (loadChunks ids [] w1) as [[all|e|] w2]
        end; simpl in Htr.
        -- destruct (Nat.eqb (List.length all) 0); simpl;
             (eexists (EvEmbed query cfg :: extra ++ [_]); split;
              [rewrite Htr, <- !app_assoc; reflexivity|];
              constructor; [exact Hemb|];
              apply Forall_app; split; [exact Hall | constructor; [exact I | constructor]]).
        -- simpl. eexists (EvEmbed query cfg :: extra ++ [_]). split;
             [rewrite Htr, <- !app_assoc; reflexivity|].
           constructor; [exact Hemb|].
           apply Forall_app; split; [exact Hall | constructor; [exact I | constructor]].
        -- simpl. exists (EvEmbed query cfg :: extra). split;
             [rewrite Htr, <- !app_assoc; reflexivity|].
           constructor; assumption.
      * simpl. eexists [EvEmbed query cfg; _]. split;
          [rewrite <- app_assoc; reflexivity|].
        constructor; [exact Hemb | constructor; [exact I | constructor]].
  - run. eexists [_]. split; [reflexivity|]. constructor; [exact I | constructor].
Qed.

(** X8: when the embedding of the query fails, [findRelevantContext]
    rethrows the provider's error unchanged after logging it, and does not
    consult the store. *)
Theorem findRelevantContext_embedding_failure
        (query : string) (character : Character) (topK : Z) (w : World number)
        (cfg : EmbeddingConfig) (ids : list string) (e : Value) :
  embeddingConfig character = Some cfg ->
  knowledgeSourceIds character = Some ids ->
  ids <> [] ->
  embedScript w (embedCalls w) query cfg = inr e ->
  exists w',
    findRelevantContext number nzero nadd nmul ndiv nsqrt neqb ngtb
      query character topK w = (Throw e, w') /\
    storeOps w' = storeOps w /\
    trace w' = trace w ++ [EvEmbed query cfg;
                           EvLog LogError "Error finding relevant context:"].
Proof.
  intros Hcfg Hids Hne Hemb.
  unfold findRelevantContext. rewrite Hcfg, Hids.
  destruct (Nat.eqb_spec (List.length ids) 0) as [Hlen|_].
  { destruct ids; [congruence | discriminate]. }
  run. rewrite Hemb. simpl.
  eexists. split; [reflexivity|]. simpl. rewrite <- app_assoc. split; reflexivity.
Qed.

(** The embedding loop, when the provider answers for every chunk. *)
Lemma embedChunks_all (sid : string) (cfg : EmbeddingConfig) (total : nat) :
  forall (rest : list string) (embeddings : list (list number)) (i : nat)
         (acc : list (VectorChunk number)) (w : World number),
    List.length embeddings = List.length rest ->
    (forall j chunk emb,
       nth_error rest j = Some chunk -> nth_error embeddings j = Some emb ->
       embedScript w (embedCalls w + j) chunk cfg = inl emb) ->
    exists w',
      embedChunks showProgress sid cfg total i rest acc w =
        (Normal (acc ++ vectorChunksOf sid (uuids w) (uuidsDrawn w) rest embeddings), w') /\
      store w' = store w /\
      storeOps w' = storeOps w /\
      storeFault w' = storeFault w /\
      embedCalls w' = (embedCalls w + List.length rest)%nat /\
      exists extra,
        trace w' = trace w ++ extra /\
        forall cs, ~ In (EvSave cs) extra.
Proof.
  induction rest as [|chunk rest IH]; intros [|emb embeddings] i acc w Hlen Hok;
    try discriminate.
  - exists w. simpl. unfold ret. rewrite app_nil_r, Nat.add_0_r.
    repeat split. exists []. rewrite app_nil_r. split; [reflexivity|]. intros cs [].
  - pose proof (Hok 0%nat chunk emb eq_refl eq_refl) as H0.
    rewrite Nat.add_0_r in H0.
    simpl. run. rewrite H0.
    match goal with
    | |- context [embedChunks _ _ _ _ ?i' _ ?acc' ?w1] =>
        destruct (IH embeddings i' acc' w1)
          as (w' & Hrun & Hst & Hops & Hfault & Hemb & extra & Htr & Hns)
    end.
    { simpl in Hlen. lia. }
    { intros j c v Hc Hv. simpl.
      rewrite <- (Hok (S j) c v Hc Hv). f_equal. lia. }
    simpl in Hrun, Hst, Hops, Hfault, Hemb, Htr.
    exists w'. rewrite Hrun, <- app_assoc. simpl.
    split; [reflexivity|].
    split; [exact Hst|]. split; [exact Hops|]. split; [exact Hfault|].
    split; [lia|].
    eexists. rewrite Htr, <- !app_assoc. split; [reflexivity|].
    intros cs Hin. simpl in Hin.
    destruct Hin as [H|[H|Hin]]; try discriminate. exact (Hns cs Hin).
Qed.

(** X9: when the file is read, the provider embeds every chunk and the
    store accepts the write, [processAndIndexFile] returns the new source
    and saves, in one call, one record per chunk in document order, each
    with the source's id, the chunk's text and that chunk's embedding;
    the provider is called once per chunk. *)
Theorem processAndIndexFile_saves_all
        (file : File) (cfg : EmbeddingConfig) (w : World number)
        (content : string) (chunks : list string) (embeddings : list (list number)) :
  fileText file = inl content ->
  Chunker.chunkText (String.length content) content
    Chunker.defaultChunkSize Chunker.defaultOverlap = Normal chunks ->
  List.length embeddings = List.length chunks ->
  (forall j chunk emb,
     nth_error chunks j = Some chunk -> nth_error embeddings j = Some emb ->
     embedScript w (embedCalls w + j) chunk cfg = inl emb) ->
  storeFault w (storeOps w) = None ->
  let newSource :=
    {| id := ("source-" ++ uuids w (uuidsDrawn w))%string; fileName := name file;
       fileType := type file; createdAt := isoNow w |} in
  let saved :=
    vectorChunksOf (id newSource) (uuids w) (S (uuidsDrawn w)) chunks embeddings in
  exists w',
    processAndIndexFile file cfg showProgress w = (Normal newSource, w') /\
    store w' = store w ++ saved /\
    embedCalls w' = (embedCalls w + List.length chunks)%nat /\
    exists before after,
      trace w' = trace w ++ before ++ [EvSave saved] ++ after /\
      (forall cs, ~ In (EvSave cs) before) /\
      (forall cs, ~ In (EvSave cs) after).
Proof.
  intros Hfile Hchunks Hlen Hok Hstore newSource saved.
  unfold processAndIndexFile.
  run. rewrite Hfile. run. rewrite Hchunks.
  match goal with
  | |- context [embedChunks _ ?sid _ ?total ?i _ ?acc ?w1] =>
      destruct (embedChunks_all sid cfg total chunks embeddings i acc w1 Hlen)
        as (w2 & Hrun & Hst & Hops & Hfault & Hemb & extra & Htr & Hns)
  end.
  { exact Hok. }
  simpl in Hrun, Hst, Hops, Hfault, Hemb, Htr.
  rewrite Hrun. rewrite Hfault, Hops, Hstore. simpl.
  eexists. split; [reflexivity|]. simpl.
  split; [rewrite Hst; reflexivity|]. split; [exact Hemb|].
  eexists (_ :: _ :: _ :: extra ++ [_]), [_].
  rewrite Htr, <- !app_assoc. simpl. rewrite <- !app_assoc. simpl.
  split; [reflexivity|]. split.
  - intros cs Hin. simpl in Hin.
    destruct Hin as [H|[H|[H|Hin]]]; try discriminate.
    apply in_app_or in Hin. destruct Hin as [Hin|[H|[]]]; [|discriminate].
    exact (Hns cs Hin).
  - intros cs [H|[]]. discriminate.
Qed.

(** X10: a file that cannot be read fails the job with the reader's
    error before anything else is done: no embedding call, no store
    operation, one progress report. *)
Theorem processAndIndexFile_unreadable
        (file : File) (cfg : EmbeddingConfig) (w : World number) (e : Value) :
  fileText file = inr e ->
  exists w',
    processAndIndexFile file cfg showProgress w = (Throw e, w') /\
    embedCalls w' = embedCalls w /\
    storeOps w' = storeOps w /\
    store w' = store w /\
    trace w' = trace w ++ [EvProgress ("Reading file: " ++ name file ++ "...")%string].
Proof.
  intros Hfile. unfold processAndIndexFile. run. rewrite Hfile.
  eexists. split; [reflexivity|]. repeat split.
Qed.

End OverNumbers.

Lemma calculateCosineSimilarity_symmetric_witness :
  calculateCosineSimilarity Z 0 Z.add Z.mul Z.div Z.sqrt Z.eqb [3; 4] [4; 3] =
  calculateCosineSimilarity Z 0 Z.add Z.mul Z.div Z.sqrt Z.eqb [4; 3] [3; 4].
Proof.
  apply (calculateCosineSimilarity_symmetric Z 0 Z.add Z.mul Z.div Z.sqrt Z.eqb).
  intros x y. apply Z.mul_comm.
Defined.

Lemma sortScored_keeps_ranked_witness :
  sortScored Z Z.gtb (map (fun c => (c, 5)) sampleStore)
  = map (fun c => (c, 5)) sampleStore.
Proof.
  apply (sortScored_keeps_ranked Z Z.gtb). simpl. repeat split.
Defined.

Lemma findRelevantContext_ranked_witness :
  let allChunks := linkedChunks (store sampleWorldWithStore) ["s1"] in
  let score (chunk : VectorChunk Z) :=
    (chunk, calculateCosineSimilarity Z 0 Z.add Z.mul Z.div Z.sqrt Z.eqb
              [1; 0] (embedding Z chunk)) in
  exists result w',
    findRelevantContext Z 0 Z.add Z.mul Z.div Z.sqrt Z.eqb Z.gtb
      "what is alpha?" sampleCharacter 3 sampleWorldWithStore = (Normal result, w') /\
    store w' = store sampleWorldWithStore /\
    embedCalls w' = 1%nat /\
    (allChunks = [] -> result = None) /\
    (allChunks <> [] ->
       exists sorted,
         Permutation sorted (map score allChunks) /\
         ranked Z Z.gtb sorted /\
         result = Some (String.concat separator
                          (map (fun sc => content Z (fst sc))
                               (firstn (Z.to_nat 3) sorted)))).
Proof.
  apply (findRelevantContext_ranked Z 0 Z.add Z.mul Z.div Z.sqrt Z.eqb Z.gtb
           "what is alpha?" sampleCharacter 3 sampleWorldWithStore
           sampleConfig ["s1"] [1; 0]).
  - intros a b H. apply Z.gtb_lt in H. destruct (Z.gtb_spec b a); [lia | reflexivity].
  - reflexivity.
  - reflexivity.
  - discriminate.
  - reflexivity.
  - intros j Hj. reflexivity.
  - lia.
Defined.

Example findRelevantContext_sample :
  fst (findRelevantContext Z 0 Z.add Z.mul Z.div Z.sqrt Z.eqb Z.gtb
         "what is alpha?" sampleCharacter 1 sampleWorldWithStore)
  = Normal (Some "alpha").
Proof. reflexivity. Qed.

Lemma findRelevantContext_embedding_failure_witness :
  exists w',
    findRelevantContext Z 0 Z.add Z.mul Z.div Z.sqrt Z.eqb Z.gtb
      "what is alpha?" sampleCharacter 3 (sampleWorld providerDown)
      = (Throw (newError "503 Service Unavailable"), w') /\
    storeOps w' = 0%nat /\
    trace w' = [] ++ [EvEmbed "what is alpha?" sampleConfig;
                      EvLog LogError "Error finding relevant context:"].
Proof.
  apply (findRelevantContext_embedding_failure Z 0 Z.add Z.mul Z.div Z.sqrt Z.eqb Z.gtb
           "what is alpha?" sampleCharacter 3 (sampleWorld providerDown)
           sampleConfig ["s1"]); try reflexivity. discriminate.
Defined.

Lemma processAndIndexFile_saves_all_witness :
  let w := sampleWorld (providerFailsFrom 5) in
  let newSource :=
    {| id := "source-0"; fileName := "notes.txt"; fileType := "text/plain";
       createdAt := "2025-01-01T00:00:00.000Z" |} in
  let saved :=
    vectorChunksOf "source-0" (uuids w) 1
      [slice (Chunker.document 1500) 0 1000; slice (Chunker.document 1500) 800 1500]
      [[1; 0]; [1; 0]] in
  exists w',
    processAndIndexFile (sampleFile (Chunker.document 1500)) sampleConfig
      showProgress w = (Normal newSource, w') /\
    store w' = [] ++ saved /\
    embedCalls w' = (0 + 2)%nat /\
    exists before after,
      trace w' = [] ++ before ++ [EvSave saved] ++ after /\
      (forall cs, ~ In (EvSave cs) before) /\
      (forall cs, ~ In (EvSave cs) after).
Proof.
  apply (processAndIndexFile_saves_all Z (sampleFile (Chunker.document 1500))
           sampleConfig (sampleWorld (providerFailsFrom 5)) (Chunker.document 1500)
           [slice (Chunker.document 1500) 0 1000; slice (Chunker.document 1500) 800 1500]
           [[1; 0]; [1; 0]]).
  - reflexivity.
  - vm_compute. reflexivity.
  - reflexivity.
  - intros [|[|j]] chunk emb Hc He; simpl in He; [| |destruct j; discriminate];
      injection He as <-; reflexivity.
  - reflexivity.
Defined.

Lemma processAndIndexFile_unreadable_witness :
  exists w',
    processAndIndexFile unreadableFile sampleConfig showProgress
      (sampleWorld providerDown) = (Throw (newError "NotReadableError"), w') /\
    embedCalls w' = 0%nat /\
    storeOps w' = 0%nat /\
    store w' = [] /\
    trace w' = [] ++ [EvProgress "Reading file: notes.txt..."].
Proof.
  apply (processAndIndexFile_unreadable Z unreadableFile sampleConfig
           (sampleWorld providerDown) (newError "NotReadableError")).
  reflexivity.
Defined.

End RagRanking.

(* ================================================================== *)
(** ** More on retrying: recovery, bounds and backoff growth *)

Module RetryBounds.
Import Gemini.

Ltac run :=
  unfold bind, tryCatch, ret, throw, lift, modify, gets, logger, random, sleep,
    scripted; simpl.

(** After [k] transient failures a success is returned. *)
Lemma retryLoop_recovers {T} (script : nat -> T + Value) maxRetries initialDelay (v : T) :
  forall k attempt w fuel,
    (forall j, (j < k)%nat ->
       exists e, script (opCalls w + j)%nat = inr e /\ isRateLimitError e = true) ->
    script (opCalls w + k)%nat = inl v ->
    attempt + Z.of_nat k < maxRetries ->
    (k < fuel)%nat ->
    exists w',
      retryLoop fuel (scripted script) maxRetries initialDelay attempt w
        = (Normal v, w') /\
      opCalls w' = (opCalls w + S k)%nat /\
      slept w' = slept w ++ backoffs initialDelay attempt w k.
Proof.
  induction k as [|k IH]; intros attempt w fuel Hfail Hok Hatt Hfuel;
    (destruct fuel as [|fuel]; [lia|]);
    rewrite RetryFacts.retryLoop_unfold;
    (destruct (Z.ltb_spec attempt maxRetries); [|lia]).
  - rewrite Nat.add_0_r in Hok. run. rewrite Hok.
    eexists. split; [reflexivity|]. simpl.
    rewrite app_nil_r. split; [lia | reflexivity].
  - destruct (Hfail 0%nat ltac:(lia)) as (e & He & Htr).
    rewrite Nat.add_0_r in He. run. rewrite He, Htr.
    destruct (Z.geb_spec (attempt + 1) maxRetries); [lia|]. simpl.
    fold (scripted script).
    match goal with
    | |- context [retryLoop fuel _ _ _ _ ?w1] =>
        set (w2 := w1);
        destruct (IH (attempt + 1) w2 fuel) as (w' & Hrun & Hops & Hsl);
        [ | | lia | lia | ];
        pose proof (RetryFacts.backoffs_succ initialDelay attempt w k w2 eq_refl eq_refl)
          as Hb
    end.
    + intros j Hj. change (opCalls w2) with (S (opCalls w)).
      destruct (Hfail (S j) ltac:(lia)) as (e' & He' & Htr').
      exists e'. split; [rewrite <- He'; f_equal; lia | exact Htr'].
    + change (opCalls w2) with (S (opCalls w)). rewrite <- Hok. f_equal. lia.
    + change (opCalls w2) with (S (opCalls w)) in Hops.
      change (slept w2) with (slept w ++ [backoffDelay initialDelay attempt
                                           (randoms w (randomsDrawn w))]) in Hsl.
      exists w'. split; [exact Hrun|]. split; [lia|].
      rewrite Hsl, Hb, <- app_assoc. reflexivity.
Qed.

(** X11: when the operation fails [k] times with transient errors and
    then succeeds, and [k + 1] attempts are allowed, [withRetry] returns
    the result after exactly [k + 1] calls and [k] sleeps, the sleeps
    being the backoff delays of attempts 0 .. k-1. *)
Theorem withRetry_recovers (T : Type) (script : nat -> T + Value)
        (maxRetries initialDelay : Z) (w : World) (k : nat) (v : T) :
  (forall j, (j < k)%nat ->
     exists e, script (opCalls w + j)%nat = inr e /\ isRateLimitError e = true) ->
  script (opCalls w + k)%nat = inl v ->
  Z.of_nat k < maxRetries ->
  exists w',
    withRetry (scripted script) maxRetries initialDelay w = (Normal v, w') /\
    opCalls w' = (opCalls w + S k)%nat /\
    slept w' = slept w ++ backoffs initialDelay 0 w k /\
    List.length (backoffs initialDelay 0 w k) = k.
Proof.
  intros Hfail Hok Hk. unfold withRetry.
  destruct (retryLoop_recovers script maxRetries initialDelay v k 0 w
              (Z.to_nat maxRetries) Hfail Hok ltac:(lia) ltac:(lia))
    as (w' & Hrun & Hops & Hsl).
  exists w'. repeat split; try assumption.
  unfold backoffs. now rewrite length_map, length_seq.
Qed.

(** The loop never makes more calls than attempts remain, and sleeps
    only between calls. *)
Lemma retryLoop_bounded {T} (script : nat -> T + Value) maxRetries initialDelay :
  forall fuel attempt w,
    (Z.to_nat (maxRetries - attempt) <= fuel)%nat ->
    let w' := snd (retryLoop fuel (scripted script) maxRetries initialDelay attempt w) in
    exists calls sleeps,
      opCalls w' = (opCalls w + calls)%nat /\
      slept w' = slept w ++ sleeps /\
      randomsDrawn w' = (randomsDrawn w + List.length sleeps)%nat /\
      (calls <= Z.to_nat (maxRetries - attempt))%nat /\
      (List.length sleeps <= calls - 1)%nat.
Proof.
  induction fuel as [|fuel IH]; intros attempt w Hfuel; cbv zeta;
    rewrite RetryFacts.retryLoop_unfold;
    destruct (Z.ltb_spec attempt maxRetries) as [Hlt|Hge];
    try lia;
    try (simpl; exists 0%nat, []; rewrite app_nil_r, !Nat.add_0_r;
         repeat split; simpl; lia).
  run. destruct (script (opCalls w)) as [v|e]; simpl.
  - exists 1%nat, []. rewrite app_nil_r. repeat split; simpl; lia.
  - destruct (isRateLimitError e); simpl.
    + destruct (Z.geb_spec (attempt + 1) maxRetries); simpl.
      * exists 1%nat, []. rewrite app_nil_r. repeat split; simpl; lia.
      * fold (scripted script).
        match goal with
        | |- context [retryLoop fuel _ _ _ _ ?w1] =>
            set (w2 := w1);
            destruct (IH (attempt + 1) w2 ltac:(lia))
              as (calls & sleeps & Hc & Hs & Hr & Hb1 & Hb2);
            pose proof (RetryFacts.retryLoop_calls script maxRetries initialDelay
                          fuel (attempt + 1) w2) as (_ & Hcall & _)
        end.
        specialize (Hcall ltac:(lia) ltac:(lia)).
        change (opCalls w2) with (S (opCalls w)) in Hc, Hcall.
        change (randomsDrawn w2) with (S (randomsDrawn w)) in Hr.
        change (slept w2) with (slept w ++ [backoffDelay initialDelay attempt
                                             (randoms w (randomsDrawn w))]) in Hs.
        exists (S calls), (backoffDelay initialDelay attempt (randoms w (randomsDrawn w))
                           :: sleeps).
        rewrite Hc, Hs, Hr, <- app_assoc. simpl.
        repeat split; lia.
    + exists 1%nat, []. rewrite app_nil_r. repeat split; simpl; lia.
Qed.

(** X12: whatever the operation does, [withRetry] calls it at most
    [maxRetries] times, sleeps only between two calls (fewer sleeps than
    calls) and draws one random jitter per sleep. *)
Theorem withRetry_bounded (T : Type) (script : nat -> T + Value)
        (maxRetries initialDelay : Z) (w : World) :
  let w' := snd (withRetry (scripted script) maxRetries initialDelay w) in
  exists calls sleeps,
    opCalls w' = (opCalls w + calls)%nat /\
    slept w' = slept w ++ sleeps /\
    randomsDrawn w' = (randomsDrawn w + List.length sleeps)%nat /\
    (calls <= Z.to_nat maxRetries)%nat /\
    (List.length sleeps <= calls - 1)%nat.
Proof.
  cbv zeta. unfold withRetry.
  destruct (retryLoop_bounded script maxRetries initialDelay (Z.to_nat maxRetries) 0 w
              ltac:(lia)) as (calls & sleeps & H).
  exists calls, sleeps. rewrite Z.sub_0_r in H. exact H.
Qed.




Lemma withRetry_recovers_witness :
  exists w',
    withRetry (scripted (failsThenSucceeds 2 (newError "429 Too Many Requests") tt))
      3 2000 sampleWorld = (Normal tt, w') /\
    opCalls w' = 3%nat /\
    slept w' = [] ++ backoffs 2000 0 sampleWorld 2 /\
    List.length (backoffs 2000 0 sampleWorld 2) = 2%nat.
Proof.
  apply (withRetry_recovers unit
           (failsThenSucceeds 2 (newError "429 Too Many Requests") tt)
           3 2000 sampleWorld 2 tt).
  - intros j Hj. exists (newError "429 Too Many Requests").
    destruct j as [|[|j]]; [split; reflexivity | split; reflexivity | lia].
  - reflexivity.
  - lia.
Defined.


(** One fetch answered with a status other than 429. *)
Lemma fetchWithRetry_once (req : FetchRequest)
      (maxRetries initialDelay : Z) (w : World) (r : Response) :
  1 <= maxRetries ->
  fetchScript w (List.length (fetched w)) = inl r ->
  respStatus r <> 429 ->
  fetchWithRetry req maxRetries initialDelay w
    = (Normal r, setFetched (fetched w ++ [req]) w).
Proof.
  intros Hmax Hr Hst. unfold fetchWithRetry, withRetry.
  destruct (Z.to_nat maxRetries) as [|fuel] eqn:Hn; [lia|].
  rewrite RetryFacts.retryLoop_unfold.
  destruct (Z.ltb_spec 0 maxRetries); [|lia].
  unfold tryCatch, bind, fetch. rewrite Hr.
  destruct (Z.eqb_spec (respStatus r) 429); [contradiction | reflexivity].
Qed.

(** X14: [fetchWithRetry] hands back any response whose status is not 429
    after a single [fetch], without sleeping: other error statuses, 503
    and 500 included, are not retried. *)
Theorem fetchWithRetry_passes_response (req : FetchRequest)
        (maxRetries initialDelay : Z) (w : World) (r : Response) :
  1 <= maxRetries ->
  fetchScript w (List.length (fetched w)) = inl r ->
  respStatus r <> 429 ->
  fetchWithRetry req maxRetries initialDelay w
    = (Normal r, setFetched (fetched w ++ [req]) w).
Proof. exact (fetchWithRetry_once req maxRetries initialDelay w r). Qed.

Lemma fetchWithRetry_passes_response_witness :
  fetchWithRetry sampleRequest 3 2000
    (worldWithFetch (fun _ => inl (response 503 "Service Unavailable")))
  = (Normal (response 503 "Service Unavailable"),
     setFetched ([] ++ [sampleRequest])
       (worldWithFetch (fun _ => inl (response 503 "Service Unavailable")))).
Proof.
  apply (fetchWithRetry_passes_response sampleRequest 3 2000
           (worldWithFetch (fun _ => inl (response 503 "Service Unavailable")))
           (response 503 "Service Unavailable")); [lia | reflexivity | discriminate].
Defined.

(** Retrying a fetch that is always answered with status 429. *)
Lemma retryLoop_fetch_429 (req : FetchRequest) maxRetries initialDelay
      (script : nat -> Response + Value) :
  (forall n, exists r, script n = inl r /\ respStatus r = 429) ->
  forall n attempt w fuel,
    fetchScript w = script ->
    Z.of_nat (S n) = maxRetries - attempt ->
    (S n <= fuel)%nat ->
    exists w',
      retryLoop fuel (fetchOnce req) maxRetries initialDelay attempt w
        = (Throw (newError "429 Too Many Requests"), w') /\
      fetched w' = fetched w ++ repeat req (S n) /\
      List.length (slept w') = (List.length (slept w) + n)%nat /\
      delivered w' = delivered w.
Proof.
  intros Hall. induction n as [|n IH]; intros attempt w fuel Hs Hn Hfuel;
    (destruct fuel as [|fuel]; [lia|]);
    rewrite RetryFacts.retryLoop_unfold;
    (destruct (Z.ltb_spec attempt maxRetries); [|lia]);
    destruct (Hall (List.length (fetched w))) as (r & Hr & Hst);
    unfold tryCatch, fetchOnce, bind at 1, fetch; rewrite Hs, Hr;
    apply Z.eqb_eq in Hst; rewrite Hst;
    unfold throw at 1;
    change (isRateLimitError (newError "429 Too Many Requests")) with true; cbv iota.
  - destruct (Z.geb_spec (attempt + 1) maxRetries); [|lia].
    eexists. split; [reflexivity|]. simpl. rewrite Nat.add_0_r. repeat split.
  - destruct (Z.geb_spec (attempt + 1) maxRetries); [lia|].
    unfold bind, random, logger, sleep, modify.
    match goal with
    | |- context [retryLoop fuel _ _ _ _ ?w1] =>
        destruct (IH (attempt + 1) w1 fuel Hs ltac:(lia) ltac:(lia))
          as (w' & Hrun & Hf & Hsl & Hdel)
    end.
    simpl in Hf, Hsl, Hdel. exists w'. split; [exact Hrun|].
    split; [rewrite Hf, <- app_assoc; reflexivity|].
    split; [rewrite Hsl, length_app; simpl; lia | exact Hdel].
Qed.

(** X15: when every [fetch] is answered with status 429,
    [fetchWithRetry] sends the same request exactly [maxRetries] times,
    sleeps between two sends, and fails with the error
    "429 Too Many Requests". *)
Theorem fetchWithRetry_all_429 (req : FetchRequest)
        (maxRetries initialDelay : Z) (w : World) :
  1 <= maxRetries ->
  (forall n, exists r, fetchScript w n = inl r /\ respStatus r = 429) ->
  exists w',
    fetchWithRetry req maxRetries initialDelay w
      = (Throw (newError "429 Too Many Requests"), w') /\
    fetched w' = fetched w ++ repeat req (Z.to_nat maxRetries) /\
    List.length (slept w') = (List.length (slept w) + (Z.to_nat maxRetries - 1))%nat.
Proof.
  intros Hmax Hall. unfold fetchWithRetry, withRetry.
  destruct (Z.to_nat maxRetries) as [|n] eqn:Hn; [lia|].
  destruct (retryLoop_fetch_429 req maxRetries initialDelay (fetchScript w) Hall
              n 0 w (S n) eq_refl ltac:(lia) ltac:(lia))
    as (w' & Hrun & Hf & Hsl & _).
  exists w'. split; [exact Hrun|]. split; [exact Hf|].
  rewrite Hsl. f_equal. lia.
Qed.

Lemma fetchWithRetry_all_429_witness :
  exists w',
    fetchWithRetry sampleRequest 3 2000
      (worldWithFetch (fun _ => inl (response 429 "slow down")))
      = (Throw (newError "429 Too Many Requests"), w') /\
    fetched w' = [] ++ repeat sampleRequest (Z.to_nat 3) /\
    List.length (slept w') = (0 + (Z.to_nat 3 - 1))%nat.
Proof.
  apply (fetchWithRetry_all_429 sampleRequest 3 2000
           (worldWithFetch (fun _ => inl (response 429 "slow down")))).
  - lia.
  - intros n. eexists. split; reflexivity.
Defined.

End RetryBounds.

(* ================================================================== *)
(** ** More on the OpenAI-compatible stream: framing of the events *)

Module StreamParsing.
Import Gemini.

Lemma split_nonempty (sep : ascii) : forall s, split sep s <> [].
Proof.
  induction s as [|c s IH]; simpl; [discriminate|].
  destruct (Ascii.eqb c sep); [discriminate|].
  destruct (split sep s); [contradiction | discriminate].
Qed.

(** Splitting a string read in two pieces: the lines of the first piece
    but the last, then the lines of that last one followed by the second
    piece. *)
Lemma split_app (sep : ascii) : forall s t,
  split sep (s ++ t) =
  removelast (split sep s) ++ split sep (List.last (split sep s) "" ++ t).
Proof.
  induction s as [|c s IH]; intros t; [reflexivity|].
  simpl. destruct (Ascii.eqb c sep) eqn:Hc.
  - rewrite IH. pose proof (split_nonempty sep s) as Hne.
    destruct (split sep s) as [|x l]; [contradiction|]. reflexivity.
  - rewrite IH. pose proof (split_nonempty sep s) as Hne.
    destruct (split sep s) as [|x [|y l]]; [contradiction| |].
    + simpl. rewrite Hc. reflexivity.
    + reflexivity.
Qed.

Lemma last_app_nonempty {A} (l l' : list A) (d : A) :
  l' <> [] -> List.last (l ++ l') d = List.last l' d.
Proof.
  intros Hne. induction l as [|x l IH]; [reflexivity|].
  simpl. rewrite IH. destruct (l ++ l') eqn:H; [|reflexivity].
  apply app_eq_nil in H. destruct H. contradiction.
Qed.

Section WithParser.

Variable deltaOf : string -> string + Value.

(** Handling two batches of lines one after the other. *)
Lemma processLines_app (onChunk : string -> M World unit) :
  forall lines1 lines2 w,
    processLines deltaOf onChunk (lines1 ++ lines2) w =
    match processLines deltaOf onChunk lines1 w with
    | (Normal false, w') => processLines deltaOf onChunk lines2 w'
    | r => r
    end.
Proof.
  induction lines1 as [|line lines1 IH]; intros lines2 w; [reflexivity|].
  simpl. destruct (startsWith (trim line) "data: "); [|apply IH].
  destruct (String.eqb _ "[DONE]"); [reflexivity|].
  unfold bind at 1 3.
  destruct (tryCatch _ _ w) as [[[]|e|] w1]; [apply IH | reflexivity | reflexivity].
Qed.

(** X16: how the bytes of the response are cut into reads does not
    matter: two consecutive reads are handled exactly as one read of
    their concatenation (a line cut in two by the network is put back
    together). *)
Theorem readLoop_reads_merge (onChunk : string -> M World unit)
        (a b : string) (reads : list (string + Value)) (buffer : string) (w : World) :
  readLoop deltaOf onChunk (inl a :: inl b :: reads) buffer w =
  readLoop deltaOf onChunk (inl (a ++ b)%string :: reads) buffer w.
Proof.
  cbn [readLoop].
  rewrite <- StreamFacts.append_assoc.
  rewrite (split_app newline (buffer ++ a) b).
  set (lines1 := removelast (split newline (buffer ++ a))).
  set (rest1 := List.last (split newline (buffer ++ a)) "").
  pose proof (split_nonempty newline (rest1 ++ b)) as Hne.
  rewrite removelast_app by exact Hne.
  rewrite last_app_nonempty by exact Hne.
  unfold bind at 1 3. rewrite processLines_app.
  destruct (processLines deltaOf onChunk lines1 w) as [[[|]|e|] w1]; reflexivity.
Qed.

Lemma processLines_done : forall lines line w,
  In line lines -> trim line = "data: [DONE]" ->
  exists w', processLines deltaOf deliver lines w = (Normal true, w').
Proof.
  induction lines as [|l lines IH]; intros line w Hin Hdone; [contradiction|].
  simpl.
  destruct (startsWith (trim l) "data: ") eqn:Hstart.
  - destruct (String.eqb _ "[DONE]") eqn:Hd; [eexists; reflexivity|].
    destruct Hin as [->|Hin].
    + rewrite Hdone in Hd. discriminate.
    + unfold bind, tryCatch, lift, deliver, modify, ret.
      destruct (deltaOf _) as [c|e]; simpl;
        [destruct (nonEmpty c); simpl|]; exact (IH line _ Hin Hdone).
  - destruct Hin as [->|Hin].
    + rewrite Hdone in Hstart. discriminate.
    + exact (IH line _ Hin Hdone).
Qed.

(** X17: once a read holds a complete [data: [DONE]] line, the call
    returns normally and whatever the stream holds after that read, a
    read error included, is ignored. *)
Theorem readLoop_stops_at_done
        (value : string) (reads : list (string + Value)) (buffer line : string)
        (w : World) :
  In line (removelast (split newline (buffer ++ value))) ->
  trim line = "data: [DONE]" ->
  fst (readLoop deltaOf deliver (inl value :: reads) buffer w) = Normal tt /\
  readLoop deltaOf deliver (inl value :: reads) buffer w =
  readLoop deltaOf deliver [inl value] buffer w.
Proof.
  intros Hin Hdone. cbn [readLoop]. unfold bind.
  destruct (processLines_done _ line w Hin Hdone) as (w' & ->).
  split; reflexivity.
Qed.

(** X18: a response that is not OK (and not a 429) ends the call with
    exactly one chunk, the marker naming the status and the response
    text; a single request was sent and nothing is thrown. *)
Theorem streamOpenAIChatResponse_not_ok
        (config : ApiConfig) (systemInstruction : string) (history : list Message)
        (w : World) (r : Response) :
  fetchScript w (List.length (fetched w)) = inl r ->
  respStatus r <> 429 ->
  respOk r = false ->
  exists w',
    streamOpenAIChatResponse deltaOf config systemInstruction history deliver w
      = (Normal tt, w') /\
    delivered w' =
      delivered w ++ [("[Error: " ++ ("OpenAI API Error: " ++ showZ (respStatus r)
                                      ++ " - " ++ respText r) ++ "]")%string] /\
    List.length (fetched w') = S (List.length (fetched w)) /\
    slept w' = slept w.
Proof.
  intros Hr Hst Hok.
  unfold streamOpenAIChatResponse, tryCatch, openAIBody, bind at 1.
  rewrite (RetryBounds.fetchWithRetry_once _ 3 2000 w r) by (try assumption; lia).
  rewrite Hok. simpl negb. cbv iota.
  unfold throw at 1. unfold bind, logger, modify, deliver. simpl.
  eexists. split; [reflexivity|]. simpl.
  split; [reflexivity|]. split; [|reflexivity].
  rewrite length_app. simpl. lia.
Qed.

End WithParser.

Lemma readLoop_stops_at_done_witness :
  fst (readLoop (fun d => inl d) deliver
         [inl "data: hello
data: [DONE]
data: late
"; inr (newError "connection reset")] "" sampleWorld) = Normal tt /\
  readLoop (fun d => inl d) deliver
    [inl "data: hello
data: [DONE]
data: late
"; inr (newError "connection reset")] "" sampleWorld =
  readLoop (fun d => inl d) deliver
    [inl "data: hello
data: [DONE]
data: late
"] "" sampleWorld.
Proof.
  apply (readLoop_stops_at_done (fun d => inl d) _ _ "" "data: [DONE]").
  - simpl. right. left. reflexivity.
  - reflexivity.
Defined.

Lemma streamOpenAIChatResponse_not_ok_witness :
  exists w',
    streamOpenAIChatResponse (fun d => inl d) sampleApiConfig "You are Ada."
      [userMessage "hi"] deliver
      (worldWithFetch (fun _ => inl (response 500 "boom"))) = (Normal tt, w') /\
    delivered w' = [] ++ ["[Error: OpenAI API Error: 500 - boom]"] /\
    List.length (fetched w') = 1%nat /\
    slept w' = [].
Proof.
  apply (streamOpenAIChatResponse_not_ok (fun d => inl d) sampleApiConfig
           "You are Ada." [userMessage "hi"]
           (worldWithFetch (fun _ => inl (response 500 "boom")))
           (response 500 "boom")); [reflexivity | discriminate | reflexivity].
Defined.

End StreamParsing.

(* ================================================================== *)
(** ** More on history normalization: the shape of the result *)

Module HistoryShape.
Import Gemini.

Lemma normalizedRole_cases (m : Message) :
  normalizedRole m = "user" \/ normalizedRole m = "model".
Proof.
  unfold normalizedRole. destruct (String.eqb (role m) "model"); auto.
Qed.

Lemma maximalRuns_alternating : forall runs,
  maximalRuns runs -> alternating (map mergedTurn runs).
Proof.
  induction runs as [|run runs IH]; intros Hmax; [exact I|].
  destruct Hmax as [(m & tl & -> & _ & Hnext) Hrest].
  specialize (IH Hrest).
  destruct runs as [|run2 runs]; [exact I|].
  split; [|exact IH].
  destruct Hrest as [(m2 & tl2 & -> & _) _]. simpl. congruence.
Qed.

Lemma maximalRuns_roles : forall runs,
  maximalRuns runs ->
  Forall (fun t => turnRole t = "user" \/ turnRole t = "model") (map mergedTurn runs).
Proof.
  induction runs as [|run runs IH]; intros Hmax; [constructor|].
  destruct Hmax as [(m & tl & -> & _) Hrest].
  constructor; [apply normalizedRole_cases | exact (IH Hrest)].
Qed.

Lemma mergedTurn_parts : forall runs,
  List.concat (map parts (map mergedTurn runs))
  = List.concat (map (fun m => parts (toTurn m)) (List.concat runs)).
Proof.
  induction runs as [|run runs IH]; [reflexivity|].
  simpl. rewrite IH, map_app, concat_app. reflexivity.
Qed.

(** The runs the normalization merges. *)
Lemma normalizeGeminiHistory_runs (history : list Message) :
  exists runs,
    List.concat runs = filter isRelevant history /\
    maximalRuns runs /\
    normalizeGeminiHistory history = map mergedTurn runs.
Proof.
  unfold normalizeGeminiHistory.
  destruct (filter isRelevant history) as [|m rest] eqn:Hrel.
  - exists []. repeat split.
  - simpl. rewrite HistoryFacts.toTurn_mergedTurn.
    destruct (HistoryFacts.mergeLoop_runs rest m [] (Forall_nil _))
      as (tl' & runs & Hrun & Hcat & Hmax).
    exists ((m :: tl') :: runs). auto.
Qed.

Lemma normalizeGeminiHistory_empty (history : list Message) :
  normalizeGeminiHistory history = [] <-> filter isRelevant history = [].
Proof.
  destruct (normalizeGeminiHistory_runs history) as (runs & Hcat & Hmax & ->).
  rewrite <- Hcat. split.
  - intros H. destruct runs; [reflexivity | discriminate].
  - intros H. destruct runs as [|run runs]; [reflexivity|].
    destruct Hmax as [(m & tl & -> & _) _]. discriminate.
Qed.

(** X19: in the normalized history no two neighbouring turns have the
    same role, every role is [user] or [model], and the result is empty
    exactly when the history holds no user, model or narrator message. *)
Theorem normalizeGeminiHistory_alternates (history : list Message) :
  alternating (normalizeGeminiHistory history) /\
  Forall (fun t => turnRole t = "user" \/ turnRole t = "model")
         (normalizeGeminiHistory history) /\
  (normalizeGeminiHistory history = [] <-> filter isRelevant history = []).
Proof.
  split; [|split; [|apply normalizeGeminiHistory_empty]];
    destruct (normalizeGeminiHistory_runs history) as (runs & Hcat & Hmax & ->).
  - apply maximalRuns_alternating; exact Hmax.
  - apply maximalRuns_roles; exact Hmax.
Qed.

(** X20: normalization loses and reorders nothing: the parts of the
    turns, read in order, are the parts of the relevant messages in the
    order of the history. *)
Theorem normalizeGeminiHistory_keeps_parts (history : list Message) :
  List.concat (map parts (normalizeGeminiHistory history))
  = List.concat (map (fun m => parts (toTurn m)) (filter isRelevant history)).
Proof.
  destruct (normalizeGeminiHistory_runs history) as (runs & Hcat & _ & ->).
  rewrite mergedTurn_parts, Hcat. reflexivity.
Qed.

End HistoryShape.

(* ================================================================== *)
(** ** More on the Gemini stream *)

Module GeminiStream.
Import Gemini.

Ltac run :=
  unfold bind, tryCatch, ret, throw, lift, modify, gets, logger, random, sleep,
    deliver; simpl.

(** Creating the client when a default client is configured. *)
Lemma getAiClient_default (key : option string) (w : World) :
  hasDefaultAi w = true ->
  exists w1,
    getAiClient key w = (Normal (clientFor key), w1) /\
    delivered w1 = delivered w /\ streamed w1 = streamed w /\
    streamScript w1 = streamScript w /\ slept w1 = slept w /\
    hasDefaultAi w1 = hasDefaultAi w.
Proof.
  intros Hd. unfold getAiClient, clientFor.
  destruct key as [k|]; [destruct (nonEmpty k)|]; run; try rewrite Hd;
    eexists; (split; [reflexivity|]); repeat split; try reflexivity; exact Hd.
Qed.

(** One call to the streaming endpoint that answers. *)
Lemma withRetry_stream_once (req : StreamRequest) (w : World)
      (items : list (string + Value)) :
  streamScript w (List.length (streamed w)) = inl items ->
  withRetry (generateContentStream req) defaultMaxRetries defaultInitialDelay w
  = (Normal items, setStreamed (streamed w ++ [req]) w).
Proof.
  intros Hs. unfold withRetry, defaultMaxRetries. simpl Z.to_nat.
  rewrite RetryFacts.retryLoop_unfold. simpl.
  unfold tryCatch, generateContentStream. rewrite Hs. reflexivity.
Qed.

(** Delivering the texts of a stream. *)
Lemma consumeStream_texts : forall (texts : list string)
                                   (tail : list (string + Value)) (w : World),
  exists w',
    consumeStream deliver (map inl texts ++ tail) w = consumeStream deliver tail w' /\
    delivered w' = delivered w ++ filter nonEmpty texts /\
    streamed w' = streamed w /\ slept w' = slept w.
Proof.
  induction texts as [|t texts IH]; intros tail w.
  - exists w. simpl. rewrite app_nil_r. repeat split.
  - simpl. unfold bind. destruct (nonEmpty t); simpl.
    + destruct (IH tail (setDelivered (delivered w ++ [t]) w))
        as (w' & Hrun & Hdel & Hst & Hsl).
      exists w'. split; [exact Hrun|]. simpl in Hdel, Hst, Hsl.
      rewrite Hdel, <- app_assoc. repeat split; assumption.
    + apply IH.
Qed.

(** X21: with no default client and no usable key of the character's own
    (none, an empty one, or a service other than [gemini]), the Gemini
    path sends no request and delivers exactly one chunk, the sentence
    saying that the default key is not configured. *)
Theorem streamGeminiChatResponse_no_key
        (character : Character) (systemInstruction : string)
        (history : list Message) (w : World) :
  hasDefaultAi w = false ->
  clientFor (customApiKey character) = None ->
  exists w',
    streamGeminiChatResponse character systemInstruction history deliver w
      = (Normal tt, w') /\
    delivered w' =
      delivered w ++
      ["Sorry, an error occurred with the Gemini API: Default Gemini API key not configured. Please set a custom API key for the character or plugin."] /\
    streamed w' = streamed w.
Proof.
  intros Hd Hkey.
  unfold streamGeminiChatResponse, geminiBody. fold (customApiKey character).
  unfold clientFor in Hkey. unfold getAiClient.
  destruct (customApiKey character) as [k|].
  - destruct (nonEmpty k); [discriminate|]. run. rewrite Hd. simpl.
    eexists. split; [reflexivity|]. split; reflexivity.
  - run. rewrite Hd. simpl.
    eexists. split; [reflexivity|]. split; reflexivity.
Qed.

(** X22: with a client at hand, a history without any user, model or
    narrator message makes the Gemini path return at once: no request is
    sent and no chunk is delivered. *)
Theorem streamGeminiChatResponse_empty_history
        (character : Character) (systemInstruction : string)
        (history : list Message) (w : World) :
  hasDefaultAi w = true ->
  filter isRelevant history = [] ->
  exists w',
    streamGeminiChatResponse character systemInstruction history deliver w
      = (Normal tt, w') /\
    delivered w' = delivered w /\
    streamed w' = streamed w.
Proof.
  intros Hd Hrel.
  unfold streamGeminiChatResponse, geminiBody. fold (customApiKey character).
  destruct (getAiClient_default (customApiKey character) w Hd)
    as (w1 & Hai & Hdel & Hst & _).
  unfold tryCatch, bind at 1. rewrite Hai.
  unfold normalizeGeminiHistory. rewrite Hrel. simpl.
  unfold logger, modify. eexists. split; [reflexivity|]. simpl. auto.
Qed.

(** X23: with a client at hand and a relevant history, when the endpoint
    answers the first call with a stream, one request is sent (the
    normalized history, with the thinking model when thinking is enabled
    and the search tool only otherwise) and the non-empty texts of the
    stream are delivered in arrival order; if the stream then breaks with
    an error, the chunks delivered stand and one last chunk, the sentence
    describing the error, follows.  Nothing is thrown. *)
Theorem streamGeminiChatResponse_delivers
        (character : Character) (systemInstruction : string)
        (history : list Message) (w : World)
        (texts : list string) (ending : option Value) (rest : list (string + Value)) :
  hasDefaultAi w = true ->
  filter isRelevant history <> [] ->
  streamScript w (List.length (streamed w)) =
    inl (map inl texts ++ match ending with
                          | Some e => inr e :: rest
                          | None => []
                          end) ->
  exists w',
    streamGeminiChatResponse character systemInstruction history deliver w
      = (Normal tt, w') /\
    delivered w' =
      delivered w ++ filter nonEmpty texts ++
      match ending with Some e => [geminiErrorChunk e] | None => [] end /\
    streamed w' =
      streamed w ++ [geminiRequest character systemInstruction history
                       (clientFor (customApiKey character))] /\
    slept w' = slept w.
Proof.
  intros Hd Hrel Hs.
  unfold streamGeminiChatResponse, geminiBody. fold (customApiKey character).
  destruct (getAiClient_default (customApiKey character) w Hd)
    as (w1 & Hai & Hdel & Hst & Hscr & Hsl & _).
  unfold tryCatch, bind at 1. rewrite Hai.
  destruct (Nat.eqb_spec (List.length (normalizeGeminiHistory history)) 0) as [Hz|_].
  { exfalso. apply Hrel. apply HistoryShape.normalizeGeminiHistory_empty.
    destruct (normalizeGeminiHistory history); [reflexivity | discriminate]. }
  fold (geminiRequest character systemInstruction history (clientFor (customApiKey character))).
  set (req := geminiRequest _ _ _ _).
  unfold bind at 1, logger at 1, modify at 1.
  unfold bind at 1.
  match goal with
  | |- context [withRetry (generateContentStream req) _ _ ?w2] =>
      rewrite (withRetry_stream_once req w2 _
                 ltac:(simpl; rewrite Hscr, Hst; exact Hs))
  end.
  match goal with
  | |- context [consumeStream deliver _ ?w3] =>
      destruct (consumeStream_texts texts
                  (match ending with Some e => inr e :: rest | None => [] end) w3)
        as (w4 & Hrun & Hdel4 & Hst4 & Hsl4)
  end.
  rewrite Hrun. simpl in Hdel4, Hst4, Hsl4.
  destruct ending as [e|]; simpl.
  - unfold bind, logger, modify, deliver. simpl.
    eexists. split; [reflexivity|]. simpl.
    rewrite Hdel4, Hst4, Hsl4, Hdel, Hst, Hsl, <- app_assoc. repeat split.
  - eexists. split; [reflexivity|].
    rewrite Hdel4, Hst4, Hsl4, Hdel, Hst, Hsl, app_nil_r. repeat split.
Qed.

Lemma streamGeminiChatResponse_no_key_witness :
  exists w',
    streamGeminiChatResponse sampleCharacter "You are Ada." [userMessage "hi"]
      deliver sampleWorld = (Normal tt, w') /\
    delivered w' =
      [] ++
      ["Sorry, an error occurred with the Gemini API: Default Gemini API key not configured. Please set a custom API key for the character or plugin."] /\
    streamed w' = [].
Proof.
  apply (streamGeminiChatResponse_no_key sampleCharacter "You are Ada."
           [userMessage "hi"] sampleWorld); reflexivity.
Defined.

Lemma streamGeminiChatResponse_empty_history_witness :
  exists w',
    streamGeminiChatResponse sampleCharacter "You are Ada."
      [{| role := "system"; content := "ignored"; attachment := None |}]
      deliver sampleWorldWithKey = (Normal tt, w') /\
    delivered w' = [] /\
    streamed w' = [].
Proof.
  apply (streamGeminiChatResponse_empty_history sampleCharacter "You are Ada."
           [{| role := "system"; content := "ignored"; attachment := None |}]
           sampleWorldWithKey); reflexivity.
Defined.

Lemma streamGeminiChatResponse_delivers_witness :
  let w := worldWithStream
             (fun _ => inl [inl "Hel"; inl ""; inl "lo"; inr (newError "reset"); inl "x"]) in
  exists w',
    streamGeminiChatResponse sampleCharacter "You are Ada." [userMessage "hi"]
      deliver w = (Normal tt, w') /\
    delivered w' =
      [] ++ filter nonEmpty ["Hel"; ""; "lo"] ++ [geminiErrorChunk (newError "reset")] /\
    streamed w' =
      [] ++ [geminiRequest sampleCharacter "You are Ada." [userMessage "hi"]
               (clientFor (customApiKey sampleCharacter))] /\
    slept w' = [].
Proof.
  apply (streamGeminiChatResponse_delivers sampleCharacter "You are Ada."
           [userMessage "hi"]
           (worldWithStream
              (fun _ => inl [inl "Hel"; inl ""; inl "lo"; inr (newError "reset"); inl "x"]))
           ["Hel"; ""; "lo"] (Some (newError "reset")) [inl "x"]).
  - reflexivity.
  - discriminate.
  - reflexivity.
Defined.

Lemma genericBody_returns systemInstruction prompt key w :
  fst (genericBody systemInstruction prompt deliver key w) <> Diverge.
Proof.
  unfold genericBody.
  apply StreamFacts.bind_returns; [apply StreamFacts.getAiClient_returns|].
  intros ai w1. apply StreamFacts.bind_returns.
  - apply StreamFacts.withRetry_returns. intros w0. unfold generateContentStream.
    destruct (streamScript w0 _); discriminate.
  - intros items w2. apply StreamFacts.consumeStream_returns.
Qed.

(** X24: [streamGenericResponse] never throws and always completes; when
    its [try] block fails, whatever the error, exactly one more chunk is
    delivered, the fixed sentence "Sorry, an error occurred while
    responding.", which says nothing of the error; when the block does
    not fail nothing is added. *)
Theorem streamGenericResponse_hides_error
        (systemInstruction prompt : string) (key : option string) (w : World) :
  let out := genericBody systemInstruction prompt deliver key w in
  let call := streamGenericResponse systemInstruction prompt deliver key in
  (exists w', call w = (Normal tt, w')) /\
  (forall e, fst out = Throw e ->
     exists w',
       call w = (Normal tt, w') /\
       delivered w' =
         delivered (snd out) ++ ["Sorry, an error occurred while responding."]) /\
  ((forall e, fst out <> Throw e) -> call w = out).
Proof.
  cbv zeta.
  pose proof (genericBody_returns systemInstruction prompt key w) as Hret.
  unfold streamGenericResponse, tryCatch.
  destruct (genericBody systemInstruction prompt deliver key w)
    as [[[]|e|] w1]; simpl in *.
  - split; [eexists; reflexivity|]. split; [intros e [=]|reflexivity].
  - split; [eexists; reflexivity|]. split.
    + intros e' _. eexists. split; reflexivity.
    + intros H. exfalso. exact (H e eq_refl).
  - congruence.
Qed.

End GeminiStream.

(* ================================================================== *)
(** ** The image prompt *)

Module ImagePrompt.
Import Gemini.

Lemma prefix_append (p s : string) : prefix p (p ++ s) = true.
Proof.
  induction p as [|c p IH]; simpl; [destruct s; reflexivity|].
  destruct (ascii_dec c c); [exact IH | contradiction].
Qed.

Lemma includes_prefix (s p : string) : prefix p s = true -> includes s p = true.
Proof.
  intros H. destruct s as [|c s].
  - destruct p; [reflexivity | discriminate].
  - cbn [includes]. now rewrite H.
Qed.

Lemma includes_append (a s p : string) :
  includes s p = true -> includes (a ++ s) p = true.
Proof.
  intros H. induction a as [|c a IH]; simpl; [exact H|].
  rewrite IH. apply orb_true_r.
Qed.

(** X25: the built image prompt always contains the user's prompt
    verbatim, and it is the prompt itself when there is no negative
    prompt and the style is absent, the default one, or [Custom] without
    a custom style prompt. *)
Theorem buildImagePrompt_keeps_prompt (prompt : string) (settings : ImageSettings) :
  includes (buildImagePrompt prompt settings) prompt = true /\
  (present (negativePrompt settings) = false ->
   present (style settings) = false \/
   style settings = Some "Default (None)" \/
   (style settings = Some "Custom" /\ present (customStylePrompt settings) = false) ->
   buildImagePrompt prompt settings = prompt).
Proof.
  split.
  - unfold buildImagePrompt. apply includes_append, includes_prefix, prefix_append.
  - intros Hneg Hstyle. unfold buildImagePrompt. rewrite Hneg.
    destruct Hstyle as [Hs|[Hs|[Hs Hc]]].
    + rewrite Hs. simpl.
      induction prompt as [|c p IH]; simpl; [reflexivity | now rewrite IH].
    + rewrite Hs. simpl.
      induction prompt as [|c p IH]; simpl; [reflexivity | now rewrite IH].
    + rewrite Hs, Hc. simpl.
      induction prompt as [|c p IH]; simpl; [reflexivity | now rewrite IH].
Qed.

Example buildImagePrompt_sample :
  buildImagePrompt "a cat"
    {| style := Some "Anime"; customStylePrompt := None;
       negativePrompt := Some "blurry" |}
  = "Anime style, a cat. Negative prompt: blurry".
Proof. reflexivity. Qed.

End ImagePrompt.

(* ================================================================== *)
(** ** The orchestrator: rate limiting and dispatch *)

Module OrchestratorFacts.
Import Gemini Orchestrator.

Lemma keeps_ret {A} (a : A) : keepsSleeps (ret a).
Proof. intros w. exists []. simpl. now rewrite app_nil_r. Qed.

Lemma keeps_throw {A} (e : Value) : keepsSleeps (@throw Gemini.World A e).
Proof. intros w. exists []. simpl. now rewrite app_nil_r. Qed.

Lemma keeps_lift {A} (c : completion A) : keepsSleeps (@lift Gemini.World A c).
Proof. intros w. exists []. simpl. now rewrite app_nil_r. Qed.

Lemma keeps_logger level msg : keepsSleeps (logger level msg).
Proof. intros w. exists []. simpl. now rewrite app_nil_r. Qed.

Lemma keeps_deliver chunk : keepsSleeps (deliver chunk).
Proof. intros w. exists []. simpl. now rewrite app_nil_r. Qed.

Lemma keeps_sleep d : keepsSleeps (sleep d).
Proof. intros w. exists [d]. reflexivity. Qed.

Lemma keeps_random : keepsSleeps random.
Proof. intros w. exists []. simpl. now rewrite app_nil_r. Qed.

Lemma keeps_bind {A B} (m : M Gemini.World A) (k : A -> M Gemini.World B) :
  keepsSleeps m -> (forall a, keepsSleeps (k a)) -> keepsSleeps (bind m k).
Proof.
  intros Hm Hk w. unfold bind. destruct (Hm w) as [l1 H1].
  destruct (m w) as [[a|e|] w1]; simpl in *.
  - destruct (Hk a w1) as [l2 H2]. exists (l1 ++ l2). now rewrite H2, H1, app_assoc.
  - exists l1. exact H1.
  - exists l1. exact H1.
Qed.

Lemma keeps_tryCatch {A} (m : M Gemini.World A) (h : Value -> M Gemini.World A) :
  keepsSleeps m -> (forall e, keepsSleeps (h e)) -> keepsSleeps (tryCatch m h).
Proof.
  intros Hm Hh w. unfold tryCatch. destruct (Hm w) as [l1 H1].
  destruct (m w) as [[a|e|] w1]; simpl in *.
  - exists l1. exact H1.
  - destruct (Hh e w1) as [l2 H2]. exists (l1 ++ l2). now rewrite H2, H1, app_assoc.
  - exists l1. exact H1.
Qed.

Lemma keeps_retryLoop {T} (apiCall : M Gemini.World T) maxRetries initialDelay :
  keepsSleeps apiCall ->
  forall fuel attempt,
    keepsSleeps (retryLoop fuel apiCall maxRetries initialDelay attempt).
Proof.
  intros Hcall. induction fuel as [|fuel IH]; intros attempt;
    rewrite RetryFacts.retryLoop_unfold;
    destruct (attempt <? maxRetries);
    try apply keeps_throw; try apply keeps_lift.
  apply keeps_tryCatch; [exact Hcall|]. intros e.
  destruct (isRateLimitError e).
  - destruct (attempt + 1 >=? maxRetries).
    + apply keeps_bind; [apply keeps_logger | intros; apply keeps_throw].
    + apply keeps_bind; [apply keeps_random|]. intros rnd.
      apply keeps_bind; [apply keeps_logger|]. intros _.
      apply keeps_bind; [apply keeps_sleep|]. intros _. apply IH.
  - apply keeps_bind; [apply keeps_logger | intros; apply keeps_throw].
Qed.

Lemma keeps_consumeStream : forall items, keepsSleeps (consumeStream deliver items).
Proof.
  induction items as [|[text|e] items IH]; simpl.
  - apply keeps_ret.
  - apply keeps_bind; [|intros; exact IH].
    destruct (nonEmpty text); [apply keeps_deliver | apply keeps_ret].
  - apply keeps_throw.
Qed.

Lemma keeps_streamGemini character systemInstruction history :
  keepsSleeps (streamGeminiChatResponse character systemInstruction history deliver).
Proof.
  unfold streamGeminiChatResponse. apply keeps_tryCatch.
  - unfold geminiBody. apply keeps_bind.
    + unfold getAiClient.
      destruct (match apiConfig character with Some _ => _ | None => _ end) as [k|];
        [destruct (nonEmpty k)|];
        try (apply keeps_bind; [apply keeps_logger | intros; apply keeps_ret]);
        (apply keeps_bind;
         [intros w; exists []; simpl; now rewrite app_nil_r
         |intros [|]; [apply keeps_ret | apply keeps_throw]]).
    + intros ai. destruct (Nat.eqb _ 0); [apply keeps_logger|].
      apply keeps_bind; [apply keeps_logger|]. intros _.
      apply keeps_bind; [|intros; apply keeps_consumeStream].
      apply keeps_retryLoop. intros w. exists [].
      unfold generateContentStream. simpl. now rewrite app_nil_r.
  - intros e. apply keeps_bind; [apply keeps_logger | intros; apply keeps_deliver].
Qed.

Lemma liftNet_run {A} (m : M Gemini.World A) (ow : World) :
  liftNet m ow =
  (fst (m (net ow)),
   {| net := snd (m (net ow)); clock := clock ow; clockReads := clockReads ow;
      lastRequestTimestamps := lastRequestTimestamps ow |}).
Proof. unfold liftNet. destruct (m (net ow)). reflexivity. Qed.

Lemma streamGemini_normal character systemInstruction history w :
  fst (streamGeminiChatResponse character systemInstruction history deliver w)
  = Normal tt.
Proof.
  pose proof (StreamFacts.geminiBody_returns character systemInstruction history w) as Hret.
  unfold streamGeminiChatResponse, tryCatch.
  destruct (geminiBody character systemInstruction history deliver w)
    as [[[]|e|] w1]; simpl in *; [reflexivity | reflexivity | congruence].
Qed.

Section WithParser.

Variable deltaOf : string -> string + Value.

Lemma keeps_processLines : forall lines, keepsSleeps (processLines deltaOf deliver lines).
Proof.
  induction lines as [|line lines IH]; simpl; [apply keeps_ret|].
  destruct (startsWith (trim line) "data: "); [|exact IH].
  destruct (String.eqb _ "[DONE]"); [apply keeps_ret|].
  apply keeps_bind; [|intros; exact IH].
  apply keeps_tryCatch; [|intros; apply keeps_ret].
  apply keeps_bind; [apply keeps_lift|]. intros c.
  destruct (nonEmpty c); [apply keeps_deliver | apply keeps_ret].
Qed.

Lemma keeps_readLoop : forall reads buffer,
  keepsSleeps (readLoop deltaOf deliver reads buffer).
Proof.
  induction reads as [|[value|e] reads IH]; intros buffer; simpl.
  - apply keeps_ret.
  - apply keeps_bind; [apply keeps_processLines|].
    intros [|]; [apply keeps_ret | apply IH].
  - apply keeps_throw.
Qed.

Lemma keeps_streamOpenAI config systemInstruction history :
  keepsSleeps (streamOpenAIChatResponse deltaOf config systemInstruction history deliver).
Proof.
  unfold streamOpenAIChatResponse. apply keeps_tryCatch.
  - unfold openAIBody. apply keeps_bind.
    + unfold fetchWithRetry, withRetry. apply keeps_retryLoop.
      apply keeps_bind.
      * intros w. exists []. unfold fetch. simpl. now rewrite app_nil_r.
      * intros r. destruct (respStatus r =? 429); [apply keeps_throw | apply keeps_ret].
    + intros r. destruct (negb (respOk r)); [apply keeps_throw|].
      destruct (respBody r); [apply keeps_readLoop | apply keeps_throw].
  - intros e. apply keeps_bind; [apply keeps_logger | intros; apply keeps_deliver].
Qed.

Lemma streamOpenAI_normal config systemInstruction history w :
  fst (streamOpenAIChatResponse deltaOf config systemInstruction history deliver w)
  = Normal tt.
Proof.
  pose proof (StreamFacts.openAIBody_returns deltaOf config systemInstruction history w)
    as Hret.
  unfold streamOpenAIChatResponse, tryCatch.
  destruct (openAIBody deltaOf config systemInstruction history deliver w)
    as [[[]|e|] w1]; simpl in *; [reflexivity | reflexivity | congruence].
Qed.

(** The dispatch completes, leaves the clock and the timestamps alone and
    only adds sleeps. *)
Lemma dispatchChat_runs character config systemInstruction history (ow : World) :
  exists ow' later,
    dispatchChat deltaOf character config systemInstruction history deliver ow
      = (Normal tt, ow') /\
    slept (net ow') = slept (net ow) ++ later /\
    clockReads ow' = clockReads ow /\
    lastRequestTimestamps ow' = lastRequestTimestamps ow.
Proof.
  unfold dispatchChat.
  destruct (String.eqb (service config) "openai").
  - unfold bind. rewrite liftNet_run. simpl fst. cbv iota.
    destruct (negb (present (apiEndpoint config))).
    + rewrite liftNet_run. simpl.
      eexists _, []. rewrite app_nil_r. repeat split.
    + rewrite liftNet_run. simpl net.
      match goal with
      | |- context [streamOpenAIChatResponse deltaOf config systemInstruction history deliver ?w1] =>
          destruct (keeps_streamOpenAI config systemInstruction history w1)
            as [later Hl];
          rewrite (streamOpenAI_normal config systemInstruction history w1)
      end.
      eexists _, later. split; [reflexivity|]. simpl. rewrite Hl. repeat split.
  - rewrite liftNet_run.
    destruct (keeps_streamGemini character systemInstruction history (net ow))
      as [later Hl].
    rewrite streamGemini_normal.
    eexists _, later. split; [reflexivity|]. simpl. rewrite Hl. repeat split.
Qed.

Lemma withOverride_runs systemInstruction override (ow : World) :
  exists si ow',
    withOverride systemInstruction override ow = (Normal si, ow') /\
    slept (net ow') = slept (net ow) /\
    delivered (net ow') = delivered (net ow) /\
    fetched (net ow') = fetched (net ow) /\
    streamed (net ow') = streamed (net ow) /\
    clockReads ow' = clockReads ow /\
    lastRequestTimestamps ow' = lastRequestTimestamps ow.
Proof.
  unfold withOverride. destruct (present override).
  - unfold bind. rewrite liftNet_run. simpl. eexists _, _. repeat split.
  - eexists _, _. repeat split.
Qed.

(** X26: with a positive rate limit, [streamChatResponse] reads the clock,
    and if less than the limit has elapsed since the character's last
    recorded request it sleeps for exactly the remainder before doing
    anything else (otherwise it does not sleep); it then records the
    clock's next reading as the character's last request, leaves the
    timestamps of all other characters alone, and completes normally.
    If the timer waited at least that long, the recorded times of two
    consecutive requests are at least the limit apart. *)
Theorem streamChatResponse_rate_limited
        (character : Character) (persona : Persona) (allParticipants : list Character)
        (history : list Message) (override : option string) (ow : World) (limit : Z) :
  rateLimit (configOf character) = Some limit ->
  0 < limit ->
  let last := match lastRequestTimestamps ow (charId character) with
              | Some t => t
              | None => 0
              end in
  let now := clock ow (clockReads ow) in
  let now' := clock ow (S (clockReads ow)) in
  let delay := if now - last <? limit then limit - (now - last) else 0 in
  exists ow' later,
    streamChatResponse deltaOf character persona allParticipants history deliver
      override ow = (Normal tt, ow') /\
    slept (net ow') =
      slept (net ow) ++ (if now - last <? limit then [inject_Z delay] else []) ++ later /\
    lastRequestTimestamps ow' (charId character) = Some now' /\
    (forall k, k <> charId character ->
       lastRequestTimestamps ow' k = lastRequestTimestamps ow k) /\
    clockReads ow' = S (S (clockReads ow)) /\
    (now + delay <= now' -> limit <= now' - last).
Proof.
  intros Hlimit Hpos last now now' delay.
  unfold streamChatResponse. unfold bind at 1.
  unfold rateLimitBlock. rewrite Hlimit.
  destruct (Z.ltb_spec 0 limit); [|lia].
  unfold bind at 1, lastRequestTime at 1, gets at 1.
  unfold bind at 1, dateNow at 1. cbn [clock clockReads lastRequestTimestamps].
  fold last now.
  assert (Hgate :
    exists ow1,
      (let elapsed := now - last in
       if elapsed <? limit then
         let delay := limit - elapsed in
         liftNet (logger LogInfo
                    ("Rate limiting character " ++ dquote ++ charName character
                     ++ dquote ++ ". Delaying for " ++ showZ delay ++ "ms.")%string) ;;
         liftNet (sleep (inject_Z delay))
       else ret tt)
        {| net := net ow; clock := clock ow; clockReads := S (clockReads ow);
           lastRequestTimestamps := lastRequestTimestamps ow |} = (Normal tt, ow1) /\
      slept (net ow1) =
        slept (net ow) ++ (if now - last <? limit then [inject_Z delay] else []) /\
      clock ow1 = clock ow /\ clockReads ow1 = S (clockReads ow) /\
      lastRequestTimestamps ow1 = lastRequestTimestamps ow).
  { cbv zeta. unfold delay. destruct (now - last <? limit).
    - unfold bind. rewrite !liftNet_run. simpl. eexists. repeat split.
    - eexists. split; [reflexivity|]. simpl. rewrite app_nil_r. repeat split. }
  destruct Hgate as (ow1 & Hrun & Hsl1 & Hclk1 & Hreads1 & Hmap1).
  cbv zeta in Hrun. unfold bind at 1. cbv zeta. rewrite Hrun.
  unfold bind at 1, dateNow at 1, setLastRequestTime, modify.
  rewrite Hclk1, Hreads1. fold now'.
  cbn [net clock clockReads lastRequestTimestamps].
  unfold bind at 1.
  match goal with
  | |- context [withOverride ?s override ?ow2] =>
      destruct (withOverride_runs s override ow2)
        as (si & ow3 & Hov & Hsl3 & _ & _ & _ & Hreads3 & Hmap3)
  end.
  rewrite Hov.
  destruct (dispatchChat_runs character (configOf character) si history ow3)
    as (ow4 & later & Hdisp & Hsl4 & Hreads4 & Hmap4).
  exists ow4, later. split; [exact Hdisp|].
  simpl in Hsl3, Hreads3, Hmap3.
  split; [rewrite Hsl4, Hsl3, Hsl1, <- app_assoc; reflexivity|].
  split; [rewrite Hmap4, Hmap3; simpl; now rewrite String.eqb_refl|].
  split.
  { intros k Hk. rewrite Hmap4, Hmap3. simpl.
    destruct (String.eqb_spec k (charId character)); [contradiction|].
    now rewrite Hmap1. }
  split; [rewrite Hreads4, Hreads3; reflexivity|].
  unfold delay. destruct (Z.ltb_spec (now - last) limit); lia.
Qed.

(** X27: on the OpenAI-compatible service without a configured endpoint
    (absent or empty), [streamChatResponse] sends nothing: it delivers
    exactly one chunk, the message that the endpoint is not configured,
    and completes normally. *)
Theorem streamChatResponse_missing_endpoint
        (character : Character) (persona : Persona) (allParticipants : list Character)
        (history : list Message) (override : option string) (ow : World) :
  service (configOf character) = "openai" ->
  present (apiEndpoint (configOf character)) = false ->
  exists ow',
    streamChatResponse deltaOf character persona allParticipants history deliver
      override ow = (Normal tt, ow') /\
    delivered (net ow') =
      delivered (net ow) ++
      ["Error: OpenAI-compatible API endpoint is not configured for this character."] /\
    fetched (net ow') = fetched (net ow) /\
    streamed (net ow') = streamed (net ow).
Proof.
  intros Hsvc Hend.
  assert (Hgate : exists ow1,
            rateLimitBlock character (configOf character) ow = (Normal tt, ow1) /\
            delivered (net ow1) = delivered (net ow) /\
            fetched (net ow1) = fetched (net ow) /\
            streamed (net ow1) = streamed (net ow)).
  { unfold rateLimitBlock. destruct (rateLimit (configOf character)) as [limit|];
      [|eexists; repeat split].
    destruct (0 <? limit); [|eexists; repeat split].
    unfold bind, lastRequestTime, gets, dateNow, setLastRequestTime, modify.
    cbn [clock clockReads lastRequestTimestamps net].
    destruct (_ <? limit).
    - rewrite !liftNet_run. simpl. eexists. repeat split.
    - simpl. eexists. repeat split. }
  destruct Hgate as (ow1 & Hrun & Hd1 & Hf1 & Hs1).
  unfold streamChatResponse. unfold bind at 1. rewrite Hrun.
  unfold bind at 1.
  match goal with
  | |- context [withOverride ?s override ow1] =>
      destruct (withOverride_runs s override ow1)
        as (si & ow3 & Hov & _ & Hd3 & Hf3 & Hs3 & _ & _)
  end.
  rewrite Hov.
  unfold dispatchChat. rewrite Hsvc, Hend. simpl.
  unfold bind. rewrite !liftNet_run. simpl.
  eexists. split; [reflexivity|]. simpl.
  rewrite Hd3, Hf3, Hs3, Hd1, Hf1, Hs1. repeat split.
Qed.

(** X28: with rate limiting off (no limit, or a limit that is not
    positive) and a service other than [openai] (an unknown one or none
    included), [streamChatResponse] is the Gemini path run on the built
    system instruction: the clock is not read and no timestamp is
    recorded. *)
Theorem streamChatResponse_defaults_to_gemini
        (character : Character) (persona : Persona) (allParticipants : list Character)
        (history : list Message) (ow : World) :
  service (configOf character) <> "openai" ->
  (forall limit, rateLimit (configOf character) = Some limit -> limit <= 0) ->
  streamChatResponse deltaOf character persona allParticipants history deliver
    None ow =
  liftNet (streamGeminiChatResponse character
             (buildSystemInstruction character persona allParticipants)
             history deliver) ow /\
  clockReads (snd (streamChatResponse deltaOf character persona allParticipants
                     history deliver None ow)) = clockReads ow /\
  lastRequestTimestamps (snd (streamChatResponse deltaOf character persona
                                allParticipants history deliver None ow))
  = lastRequestTimestamps ow.
Proof.
  intros Hsvc Hlimit.
  assert (Hrun : streamChatResponse deltaOf character persona allParticipants history
                   deliver None ow =
                 liftNet (streamGeminiChatResponse character
                            (buildSystemInstruction character persona allParticipants)
                            history deliver) ow).
  { unfold streamChatResponse, rateLimitBlock, dispatchChat, withOverride.
    destruct (String.eqb_spec (service (configOf character)) "openai"); [contradiction|].
    destruct (rateLimit (configOf character)) as [limit|] eqn:Hl.
    - destruct (Z.ltb_spec 0 limit); [specialize (Hlimit limit eq_refl); lia|].
      reflexivity.
    - reflexivity. }
  rewrite Hrun, liftNet_run. repeat split.
Qed.

End WithParser.

Lemma streamChatResponse_rate_limited_witness :
  exists ow' later,
    streamChatResponse (fun _ => inl "") (limitedCharacter 5000 None) emptyPersona []
      [userMessage "hi"] deliver None
      {| net := Gemini.sampleWorld; clock := steadyClock 1000000 1000; clockReads := 0;
         lastRequestTimestamps := fun _ => Some 999000 |} = (Normal tt, ow') /\
    slept (net ow') = [inject_Z 4000] ++ later /\
    lastRequestTimestamps ow' "c1" = Some 1001000.
Proof.
  destruct (streamChatResponse_rate_limited (fun _ => inl "") (limitedCharacter 5000 None)
              emptyPersona [] [userMessage "hi"] None
              {| net := Gemini.sampleWorld; clock := steadyClock 1000000 1000;
                 clockReads := 0; lastRequestTimestamps := fun _ => Some 999000 |}
              5000 eq_refl eq_refl)
    as (ow' & later & Hrun & Hslept & Hlast & _).
  exists ow', later. split; [exact Hrun|]. split; [exact Hslept | exact Hlast].
Defined.

Lemma streamChatResponse_missing_endpoint_witness :
  exists ow',
    streamChatResponse (fun _ => inl "") (limitedCharacter 5000 None) emptyPersona []
      [userMessage "hi"] deliver None sampleWorld = (Normal tt, ow') /\
    delivered (net ow') =
      ["Error: OpenAI-compatible API endpoint is not configured for this character."] /\
    fetched (net ow') = [].
Proof.
  destruct (streamChatResponse_missing_endpoint (fun _ => inl "")
              (limitedCharacter 5000 None) emptyPersona [] [userMessage "hi"] None
              sampleWorld eq_refl eq_refl)
    as (ow' & Hrun & Hdelivered & Hfetched & _).
  exists ow'. split; [exact Hrun|]. split; [exact Hdelivered | exact Hfetched].
Defined.

Lemma streamChatResponse_defaults_to_gemini_witness :
  streamChatResponse (fun _ => inl "") Gemini.sampleCharacter emptyPersona []
    [userMessage "hi"] deliver None sampleWorld =
  liftNet (streamGeminiChatResponse Gemini.sampleCharacter
             (buildSystemInstruction Gemini.sampleCharacter emptyPersona [])
             [userMessage "hi"] deliver) sampleWorld.
Proof.
  apply (streamChatResponse_defaults_to_gemini (fun _ => inl "") Gemini.sampleCharacter
           emptyPersona [] [userMessage "hi"] sampleWorld).
  - simpl. discriminate.
  - simpl. intros limit H. discriminate H.
Defined.

End OrchestratorFacts.

(* ================================================================== *)
(** ** The speech queue *)

Module TtsFacts.
Import Tts.

Lemma closeTag_shorter : forall s rest,
  closeTag s = Some rest -> (String.length rest < String.length s)%nat.
Proof.
  induction s as [|c s IH]; intros rest H; simpl in *; [discriminate|].
  destruct (isClose c).
  - injection H as <-. lia.
  - destruct (isLineTerminator c); [discriminate|].
    specialize (IH rest H). lia.
Qed.

(** Fuel beyond the length of the string changes nothing. *)
Lemma replaceTags_fuel : forall fuel1 fuel2 s,
  (String.length s <= fuel1)%nat -> (String.length s <= fuel2)%nat ->
  replaceTags fuel1 s = replaceTags fuel2 s.
Proof.
  induction fuel1 as [|fuel1 IH]; intros fuel2 s H1 H2.
  - destruct s; simpl in *; [|lia]. destruct fuel2; reflexivity.
  - destruct fuel2 as [|fuel2].
    + destruct s; simpl in *; [reflexivity | lia].
    + destruct s as [|c s]; [reflexivity|]. simpl in *.
      destruct (isOpen c).
      * destruct (closeTag s) as [rest|] eqn:Hclose.
        -- apply closeTag_shorter in Hclose. apply IH; lia.
        -- f_equal. apply IH; lia.
      * f_equal. apply IH; lia.
Qed.

Lemma stripTags_cons c s :
  stripTags (String c s) =
  if isOpen c then
    match closeTag s with
    | Some rest => stripTags rest
    | None => String c (stripTags s)
    end
  else String c (stripTags s).
Proof.
  unfold stripTags. simpl.
  destruct (isOpen c).
  - destruct (closeTag s) as [rest|] eqn:Hclose; [|reflexivity].
    apply closeTag_shorter in Hclose. apply replaceTags_fuel; lia.
  - reflexivity.
Qed.

Lemma closeTag_inside : forall t b,
  allChars (fun c => negb (isClose c) && negb (isLineTerminator c)) t = true ->
  closeTag (t ++ String "]" b) = Some b.
Proof.
  induction t as [|c t IH]; intros b H; simpl in *; [reflexivity|].
  apply andb_prop in H as [Hc Ht]. apply andb_prop in Hc as [Hc1 Hc2].
  apply negb_true_iff in Hc1, Hc2. rewrite Hc1, Hc2. apply IH, Ht.
Qed.

(** *** What the scan leaves *)

Lemma closeTag_replaceTags : forall fuel s,
  closeTag s = None -> closeTag (replaceTags fuel s) = None.
Proof.
  induction fuel as [|fuel IH]; intros s H; [exact H|].
  destruct s as [|c s]; [reflexivity|]. simpl in *.
  destruct (isClose c) eqn:Hc; [discriminate|].
  destruct (isLineTerminator c) eqn:Hl.
  - destruct (isOpen c) eqn:Ho.
    + unfold isOpen, isLineTerminator in Ho, Hl.
      apply Nat.eqb_eq in Ho. rewrite Ho in Hl. discriminate.
    + simpl. rewrite Hc, Hl. reflexivity.
  - destruct (isOpen c).
    + rewrite H. simpl. rewrite Hc, Hl. apply IH, H.
    + simpl. rewrite Hc, Hl. apply IH, H.
Qed.

Lemma replaceTags_tagFree : forall fuel s,
  (String.length s <= fuel)%nat -> tagFree (replaceTags fuel s) = true.
Proof.
  induction fuel as [|fuel IH]; intros s Hlen.
  - destruct s; simpl in *; [reflexivity | lia].
  - destruct s as [|c s]; [reflexivity|]. simpl in *.
    destruct (isOpen c) eqn:Ho.
    + destruct (closeTag s) as [rest|] eqn:Hclose.
      * apply closeTag_shorter in Hclose. apply IH. lia.
      * simpl. rewrite Ho, (closeTag_replaceTags fuel s Hclose). simpl.
        apply IH. lia.
    + simpl. rewrite Ho. simpl. apply IH. lia.
Qed.

Lemma isStar_not_special c :
  isStar c = true ->
  isClose c = false /\ isLineTerminator c = false /\ isOpen c = false /\
  isSpace c = false.
Proof.
  unfold isStar, isClose, isLineTerminator, isOpen, isSpace.
  intros H. apply Nat.eqb_eq in H. rewrite H. repeat split.
Qed.

Lemma closeTag_removeStars : forall s,
  closeTag s = None -> closeTag (removeStars s) = None.
Proof.
  induction s as [|c s IH]; intros H; [reflexivity|]. simpl in *.
  destruct (isClose c) eqn:Hc; [discriminate|].
  destruct (isStar c) eqn:Hs.
  - destruct (isStar_not_special c Hs) as (_ & Hl & _). rewrite Hl in H. apply IH, H.
  - simpl. rewrite Hc. destruct (isLineTerminator c); [reflexivity | apply IH, H].
Qed.

Lemma removeStars_tagFree : forall s,
  tagFree s = true -> tagFree (removeStars s) = true.
Proof.
  induction s as [|c s IH]; intros H; [reflexivity|]. simpl in *.
  apply andb_prop in H as [Hhead Htail].
  destruct (isStar c) eqn:Hs; [apply IH, Htail|].
  simpl. rewrite (IH Htail), andb_true_r.
  destruct (isOpen c); [|reflexivity].
  destruct (closeTag s) eqn:Hclose; [discriminate|].
  now rewrite (closeTag_removeStars s Hclose).
Qed.

Lemma removeStars_noStar : forall s,
  allChars (fun c => negb (isStar c)) (removeStars s) = true.
Proof.
  induction s as [|c s IH]; [reflexivity|]. simpl.
  destruct (isStar c) eqn:Hs; [exact IH|]. simpl. now rewrite Hs, IH.
Qed.

(** *** [trim] *)

Lemma trimStart_allChars p : forall s,
  allChars p s = true -> allChars p (trimStart s) = true.
Proof.
  induction s as [|c s IH]; intros H; [reflexivity|]. simpl in *.
  apply andb_prop in H as [Hc Hs].
  destruct (isSpace c); [apply IH, Hs|]. simpl. now rewrite Hc, Hs.
Qed.

Lemma trimEnd_allChars p : forall s,
  allChars p s = true -> allChars p (trimEnd s) = true.
Proof.
  induction s as [|c s IH]; intros H; [reflexivity|]. simpl in *.
  apply andb_prop in H as [Hc Hs]. specialize (IH Hs).
  destruct (trimEnd s) as [|d t].
  - destruct (isSpace c); [reflexivity|]. simpl. now rewrite Hc.
  - change (allChars p (String c (String d t))) with (p c && allChars p (String d t)).
    now rewrite Hc, IH.
Qed.

Lemma trimStart_tagFree : forall s,
  tagFree s = true -> tagFree (trimStart s) = true.
Proof.
  induction s as [|c s IH]; intros H; [reflexivity|]. simpl trimStart.
  destruct (isSpace c); [|exact H].
  simpl in H. apply andb_prop in H as [_ H]. apply IH, H.
Qed.

Lemma closeTag_trimEnd : forall s,
  closeTag s = None -> closeTag (trimEnd s) = None.
Proof.
  induction s as [|c s IH]; intros H; [reflexivity|]. simpl in *.
  destruct (isClose c) eqn:Hc; [discriminate|].
  destruct (trimEnd s) as [|d t].
  - destruct (isSpace c); [reflexivity|]. simpl. rewrite Hc.
    now destruct (isLineTerminator c).
  - change (closeTag (String c (String d t))) with
      (if isClose c then Some (String d t)
       else if isLineTerminator c then None else closeTag (String d t)).
    rewrite Hc. destruct (isLineTerminator c); [reflexivity | apply IH, H].
Qed.

Lemma trimEnd_tagFree : forall s,
  tagFree s = true -> tagFree (trimEnd s) = true.
Proof.
  induction s as [|c s IH]; intros H; [reflexivity|]. simpl in H.
  apply andb_prop in H as [Hhead Htail]. specialize (IH Htail).
  pose proof (closeTag_trimEnd s) as Hclose.
  simpl. destruct (trimEnd s) as [|d t].
  - destruct (isSpace c); [reflexivity|]. simpl. destruct (isOpen c); reflexivity.
  - change (tagFree (String c (String d t))) with
      ((if isOpen c
        then match closeTag (String d t) with Some _ => false | None => true end
        else true) && tagFree (String d t)).
    rewrite IH, andb_true_r.
    destruct (isOpen c); [|reflexivity].
    destruct (closeTag s); [discriminate|]. now rewrite Hclose.
Qed.

Lemma trimEnd_idem : forall s, trimEnd (trimEnd s) = trimEnd s.
Proof.
  induction s as [|c s IH]; [reflexivity|]. simpl.
  destruct (trimEnd s) as [|d t] eqn:Ht.
  - destruct (isSpace c) eqn:Hc; [reflexivity|]. simpl. now rewrite Hc.
  - change (trimEnd (String c (String d t))) with
      (match trimEnd (String d t) with
       | EmptyString => if isSpace c then EmptyString else String c EmptyString
       | u => String c u
       end).
    now rewrite IH.
Qed.

Lemma trimStart_headed : forall s, headed (trimStart s) = true.
Proof.
  induction s as [|c s IH]; [reflexivity|]. simpl.
  destruct (isSpace c) eqn:Hc; [exact IH|]. simpl. now rewrite Hc.
Qed.

Lemma trimEnd_headed s : headed s = true -> headed (trimEnd s) = true.
Proof.
  destruct s as [|c s]; [reflexivity|]. simpl. intros Hc.
  apply negb_true_iff in Hc.
  destruct (trimEnd s); [rewrite Hc|]; simpl; now rewrite Hc.
Qed.

Lemma trimStart_of_headed s : headed s = true -> trimStart s = s.
Proof.
  destruct s as [|c s]; [reflexivity|]. simpl. intros Hc.
  apply negb_true_iff in Hc. now rewrite Hc.
Qed.

Lemma trim_idem s : trim (trim s) = trim s.
Proof.
  unfold trim.
  rewrite (trimStart_of_headed (trimEnd (trimStart s))).
  - apply trimEnd_idem.
  - apply trimEnd_headed, trimStart_headed.
Qed.

Lemma trimEnd_empty : forall s, trimEnd s = "" -> allChars isSpace s = true.
Proof.
  induction s as [|c s IH]; intros H; [reflexivity|]. simpl in *.
  destruct (trimEnd s) as [|d t]; [|discriminate].
  destruct (isSpace c); [|discriminate]. simpl. now apply IH.
Qed.

Lemma trimStart_spaces : forall s,
  allChars isSpace (trimStart s) = true -> allChars isSpace s = true.
Proof.
  induction s as [|c s IH]; intros H; [reflexivity|]. simpl in *.
  destruct (isSpace c) eqn:Hc; simpl.
  - now apply IH.
  - simpl in H. now rewrite Hc in H.
Qed.

Lemma isSpace_not_special c :
  isSpace c = true -> isOpen c = false /\ isStar c = false.
Proof.
  unfold isSpace, isOpen, isStar. intros H.
  destruct (Nat.eqb_spec (nat_of_ascii c) 91) as [E|_];
    [rewrite E in H; discriminate|].
  destruct (Nat.eqb_spec (nat_of_ascii c) 42) as [E|_];
    [rewrite E in H; discriminate|].
  split; reflexivity.
Qed.

Lemma replaceTags_spaces : forall fuel s,
  allChars isSpace s = true -> replaceTags fuel s = s.
Proof.
  induction fuel as [|fuel IH]; intros s H; [reflexivity|].
  destruct s as [|c s]; [reflexivity|]. simpl in *.
  apply andb_prop in H as [Hc Hs].
  destruct (isSpace_not_special c Hc) as [Ho _]. rewrite Ho.
  f_equal. apply IH, Hs.
Qed.

Lemma removeStars_spaces : forall s,
  allChars isSpace s = true -> removeStars s = s.
Proof.
  induction s as [|c s IH]; intros H; [reflexivity|]. simpl in *.
  apply andb_prop in H as [Hc Hs].
  destruct (isSpace_not_special c Hc) as [_ Hstar]. rewrite Hstar.
  f_equal. apply IH, Hs.
Qed.

(** A blank text stays blank when cleaned: the first test of [speak] is
    covered by the second. *)
Lemma cleanText_blank t : trim t = "" -> cleanText t = "".
Proof.
  intros H.
  assert (Hs : allChars isSpace t = true)
    by (apply trimStart_spaces, trimEnd_empty, H).
  unfold cleanText, stripTags.
  now rewrite (replaceTags_spaces _ t Hs), (removeStars_spaces t Hs).
Qed.

Lemma nonEmpty_false s : nonEmpty s = false -> s = "".
Proof. destruct s; [reflexivity | discriminate]. Qed.

(** X29: what [speak] pushes on the audio queue.  For a text that is
    there, it pushes an item exactly when the cleaned text is not empty
    (the first test, on the trimmed input, never decides alone), and the
    item holds the cleaned text and the given voice, or [Puck] when no
    voice or an empty one is given.  The cleaned text holds no asterisk,
    no bracketed tag on one line, and no white space at either end. *)
Theorem speak_enqueues_clean_text (t : string) (voiceURI : option string) :
  speak (Some t) voiceURI =
    (if nonEmpty (cleanText t)
     then Some {| text := cleanText t; voiceId := Gemini.orDefault voiceURI "Puck" |}
     else None) /\
  allChars (fun c => negb (isStar c)) (cleanText t) = true /\
  tagFree (cleanText t) = true /\
  trim (cleanText t) = cleanText t.
Proof.
  split; [|split; [|split]].
  - unfold speak. destruct (nonEmpty (trim t)) eqn:Hblank; simpl.
    + destruct (nonEmpty (cleanText t)); reflexivity.
    + apply nonEmpty_false in Hblank. now rewrite (cleanText_blank t Hblank).
  - unfold cleanText, trim.
    apply trimEnd_allChars, trimStart_allChars, removeStars_noStar.
  - unfold cleanText, trim.
    apply trimEnd_tagFree, trimStart_tagFree, removeStars_tagFree.
    unfold stripTags. apply replaceTags_tagFree. lia.
  - unfold cleanText. apply trim_idem.
Qed.

(** X30: the scan of [speak] for bracketed tags.  Up to the first
    opening bracket the text is kept; a tag that closes on its line (no
    closing bracket and no line terminator inside) is dropped whole, and
    the scan goes on after its closing bracket. *)
Theorem stripTags_removes_tag (before inside rest : string) :
  allChars (fun c => negb (isOpen c)) before = true ->
  allChars (fun c => negb (isClose c) && negb (isLineTerminator c)) inside = true ->
  stripTags (before ++ String "[" (inside ++ String "]" rest))
  = (before ++ stripTags rest)%string.
Proof.
  intros Hbefore Hinside.
  induction before as [|c before IH]; simpl.
  - rewrite stripTags_cons. simpl. now rewrite (closeTag_inside inside rest Hinside).
  - simpl in Hbefore. apply andb_prop in Hbefore as [Hc Hb].
    apply negb_true_iff in Hc. rewrite stripTags_cons, Hc. f_equal. apply IH, Hb.
Qed.

Lemma stripTags_removes_tag_witness :
  stripTags "Hello [smiles]world" = "Hello world".
Proof.
  apply (stripTags_removes_tag "Hello " "smiles" "world"); reflexivity.
Defined.

End TtsFacts.
